(** * A shallow embedding of the WhatsApp flow engine

    The development follows the TypeScript sources of the repository:
    - [src/index.ts]              webhook verification handler      ([Webhook])
                                  manual trigger route               ([Routes])
    - [src/lib/meta.ts]           broadcast reconciliation, contact
                                  resolution, outbound sender, flow
                                  matching, webhook and manual
                                  trigger intake                     ([Meta])
    - [src/lib/flow-schema.ts]    flow-definition sanitizer          ([FlowSchema])
    - [src/lib/flow-executor.ts]  template interpolation, condition
                                  evaluation, history, main loop     ([Executor])
                                  Meta flow columns of the service   ([FlowService])

    JavaScript values are modelled by the type [JS.value]; objects are finite
    maps from property names to values (stdpp's [gmap]), arrays are lists.
    Strings are sequences of code units in the range 0..255.  Numbers are
    integers, [NaN] or an infinity: a number with a fraction is outside the
    model.  [JS.prop] reads own properties; where a claim depends on what the
    prototypes of the runtime supply or on a conversion that throws, the
    development says so ([Executor.read_key], [Executor.ToString]). *)

From stdpp Require Import gmap strings list fin_maps pretty.
From Stdlib Require Import ZArith Ascii.

Set Warnings "-register-all".
Local Open Scope Z_scope.

(* ===================================================================== *)
(** * JavaScript values and the string primitives used by the sources    *)
(* ===================================================================== *)

Module JS.

Inductive num :=
| NFin (z : Z)
| NNaN
| NInf (negative : bool).

Inductive value :=
| VUndef
| VNull
| VBool (b : bool)
| VNum (n : num)
| VStr (s : string)
| VArray (l : list value) (props : gmap string value)
| VObj (m : gmap string value).

(** An array without named properties, as array literals and [JSON.parse]
    build them. *)
Abbreviation VArr l := (VArray l ∅).

Global Instance num_eq_dec : EqDecision num.
Proof. solve_decision. Defined.

Definition isFinite (n : num) : bool :=
  match n with NFin _ => true | _ => false end.

(** [v === undefined || v === null], the test behind [??] and [== null]. *)
Definition nullish (v : value) : bool :=
  match v with VUndef | VNull => true | _ => false end.

Definition is_undefined (v : value) : bool :=
  match v with VUndef => true | _ => false end.

(** [a ?? b] *)
Definition coalesce (a b : value) : value := if nullish a then b else a.

(** ToBoolean *)
Definition truthy (v : value) : bool :=
  match v with
  | VUndef | VNull => false
  | VBool b => b
  | VNum (NFin z) => negb (z =? 0)
  | VNum NNaN => false
  | VNum (NInf _) => true
  | VStr s => negb (bool_decide (s = ""))
  | VArray _ _ | VObj _ => true
  end.

Definition isString (v : value) : bool :=
  match v with VStr _ => true | _ => false end.

Definition isArray (v : value) : bool :=
  match v with VArray _ _ => true | _ => false end.

(** [typeof v === "object" && v !== null && !Array.isArray(v)] *)
Definition isPlainObject (v : value) : bool :=
  match v with VObj _ => true | _ => false end.

(** [typeof v === "object" || typeof v === "function"], for non-null [v]. *)
Definition isObjectLike (v : value) : bool :=
  match v with VArray _ _ | VObj _ => true | _ => false end.

(** ** Characters and strings *)

Definition is_digit (c : ascii) : bool :=
  let n := N_of_ascii c in ((48 <=? n) && (n <=? 57))%N.

(** The class [\w] of JavaScript regular expressions: [A-Za-z0-9_]. *)
Definition is_word (c : ascii) : bool :=
  let n := N_of_ascii c in
  (((48 <=? n) && (n <=? 57)) || ((65 <=? n) && (n <=? 90)) ||
   ((97 <=? n) && (n <=? 122)) || (n =? 95))%N.

(** The class [\s] (and the characters removed by [trim]) below U+0100:
    tab, line feed, vertical tab, form feed, carriage return, space and
    the no-break space. *)
Definition is_space (c : ascii) : bool :=
  let n := N_of_ascii c in
  (((9 <=? n) && (n <=? 13)) || (n =? 32) || (n =? 160))%N.

Definition chars (s : string) : list ascii := String.list_ascii_of_string s.
Definition str (l : list ascii) : string := String.string_of_list_ascii l.

Lemma str_chars s : str (chars s) = s.
Proof. apply String.string_of_list_ascii_of_string. Qed.

Lemma chars_str l : chars (str l) = l.
Proof. apply String.list_ascii_of_string_of_list_ascii. Qed.

Lemma chars_app s t : chars (s +:+ t) = chars s ++ chars t.
Proof. induction s as [|c s IH]; simpl; [done|]. by rewrite <- IH. Qed.

Lemma str_app l k : str (l ++ k) = str l +:+ str k.
Proof. induction l as [|c l IH]; simpl; [done|]. by rewrite IH. Qed.

Fixpoint drop_while {A} (p : A → bool) (l : list A) : list A :=
  match l with
  | [] => []
  | x :: l' => if p x then drop_while p l' else l
  end.

Fixpoint take_while {A} (p : A → bool) (l : list A) : list A :=
  match l with
  | [] => []
  | x :: l' => if p x then x :: take_while p l' else []
  end.

Lemma take_drop_while {A} (p : A → bool) l :
  take_while p l ++ drop_while p l = l.
Proof. induction l as [|x l IH]; simpl; [done|]. destruct (p x); simpl; by rewrite ?IH. Qed.

(** [String.prototype.trim] *)
Definition trim_chars (l : list ascii) : list ascii :=
  reverse (drop_while is_space (reverse (drop_while is_space l))).

Definition trim (s : string) : string := str (trim_chars (chars s)).

(** [s.replace(/[^0-9]/g, "")] *)
Definition digits_only (s : string) : string := str (filter is_digit (chars s)).

(** [l] starts with the characters [p]. *)
Fixpoint starts_with (p l : list ascii) : bool :=
  match p, l with
  | [], _ => true
  | _ :: _, [] => false
  | a :: p', b :: l' => bool_decide (a = b) && starts_with p' l'
  end.

Lemma starts_with_app p l : starts_with p (p ++ l) = true.
Proof. induction p as [|a p IH]; simpl; [done|]. by rewrite bool_decide_eq_true_2, IH. Qed.

Lemma starts_with_spec p l : starts_with p l = true → ∃ r, l = p ++ r.
Proof.
  revert l. induction p as [|a p IH]; intros l H; simpl in *.
  - by exists l.
  - destruct l as [|b l]; [done|].
    apply andb_prop in H as [Hab Hl]. apply bool_decide_eq_true_1 in Hab as ->.
    destruct (IH _ Hl) as [r ->]. by exists r.
Qed.

(** [s.includes(p)] *)
Fixpoint includes_chars (p l : list ascii) : bool :=
  starts_with p l ||
  match l with
  | [] => false
  | _ :: l' => includes_chars p l'
  end.

Definition includes (s p : string) : bool := includes_chars (chars p) (chars s).

(** Number to string, as [String(n)] prints integers. *)
Definition num_to_string (n : num) : string :=
  match n with
  | NFin z => pretty z
  | NNaN => "NaN"
  | NInf false => "Infinity"
  | NInf true => "-Infinity"
  end.

Fixpoint join_with (sep : string) (l : list string) : string :=
  match l with
  | [] => ""
  | [s] => s
  | s :: l' => s +:+ sep +:+ join_with sep l'
  end.

(** [String(v)]: arrays print their elements separated by commas, with
    [null] and [undefined] elements printed as the empty string.  An object
    or array with a [toString] of its own has no conversion, and an integer
    beyond [2^53] prints otherwise: [Executor.ToString] tells these cases
    apart. *)
Fixpoint js_String (v : value) : string :=
  match v with
  | VUndef => "undefined"
  | VNull => "null"
  | VBool true => "true"
  | VBool false => "false"
  | VNum n => num_to_string n
  | VStr s => s
  | VArray l _ =>
      join_with "," ((λ x, if nullish x then "" else js_String x) <$> l)
  | VObj _ => "[object Object]"
  end.

(** A property name is an array index when it is the canonical decimal
    spelling of a natural number. *)
Definition digit_val (c : ascii) : nat := N.to_nat (N_of_ascii c - 48).

Definition parse_index (k : string) : option nat :=
  match chars k with
  | [] => None
  | c :: r =>
      if forallb is_digit (c :: r) &&
         (negb (bool_decide (c = "0"%char)) || bool_decide (r = []))
      then Some (foldl (λ acc d, 10 * acc + digit_val d)%nat 0%nat (c :: r))
      else None
  end.

(** The property read [v[k]] for an object-like [v]: own properties of
    objects; elements, [length] and named properties of arrays.  Properties inherited from
    the built-in prototypes are outside the model. *)
Definition prop (v : value) (k : string) : value :=
  match v with
  | VObj m => default VUndef (m !! k)
  | VArray l props =>
      match parse_index k with
      | Some i => default VUndef (l !! i)
      | None =>
          if bool_decide (k = "length") then VNum (NFin (Z.of_nat (length l)))
          else default VUndef (props !! k)
      end
  | _ => VUndef
  end.

(** [String.prototype.toLowerCase] on the code units below U+0100. *)
Definition to_lower_char (c : ascii) : ascii :=
  let n := N_of_ascii c in
  if (((65 <=? n) && (n <=? 90)) ||
      ((192 <=? n) && (n <=? 222) && negb (n =? 215)))%N
  then ascii_of_N (n + 32) else c.

Definition toLowerCase (s : string) : string := str (to_lower_char <$> chars s).

(** [s.replace(/\s+/g, "_")]: [in_run] tells that the previous character
    belonged to the run of white space being replaced. *)
Fixpoint replace_ws_go (in_run : bool) (l : list ascii) : list ascii :=
  match l with
  | [] => []
  | c :: l' =>
      if is_space c then
        if in_run then replace_ws_go true l' else "_"%char :: replace_ws_go true l'
      else c :: replace_ws_go false l'
  end.

Definition replace_ws (s : string) : string := str (replace_ws_go false (chars s)).

(** [v?.[k]] *)
Definition opt_prop (v : value) (k : string) : value :=
  if nullish v then VUndef else prop v k.

(** An object literal. *)
Definition obj (fields : list (string * value)) : value :=
  VObj (foldl (λ m kv, <[kv.1 := kv.2]> m) ∅ fields).

Definition opt_str (o : option string) : value :=
  match o with Some s => VStr s | None => VUndef end.

(** [!s] for an optional string. *)
Definition blank (o : option string) : bool :=
  match o with Some s => bool_decide (s = "") | None => true end.

(** [Number(v)], given the conversion [s2n] of a string to a number. *)
Definition to_number (s2n : string → num) (v : value) : num :=
  match v with
  | VUndef => NNaN
  | VNull => NFin 0
  | VBool true => NFin 1
  | VBool false => NFin 0
  | VNum n => n
  | VStr s => s2n s
  | VArray _ _ => s2n (js_String v)
  | VObj _ => NNaN
  end.

(** [a[i] = x] on an array: past the end the array grows, the skipped
    positions reading [undefined]. *)
Definition array_set_index (l : list value) (i : nat) (x : value) : list value :=
  if decide (i < length l)%nat then <[i := x]> l
  else l ++ replicate (i - length l) VUndef ++ [x].

(** [a.length = n]: [None] stands for the [RangeError] raised when [n] is
    not an integer between 0 and 2^32 - 1. *)
Definition array_set_length (l : list value) (n : num) : option (list value) :=
  match n with
  | NFin z =>
      if (0 <=? z) && (z <? 2 ^ 32) then Some (resize (Z.to_nat z) VUndef l)
      else None
  | _ => None
  end.

(** The assignment [v[k] = x]; [None] stands for a thrown error. *)
Definition assign (s2n : string → num) (v : value) (k : string) (x : value)
    : option value :=
  match v with
  | VObj m => Some (VObj (<[k := x]> m))
  | VArray l p =>
      match parse_index k with
      | Some i => Some (VArray (array_set_index l i x) p)
      | None =>
          if bool_decide (k = "length")
          then (λ l', VArray l' p) <$> array_set_length l (to_number s2n x)
          else Some (VArray l (<[k := x]> p))
      end
  | _ => None
  end.

(** [Object.entries(v)] *)
Definition entries (v : value) : list (string * value) :=
  match v with
  | VObj m => map_to_list m
  | VArray l p => imap (λ i x, (pretty i, x)) l ++ map_to_list p
  | VStr s => imap (λ i c, (pretty i, VStr (String c ""))) (chars s)
  | _ => []
  end.

(** [a === s] for a value [a] and a string [s]. *)
Definition is_str (a : value) (s : string) : bool :=
  match a with VStr t => bool_decide (t = s) | _ => false end.

Definition string_of (v : value) : string :=
  match v with VStr s => s | _ => "" end.

(** The non-empty parts of [s.split(/\s+/u)]. *)
Fixpoint ws_parts_go (cur : list ascii) (l : list ascii) : list string :=
  match l with
  | [] => match cur with [] => [] | _ => [str (reverse cur)] end
  | c :: l' =>
      if is_space c then
        match cur with
        | [] => ws_parts_go [] l'
        | _ => str (reverse cur) :: ws_parts_go [] l'
        end
      else ws_parts_go (c :: cur) l'
  end.

Definition ws_parts (s : string) : list string := ws_parts_go [] (chars s).

(** The size of a value, used for induction over nested values. *)
Fixpoint vsize (v : value) : nat :=
  match v with
  | VArray l p =>
      S (foldr (λ x acc, vsize x + acc)%nat 0%nat l +
         map_fold (λ _ x acc, vsize x + acc)%nat 0%nat p)
  | VObj m => S (map_fold (λ _ x acc, vsize x + acc)%nat 0%nat m)
  | _ => 1%nat
  end.

Lemma foldr_vsize_elem l x :
  x ∈ l → (vsize x ≤ foldr (λ x acc, vsize x + acc) 0 l)%nat.
Proof. induction 1 as [x l|x y l _ IH]; simpl; lia. Qed.

Lemma map_fold_vsize_lookup (m : gmap string value) k x :
  m !! k = Some x → (vsize x ≤ map_fold (λ _ x acc, vsize x + acc) 0 m)%nat.
Proof.
  revert k x.
  apply (map_fold_weak_ind (λ r (m : gmap string value),
           ∀ k x, m !! k = Some x → (vsize x ≤ r)%nat)).
  - intros k x. by rewrite lookup_empty.
  - intros i y m' r Hi IH k x. rewrite lookup_insert.
    case_decide as Hk.
    + intros [= ->]. lia.
    + intros Hx. specialize (IH _ _ Hx). lia.
Qed.

Lemma vsize_elem l p x : x ∈ l → (vsize x < vsize (VArray l p))%nat.
Proof. intros H%foldr_vsize_elem. simpl. lia. Qed.

Lemma vsize_props l (p : gmap string value) k x :
  p !! k = Some x → (vsize x < vsize (VArray l p))%nat.
Proof. intros H%map_fold_vsize_lookup. simpl. lia. Qed.

Lemma vsize_lookup (m : gmap string value) k x :
  m !! k = Some x → (vsize x < vsize (VObj m))%nat.
Proof. intros H%map_fold_vsize_lookup. simpl. lia. Qed.

End JS.

Import JS.

(* ===================================================================== *)
(** * Webhook verification ([src/index.ts], [app.get("/meta/webhook")])  *)
(* ===================================================================== *)

Module Webhook.

(** The three environment variables read at start-up; [None] is an unset
    variable. *)
Record Env := {
  META_VERIFY_TOKEN : option string;
  WHATSAPP_VERIFY_TOKEN : option string;
  VERIFY_TOKEN_var : option string;
}.

(** [process.env.META_VERIFY_TOKEN ?? process.env.WHATSAPP_VERIFY_TOKEN ??
     process.env.VERIFY_TOKEN ?? ""] *)
Definition VERIFY_TOKEN (e : Env) : string :=
  match META_VERIFY_TOKEN e with
  | Some t => t
  | None =>
      match WHATSAPP_VERIFY_TOKEN e with
      | Some t => t
      | None => default "" (VERIFY_TOKEN_var e)
      end
  end.

(** The parsed query string: each entry is a string, an array, a nested
    object or absent ([VUndef]). *)
Record Query := {
  hub_mode : value;
  hub_verify_token : value;
  hub_challenge : value;
}.

Record Response := { status : Z; body : string }.

(** [res.sendStatus(code)] answers with the status text as body. *)
Definition sendStatus (code : Z) : Response :=
  {| status := code;
     body := if code =? 403 then "Forbidden" else pretty code |}.

(** [a === s] for a value [a] and a string [s]. *)
Definition strict_eq_str (a : value) (s : string) : bool :=
  match a with VStr t => bool_decide (t = s) | _ => false end.

Definition webhook_get (e : Env) (q : Query) : Response :=
  let mode := hub_mode q in
  let token := hub_verify_token q in
  let challenge := hub_challenge q in
  match challenge with
  | VStr c =>
      if strict_eq_str mode "subscribe" then
        if bool_decide (VERIFY_TOKEN e = "") || negb (strict_eq_str token (VERIFY_TOKEN e))
        then sendStatus 403
        else {| status := 200; body := c |}
      else {| status := 400; body := "Invalid verification request" |}
  | _ => {| status := 400; body := "Invalid verification request" |}
  end.

(** The claim as the specification words it: a matching token together
    with a string challenge is answered by 200 and the challenge. *)
Definition verification_as_stated (e : Env) (q : Query) : Prop :=
  ∀ c, hub_verify_token q = VStr (VERIFY_TOKEN e) →
       hub_challenge q = VStr c →
       webhook_get e q = {| status := 200; body := c |}.

Definition env_secret : Env :=
  {| META_VERIFY_TOKEN := Some "secret";
     WHATSAPP_VERIFY_TOKEN := None;
     VERIFY_TOKEN_var := None |}.

(** A request without [hub.mode=subscribe]: right token, string challenge. *)
Definition query_no_mode : Query :=
  {| hub_mode := VUndef;
     hub_verify_token := VStr "secret";
     hub_challenge := VStr "12345" |}.

(** What the handler does: it answers 200 exactly when the mode is
    ["subscribe"], the challenge is a string, a token is configured and the
    supplied token is that string. *)
Definition accepts (e : Env) (q : Query) : bool :=
  strict_eq_str (hub_mode q) "subscribe" &&
  isString (hub_challenge q) &&
  negb (bool_decide (VERIFY_TOKEN e = "")) &&
  strict_eq_str (hub_verify_token q) (VERIFY_TOKEN e).

(** C9, counterexample: with the configured token and a string challenge
    but no [hub.mode], the handler answers 400, not 200. *)
Lemma webhook_get_counterexample :
  ¬ verification_as_stated env_secret query_no_mode.
Proof.
  intros H. specialize (H "12345" eq_refl eq_refl). discriminate H.
Qed.

(** C9, amended: when [hub.mode] is ["subscribe"], [hub.challenge] is a
    string [c], a verify token is configured (non-empty) and
    [hub.verify_token] equals it, the response is 200 with body [c]; in every
    other case the response status is 403 or 400. *)
Theorem webhook_get_verification (e : Env) (q : Query) :
  (accepts e q = true →
     ∃ c, hub_challenge q = VStr c ∧
          webhook_get e q = {| status := 200; body := c |}) ∧
  (accepts e q = false →
     status (webhook_get e q) = 403 ∨ status (webhook_get e q) = 400).
Proof.
  unfold accepts, webhook_get.
  destruct (hub_challenge q) as [| |b|n|c|l p|m]; simpl;
    try (rewrite andb_false_r; simpl; split; [done|by right]).
  destruct (strict_eq_str (hub_mode q) "subscribe"); simpl; [|split; [done|by right]].
  destruct (bool_decide (VERIFY_TOKEN e = "")); simpl; [split; [done|by left]|].
  destruct (strict_eq_str (hub_verify_token q) (VERIFY_TOKEN e)); simpl.
  - split; [|done]. intros _. by exists c.
  - split; [done|by left].
Qed.

Lemma webhook_get_verification_witness :
  webhook_get env_secret
    {| hub_mode := VStr "subscribe";
       hub_verify_token := VStr "secret";
       hub_challenge := VStr "12345" |}
  = {| status := 200; body := "12345" |} ∧
  (status (webhook_get env_secret query_no_mode) = 403 ∨
   status (webhook_get env_secret query_no_mode) = 400).
Proof.
  split.
  - destruct (proj1 (webhook_get_verification env_secret
        {| hub_mode := VStr "subscribe";
           hub_verify_token := VStr "secret";
           hub_challenge := VStr "12345" |}) eq_refl) as [c [Hc Hr]].
    exact (eq_trans Hr (f_equal (λ v, {| status := 200;
             body := match v with VStr s => s | _ => "" end |}) (eq_sym Hc))).
  - exact (proj2 (webhook_get_verification env_secret query_no_mode) eq_refl).
Defined.

End Webhook.

(* ===================================================================== *)
(** * Broadcast reconciliation and contact resolution ([src/lib/meta.ts]) *)
(* ===================================================================== *)

Module Meta.

(** ** [normalizePhone] *)

(** [normalizePhone(value?: string | null): string | null] *)
Definition normalizePhone (value : option string) : option string :=
  match value with
  | None => None
  | Some v =>
      if bool_decide (v = "") then None
      else
        let digits := digits_only v in
        if bool_decide (String.length digits = 0%nat) then None else Some digits
  end.

(** ** Broadcast aggregates *)

Definition BROADCAST_SUCCESS_STATUSES : gset string :=
  {[ "Sent"; "Delivered"; "Read" ]}.
Definition BROADCAST_FAILURE_STATUSES : gset string := {[ "Failed" ]}.

(** [set.has(s)] *)
Definition has (set : gset string) (s : string) : bool := bool_decide (s ∈ set).

(** [Prisma.BroadcastUpdateInput], restricted to the two counters. *)
Inductive CounterOp := increment (n : Z) | decrement (n : Z).

Record BroadcastUpdateInput := {
  successCount : option CounterOp;
  failureCount : option CounterOp;
}.

(** [previousStatus ? SET.has(previousStatus) : false] *)
Definition prev_has (set : gset string) (previousStatus : option string) : bool :=
  match previousStatus with
  | Some p => if bool_decide (p = "") then false else has set p
  | None => false
  end.

(** The value of the local [successDelta] (resp. [failureDelta]) once both
    branches of its [if]/[else if] have run. *)
Definition delta_of (set : gset string)
    (previousStatus : option string) (nextStatus : string) : Z :=
  let prevIn := prev_has set previousStatus in
  let nextIn := has set nextStatus in
  if nextIn && negb prevIn then 0 + 1
  else if negb nextIn && prevIn then 0 - 1
  else 0.

Definition successDelta := delta_of BROADCAST_SUCCESS_STATUSES.
Definition failureDelta := delta_of BROADCAST_FAILURE_STATUSES.

Definition counter_op (delta : Z) : option CounterOp :=
  if 0 <? delta then Some (increment delta)
  else if delta <? 0 then Some (decrement (Z.abs delta))
  else None.

(** [adjustBroadcastAggregates]: the [data] handed to
    [prisma.broadcast.update], or [None] when the function returns without
    issuing an update. *)
Definition adjustBroadcastAggregates
    (previousStatus nextStatus : option string) : option BroadcastUpdateInput :=
  match nextStatus with
  | None => None
  | Some n =>
      if bool_decide (n = "") || bool_decide (previousStatus = nextStatus) then None
      else
        let sd := successDelta previousStatus n in
        let fd := failureDelta previousStatus n in
        if (sd =? 0) && (fd =? 0) then None
        else Some {| successCount := counter_op sd; failureCount := counter_op fd |}
  end.

(** The change an issued counter operation makes to its counter. *)
Definition op_effect (o : option CounterOp) : Z :=
  match o with
  | Some (increment n) => n
  | Some (decrement n) => - n
  | None => 0
  end.

(** The delta in the specification's words: +1 for entering the set, -1 for
    leaving it, 0 otherwise; an absent previous status is in no set. *)
Definition in_set (set : gset string) (s : option string) : Prop :=
  ∃ t, s = Some t ∧ t ∈ set.

Definition delta_spec (set : gset string) (p : option string) (n : string) (d : Z) : Prop :=
  (n ∈ set ∧ ¬ in_set set p → d = 1) ∧
  (in_set set p ∧ n ∉ set → d = -1) ∧
  (¬ (n ∈ set ∧ ¬ in_set set p) ∧ ¬ (in_set set p ∧ n ∉ set) → d = 0).

Lemma prev_has_in_set set p :
  "" ∉ set → prev_has set p = true ↔ in_set set p.
Proof.
  intros Hne. unfold prev_has, in_set, has. destruct p as [t|].
  - case_bool_decide as Ht.
    + subst t. split; [done|]. intros (t & [= <-] & Hin). done.
    + rewrite bool_decide_eq_true. split; [by exists t|].
      by intros (t' & [= <-] & Hin).
  - split; [done|]. by intros (t & ? & _).
Qed.

Lemma delta_of_spec set p n :
  "" ∉ set → delta_spec set p n (delta_of set p n).
Proof.
  intros Hne. unfold delta_spec, delta_of, has.
  pose proof (prev_has_in_set set p Hne) as Hp.
  destruct (prev_has set p) eqn:Ep.
  - assert (in_set set p) as HP by (by apply Hp). clear Hp.
    case_bool_decide; simpl; intuition (try done; try lia).
  - assert (¬ in_set set p) as HP by (intros H%Hp; done). clear Hp.
    case_bool_decide; simpl; intuition (try done; try lia).
Qed.

Lemma op_effect_counter_op d : op_effect (counter_op d) = d.
Proof.
  unfold counter_op. destruct (0 <? d) eqn:E1; simpl; [done|].
  destruct (d <? 0) eqn:E2; simpl; lia.
Qed.

(** C2: the success set is {Sent, Delivered, Read} and the failure set is
    {Failed}; each delta is +1 when the next status enters the set, -1 when
    the previous status leaves it and 0 otherwise; no update is issued when
    the next status is null (or empty) or equals the previous one, nor when
    both deltas are zero; an issued update changes the two counters by
    exactly the two deltas. *)
Theorem adjustBroadcastAggregates_deltas (p n : option string) :
  (∀ s, s ∈ BROADCAST_SUCCESS_STATUSES ↔ s = "Sent" ∨ s = "Delivered" ∨ s = "Read") ∧
  (∀ s, s ∈ BROADCAST_FAILURE_STATUSES ↔ s = "Failed") ∧
  (∀ s, delta_spec BROADCAST_SUCCESS_STATUSES p s (successDelta p s) ∧
        delta_spec BROADCAST_FAILURE_STATUSES p s (failureDelta p s)) ∧
  (n = None ∨ n = Some "" ∨ n = p → adjustBroadcastAggregates p n = None) ∧
  (∀ s, n = Some s → successDelta p s = 0 → failureDelta p s = 0 →
        adjustBroadcastAggregates p n = None) ∧
  (∀ s, n = Some s → s ≠ "" → n ≠ p →
        successDelta p s ≠ 0 ∨ failureDelta p s ≠ 0 →
        ∃ u, adjustBroadcastAggregates p n = Some u ∧
             op_effect (successCount u) = successDelta p s ∧
             op_effect (failureCount u) = failureDelta p s).
Proof.
  split; [|split; [|split; [|split; [|split]]]].
  - intros s. unfold BROADCAST_SUCCESS_STATUSES.
    rewrite !elem_of_union, !elem_of_singleton. tauto.
  - intros s. unfold BROADCAST_FAILURE_STATUSES. by rewrite elem_of_singleton.
  - intros s. split; apply delta_of_spec.
    + unfold BROADCAST_SUCCESS_STATUSES.
      rewrite !elem_of_union, !elem_of_singleton. intros [[?|?]|?]; discriminate.
    + unfold BROADCAST_FAILURE_STATUSES. rewrite elem_of_singleton. discriminate.
  - intros [-> | [-> | ->]]; unfold adjustBroadcastAggregates; [done|done|].
    destruct p as [s|]; [|done].
    by rewrite (bool_decide_eq_true_2 (Some s = Some s)), orb_true_r.
  - intros s -> Hs Hf. unfold adjustBroadcastAggregates.
    rewrite Hs, Hf. simpl. by destruct (_ || _).
  - intros s -> Hne Hnp Hd. unfold adjustBroadcastAggregates.
    rewrite (bool_decide_eq_false_2 (s = "")) by done.
    rewrite (bool_decide_eq_false_2 (p = Some s)) by done. simpl.
    destruct ((successDelta p s =? 0) && (failureDelta p s =? 0)) eqn:E.
    + apply andb_prop in E as [E1%Z.eqb_eq E2%Z.eqb_eq]. tauto.
    + eexists. split; [done|]. simpl. by rewrite !op_effect_counter_op.
Qed.

(** End-to-end scenario 6 of the specification: a recipient moving from
    [Sent] to [Failed] decrements the success counter and increments the
    failure counter in one update. *)
Lemma adjustBroadcastAggregates_deltas_witness :
  ∃ u, adjustBroadcastAggregates (Some "Sent") (Some "Failed") = Some u ∧
       op_effect (successCount u) = -1 ∧ op_effect (failureCount u) = 1.
Proof.
  destruct (adjustBroadcastAggregates_deltas (Some "Sent") (Some "Failed"))
    as (_ & _ & _ & _ & _ & H).
  destruct (H "Failed" eq_refl) as (u & Hu & Hs & Hf).
  - discriminate.
  - discriminate.
  - left. vm_compute. discriminate.
  - exists u. split; [exact Hu|]. split; [exact Hs | exact Hf].
Defined.

(** ** Contact resolution *)

Record Contact := {
  contact_id : string;
  contact_userId : string;
  contact_phone : string;
  contact_name : option string;
}.

(** The outcome of a store operation: a value, or a Prisma error with its
    code ([P2002] is the unique-constraint violation). *)
Inductive DbResult (A : Type) :=
| DbOk (a : A)
| DbThrow (code : string).
Arguments DbOk {A} a.
Arguments DbThrow {A} code.

(** What a call of an asynchronous function ends with. *)
Inductive Thrown :=
| JsError (message : string)
| PrismaError (code : string).

Inductive Outcome (A : Type) :=
| Returned (a : A)
| Threw (e : Thrown).
Arguments Returned {A} a.
Arguments Threw {A} e.

(** A JavaScript [Set] keeps its elements in insertion order. *)
Definition set_add (x : string) (s : list string) : list string :=
  if bool_decide (x ∈ s) then s else s ++ [x].

(** [normalizePhone(t) ?? t] *)
Definition normalize_or_raw (t : string) : string :=
  default t (normalizePhone (Some t)).

Definition add_primary (phone : string) : list string :=
  let trimmedPrimary := trim phone in
  let normalizedPrimary := normalize_or_raw trimmedPrimary in
  let s1 := if bool_decide (normalizedPrimary = "") then []
            else set_add normalizedPrimary [] in
  if negb (bool_decide (trimmedPrimary = "")) &&
     negb (bool_decide (trimmedPrimary = normalizedPrimary))
  then set_add trimmedPrimary s1 else s1.

(** One round of the loop over [options.alternatePhones]. *)
Definition add_alternate (searchPhones : list string) (candidate : value) : list string :=
  match candidate with
  | VStr c =>
      let trimmedCandidate := trim c in
      if bool_decide (trimmedCandidate = "") then searchPhones
      else
        let normalizedCandidate := normalize_or_raw trimmedCandidate in
        let s1 := set_add normalizedCandidate searchPhones in
        if negb (bool_decide (normalizedCandidate = trimmedCandidate))
        then set_add trimmedCandidate s1 else s1
  | _ => searchPhones
  end.

Definition searchList (phone : string) (alternatePhones : list value) : list string :=
  filter (λ v, String.length v ≠ 0%nat)
         (foldl add_alternate (add_primary phone) alternatePhones).

(** [normalizedPrimary || searchList[0]] *)
Definition canonicalPhone (phone : string) (alternatePhones : list value) : string :=
  let normalizedPrimary := normalize_or_raw (trim phone) in
  if bool_decide (normalizedPrimary = "")
  then default "" (head (searchList phone alternatePhones))
  else normalizedPrimary.

Record ContactResolutionOptions := {
  opt_name : value;
  alternatePhones : list value;
}.

Definition normalizedName (o : ContactResolutionOptions) : option string :=
  match opt_name o with
  | VStr n => if bool_decide (String.length (trim n) = 0%nat) then None else Some (trim n)
  | _ => None
  end.

Section ContactResolution.
(** The contact table behind [prisma.contact], with [W] the state of the
    store. *)
Context {W : Type}.
Variable findFirst : W → string → list string → DbResult (option Contact) * W.
Variable create : W → string → string → option string → DbResult Contact * W.
Variable update_phone : W → string → string → DbResult Contact * W.
Variable update_name : W → string → string → DbResult Contact * W.

(** The tail of the function, from the point where [contact] is known. *)
Definition finish_contact (w : W) (canonical : string) (name : option string)
    (contact : option Contact) : Outcome Contact * W :=
  match contact with
  | None => (Threw (JsError "Failed to resolve contact for user"), w)
  | Some c =>
      let '(c1, w1) :=
        if negb (bool_decide (contact_phone c = canonical)) then
          match update_phone w (contact_id c) canonical with
          | (DbOk c', w') => (c', w')
          | (DbThrow _, w') => (c, w')
          end
        else (c, w) in
      let '(c2, w2) :=
        match name with
        | Some n =>
            if negb (bool_decide (trim <$> contact_name c1 = Some n)) then
              match update_name w1 (contact_id c1) n with
              | (DbOk c', w') => (c', w')
              | (DbThrow _, w') => (c1, w')
              end
            else (c1, w1)
        | None => (c1, w1)
        end in
      (Returned c2, w2)
  end.

Definition getOrCreateContactForUser (w : W) (userId phone : string)
    (options : ContactResolutionOptions) : Outcome Contact * W :=
  let search := searchList phone (alternatePhones options) in
  if bool_decide (search = []) then
    (Threw (JsError "Unable to resolve contact phone number"), w)
  else
    let canonical := canonicalPhone phone (alternatePhones options) in
    match findFirst w userId search with
    | (DbThrow code, w1) => (Threw (PrismaError code), w1)
    | (DbOk found, w1) =>
        let name := normalizedName options in
        match found with
        | Some c => finish_contact w1 canonical name (Some c)
        | None =>
            match create w1 userId canonical name with
            | (DbOk c, w2) => finish_contact w2 canonical name (Some c)
            | (DbThrow code, w2) =>
                if bool_decide (code = "P2002") then
                  match findFirst w2 userId search with
                  | (DbThrow code', w3) => (Threw (PrismaError code'), w3)
                  | (DbOk again, w3) => finish_contact w3 canonical name again
                  end
                else (Threw (PrismaError code), w2)
            end
        end
    end.
End ContactResolution.

(** *** An in-memory contact table *)

Definition mem_findFirst (w : list Contact) (userId : string) (phones : list string)
    : DbResult (option Contact) * list Contact :=
  (DbOk (List.find (λ c, bool_decide (contact_userId c = userId) &&
                         bool_decide (contact_phone c ∈ phones)) w), w).

Definition mem_taken (w : list Contact) (userId phone : string) : bool :=
  existsb (λ c, bool_decide (contact_userId c = userId) &&
                bool_decide (contact_phone c = phone)) w.

Definition mem_create (w : list Contact) (userId phone : string) (name : option string)
    : DbResult Contact * list Contact :=
  if mem_taken w userId phone then (DbThrow "P2002", w)
  else
    let c := {| contact_id := "c" +:+ pretty (length w); contact_userId := userId;
                contact_phone := phone; contact_name := name |} in
    (DbOk c, w ++ [c]).

Definition mem_update (f : Contact → Contact) (w : list Contact) (id : string)
    : DbResult Contact * list Contact :=
  match List.find (λ c, bool_decide (contact_id c = id)) w with
  | None => (DbThrow "P2025", w)
  | Some c =>
      if negb (bool_decide (contact_phone (f c) = contact_phone c)) &&
         mem_taken w (contact_userId c) (contact_phone (f c))
      then (DbThrow "P2002", w)
      else (DbOk (f c),
            (λ d, if bool_decide (contact_id d = id) then f d else d) <$> w)
  end.

Definition mem_update_phone (w : list Contact) (id phone : string) :=
  mem_update (λ c, {| contact_id := contact_id c; contact_userId := contact_userId c;
                      contact_phone := phone; contact_name := contact_name c |}) w id.

Definition mem_update_name (w : list Contact) (id name : string) :=
  mem_update (λ c, {| contact_id := contact_id c; contact_userId := contact_userId c;
                      contact_phone := contact_phone c; contact_name := Some name |}) w id.

Definition mem_getOrCreateContactForUser :=
  getOrCreateContactForUser mem_findFirst mem_create mem_update_phone mem_update_name.

(** *** Properties of the search list and of the canonical phone *)

Lemma is_space_not_digit c : is_space c = true → is_digit c = false.
Proof. destruct c as [[] [] [] [] [] [] [] []]; vm_compute; congruence. Qed.

Lemma filter_digit_drop_space l :
  filter is_digit (drop_while is_space l) = filter is_digit l.
Proof.
  induction l as [|c l IH]; simpl; [done|].
  destruct (is_space c) eqn:E; [|done].
  rewrite IH, filter_cons_False; [done|].
  rewrite (is_space_not_digit _ E). simpl. tauto.
Qed.

(** Trimming removes no digit. *)
Lemma digits_only_trim s : digits_only (trim s) = digits_only s.
Proof.
  unfold digits_only, trim, trim_chars. rewrite chars_str. f_equal.
  rewrite filter_reverse, filter_digit_drop_space, <- filter_reverse.
  by rewrite reverse_involutive, filter_digit_drop_space.
Qed.

Lemma str_eq_empty l : str l = "" → l = [].
Proof. by destruct l. Qed.

Lemma string_length_0 s : String.length s = 0%nat ↔ s = "".
Proof. by destruct s. Qed.

Lemma normalize_or_raw_digits t :
  digits_only t ≠ "" → normalize_or_raw t = digits_only t.
Proof.
  intros Hd. unfold normalize_or_raw, normalizePhone.
  case_bool_decide as Ht; [by subst t|].
  rewrite bool_decide_eq_false_2; [done|]. by rewrite string_length_0.
Qed.



Lemma elem_of_set_add x y s : x ∈ s → x ∈ set_add y s.
Proof.
  intros Hx. unfold set_add. case_bool_decide; [done|].
  apply elem_of_app. by left.
Qed.

Lemma elem_of_set_add_new x s : x ∈ set_add x s.
Proof.
  unfold set_add. case_bool_decide; [done|].
  apply elem_of_app. right. by apply list_elem_of_singleton.
Qed.

Lemma elem_of_add_alternate x s c : x ∈ s → x ∈ add_alternate s c.
Proof.
  intros Hx. unfold add_alternate. destruct c; try done.
  case_bool_decide; [done|].
  destruct (negb _); auto using elem_of_set_add.
Qed.

Lemma elem_of_foldl_add_alternate x alts s :
  x ∈ s → x ∈ foldl add_alternate s alts.
Proof.
  revert s. induction alts as [|c alts IH]; intros s Hx; simpl; [done|].
  by apply IH, elem_of_add_alternate.
Qed.




Definition no_options : ContactResolutionOptions :=
  {| opt_name := VNull; alternatePhones := [] |}.



Example getOrCreateContactForUser_abc :
  (mem_getOrCreateContactForUser [] "u1" "abc" no_options).1
  = Returned {| contact_id := "c0"; contact_userId := "u1";
                contact_phone := "abc"; contact_name := None |}.
Proof. vm_compute. reflexivity. Qed.



(** ** The outbound sender [sendMessage] *)

Record User := {
  metaAccessToken : option string;
  metaPhoneNumberId : option string;
}.

Record TemplateParam := { p_type : string; p_text : value }.

Record TemplateComponent := {
  c_type : string;
  c_subType : option string;
  c_index : value;
  c_parameters : option (list TemplateParam);
}.

Inductive SendMessagePayload :=
| MsgText (text : string)
| MsgMedia (mediaType : string) (id url caption : option string)
| MsgOptions (text : string) (options : list string)
| MsgList (text button : string)
    (sections : list (string * list (string * string)))
| MsgFlow (name : option string) (id token : string)
    (version header : option string) (body : string)
    (footer cta : option string)
| MsgTemplate (name language : string)
    (components : option (list TemplateComponent)).

Inductive SendMessageResult :=
| SendSuccess (messageId : option string)
| SendFailure (error : option string) (status : option Z) (details : value).

Inductive AllowListResult :=
| AllowOk (details : value)
| AllowFail (status : option Z) (error : option string) (details : value).

(** What [fetch] followed by [res.text()] ends with. *)
Inductive FetchResult :=
| Responded (status : Z) (statusText : string) (raw : string)
| AbortError
| NetworkError (message : string).

(** The calls a send makes, in order.  [EvEnroll] marks a call of
    [addRecipientToAllowList], [EvRetry] the recursive call of
    [sendMessage]; a post to [/messages] carries the [allowListAttempted]
    flag of the invocation that issued it. *)
Inductive Event :=
| EvPostMessages (url : string) (body : value) (allowListAttempted : bool)
| EvPostAllowList (url : string)
| EvEnroll (recipient : string)
| EvRetry.

Definition GRAPH_VERSION : string := "v23.0".
Definition RECIPIENT_NOT_ALLOWED_ERROR_CODE : Z := 131030.

(** The message of a [TypeError] raised by calling a method on a value that
    lacks it; its text plays no role below. *)
Definition type_error_message : string := "TypeError".

Definition res_ok (status : Z) : bool := (200 <=? status) && (status <=? 299).

Definition graph_url (phoneNumberId path : string) : string :=
  "https://graph.facebook.com/" +:+ GRAPH_VERSION +:+ "/" +:+ phoneNumberId
  +:+ "/" +:+ path.

(** [toLcTrim] *)
Definition toLcTrim (s : string) : string := toLowerCase (trim s).

Definition base_fields (normalizedTo ty : string) : list (string * value) :=
  [("messaging_product", VStr "whatsapp"); ("recipient_type", VStr "individual");
   ("to", VStr normalizedTo); ("type", VStr ty)].

(** [o?.trim()] for an optional string. *)
Definition trim_opt (o : option string) : option string := trim <$> o.

Definition normalize_component (c : TemplateComponent) : option value :=
  let type := toLowerCase (trim (c_type c)) in
  if bool_decide (type = "") then None
  else
    let subType := trim (default "" (c_subType c)) in
    let f_sub := if bool_decide (subType = "") then []
                 else [("sub_type", VStr (toLowerCase subType))] in
    let f_index := match c_index c with
                   | VNum n => if isFinite n then [("index", VNum n)] else []
                   | _ => []
                   end in
    let parameters :=
      match c_parameters c with
      | Some ps =>
          omap (λ q, if bool_decide (p_type q = "text")
                     then Some (obj [("type", VStr "text");
                                     ("text", match p_text q with
                                              | VStr t => VStr t
                                              | _ => VStr ""
                                              end)])
                     else None) ps
      | None => []
      end in
    let f_params := match parameters with
                    | [] => []
                    | _ => [("parameters", VArr parameters)]
                    end in
    Some (obj ([("type", VStr type)] ++ f_sub ++ f_index ++ f_params)).

(** The [switch (message.type)]: either an early [return] of the function
    or the request body. *)
Definition build_body (normalizedTo : string) (message : SendMessagePayload)
    : SendMessageResult + value :=
  match message with
  | MsgText text =>
      inr (obj (base_fields normalizedTo "text" ++
                [("text", obj [("body", VStr text); ("preview_url", VBool false)])]))
  | MsgMedia mediaType id url caption =>
      if blank id && blank url then
        inl (SendFailure (Some "Media message must have either an id or a url")
                         (Some 400) VUndef)
      else
        let mType :=
          if bool_decide (mediaType ∈ ["image"; "video"; "audio"; "document"])
          then mediaType else "image" in
        let mediaObject :=
          (if negb (blank id) then [("id", opt_str id)]
           else if negb (blank url) then [("link", opt_str url)] else []) ++
          (if negb (blank caption) then [("caption", opt_str caption)] else []) in
        inr (obj (base_fields normalizedTo mType ++ [(mType, obj mediaObject)]))
  | MsgList text button sections =>
      let secs :=
        (λ sec : string * list (string * string),
           obj [("title", VStr sec.1);
                ("rows", VArr ((λ row : string * string,
                                  obj [("id", VStr row.1); ("title", VStr row.2)])
                               <$> sec.2))]) <$> sections in
      inr (obj (base_fields normalizedTo "interactive" ++
                [("interactive",
                  obj [("type", VStr "list");
                       ("body", obj [("text", VStr text)]);
                       ("action", obj [("button", VStr button);
                                       ("sections", VArr secs)])])]))
  | MsgOptions text options =>
      let opts := take 3 options in
      let button (opt : string) :=
        let id := replace_ws (toLcTrim opt) in
        obj [("type", VStr "reply");
             ("reply", obj [("id", VStr (if bool_decide (id = "") then "opt" else id));
                            ("title", VStr opt)])] in
      inr (obj (base_fields normalizedTo "interactive" ++
                [("interactive",
                  obj [("type", VStr "button");
                       ("body", obj [("text", VStr text)]);
                       ("action", obj [("buttons", VArr (button <$> opts))])])]))
  | MsgFlow name id token version header body footer cta =>
      let flowId := trim id in
      let flowToken := trim token in
      if bool_decide (flowId = "") || bool_decide (flowToken = "") then
        inl (SendFailure (Some "Missing WhatsApp Flow identifiers") (Some 400) VUndef)
      else
        let flowName := if blank (trim_opt name) then "whatsapp_flow"
                        else default "" (trim_opt name) in
        let flowVersion := trim_opt version in
        let header' := trim_opt header in
        let footer' := trim_opt footer in
        let bodyText := trim body in
        let cta' := trim_opt cta in
        let flowObj :=
          [("name", VStr flowName); ("id", VStr flowId); ("token", VStr flowToken)] ++
          (if blank flowVersion then [] else [("version", opt_str flowVersion)]) ++
          (if blank cta' then [] else [("flow_cta", opt_str cta')]) in
        let interactive :=
          [("type", VStr "flow"); ("flow", obj flowObj)] ++
          (if blank header' then []
           else [("header", obj [("type", VStr "text"); ("text", opt_str header')])]) ++
          (if bool_decide (bodyText = "") then []
           else [("body", obj [("text", VStr bodyText)])]) ++
          (if blank footer' then []
           else [("footer", obj [("text", opt_str footer')])]) in
        inr (obj (base_fields normalizedTo "interactive" ++
                  [("interactive", obj interactive)]))
  | MsgTemplate name language components =>
      let templateName := trim name in
      let templateLanguage := trim language in
      if bool_decide (templateName = "") || bool_decide (templateLanguage = "") then
        inl (SendFailure (Some "Missing template name or language") (Some 400) VUndef)
      else
        let normalizedComponents := omap normalize_component (default [] components) in
        let templatePayload :=
          [("name", VStr templateName);
           ("language", obj [("code", VStr templateLanguage)])] ++
          match normalizedComponents with
          | [] => []
          | _ => [("components", VArr normalizedComponents)]
          end in
        inr (obj (base_fields normalizedTo "template" ++
                  [("template", obj templatePayload)]))
  end.

(** [v?.trim()] on a value that should be a string: [None] stands for the
    [TypeError] raised when [v] is neither nullish nor a string. *)
Definition value_trim (v : value) : option value :=
  match v with
  | VUndef | VNull => Some VUndef
  | VStr s => Some (VStr (trim s))
  | _ => None
  end.

(** [typeof payload?.error?.code === "number" ? code : null] *)
Definition errorCode (json : value) : option num :=
  match opt_prop (opt_prop json "error") "code" with
  | VNum n => Some n
  | _ => None
  end.

(** The condition guarding the automatic allow-list registration. *)
Definition enrollment_guard (status : Z) (json : value) (allowListAttempted : bool) : bool :=
  (status =? 400) &&
  bool_decide (errorCode json = Some (NFin RECIPIENT_NOT_ALLOWED_ERROR_CODE)) &&
  negb allowListAttempted.

Section Sender.
Context {W : Type}.
(** [prisma.user.findUnique], [fetch] with [res.text()], and [JSON.parse]
    ([None] when it throws). *)
Variable findUnique_user : W → string → DbResult (option User) * W.
Variable fetch : W → string → value → FetchResult * W.
Variable JSON_parse : string → option value.

(** [if (raw) { try { json = JSON.parse(raw) } catch { json = undefined } }] *)
Definition parse_raw (raw : string) : value :=
  if bool_decide (raw = "") then VUndef else default VUndef (JSON_parse raw).

(** One round of the loop over the candidate paths. *)
Inductive PathStep :=
| PathReturn (r : AllowListResult)
| PathContinue (lastError : AllowListResult)
| PathAbort.

Definition try_path (w : W) (phoneNumberId recipientPhone path : string)
    : PathStep * W :=
  let url := graph_url phoneNumberId path in
  let body := obj [("messaging_product", VStr "whatsapp"); ("to", VStr recipientPhone)] in
  match fetch w url body with
  | (AbortError, w1) => (PathAbort, w1)
  | (NetworkError msg, w1) => (PathContinue (AllowFail None (Some msg) VUndef), w1)
  | (Responded status statusText raw, w1) =>
      let json := parse_raw raw in
      if negb (res_ok status) then
        match value_trim (opt_prop (opt_prop json "error") "error_user_msg") with
        | None => (PathContinue (AllowFail None (Some type_error_message) VUndef), w1)
        | Some m1 =>
            let m2 := if truthy m1 then Some m1
                      else value_trim (opt_prop (opt_prop json "error") "message") in
            match m2 with
            | None => (PathContinue (AllowFail None (Some type_error_message) VUndef), w1)
            | Some m2 =>
                let message :=
                  if truthy m2 then js_String m2
                  else if negb (bool_decide (raw = "")) then raw
                  else if negb (bool_decide (statusText = "")) then statusText
                  else "Failed to add phone number to WhatsApp test allow list" in
                let normalizedMessage := toLowerCase message in
                let isFallbackCandidate :=
                  ((status =? 400) || (status =? 404)) &&
                  (includes normalizedMessage "unknown path components" ||
                   includes normalizedMessage "unsupported post request") in
                let failure :=
                  AllowFail (Some status) (Some message) (coalesce json (VStr raw)) in
                if isFallbackCandidate then (PathContinue failure, w1)
                else (PathReturn failure, w1)
            end
        end
      else (PathReturn (AllowOk (coalesce json (VStr raw))), w1)
  end.

Fixpoint allow_list_loop (paths : list string) (lastError : option AllowListResult)
    (w : W) (phoneNumberId recipientPhone : string)
    : AllowListResult * W * list Event :=
  match paths with
  | [] =>
      (default (AllowFail None (Some "Meta did not accept any allow list endpoints") VUndef)
               lastError, w, [])
  | path :: rest =>
      let ev := EvPostAllowList (graph_url phoneNumberId path) in
      match try_path w phoneNumberId recipientPhone path with
      | (PathReturn r, w1) => (r, w1, [ev])
      | (PathAbort, w1) =>
          (AllowFail None
             (Some "Request to Meta timed out while registering the recipient") VUndef,
           w1, [ev])
      | (PathContinue e, w1) =>
          let '(r, w2, tr) := allow_list_loop rest (Some e) w1 phoneNumberId recipientPhone in
          (r, w2, ev :: tr)
      end
  end.

Definition addRecipientToAllowList (w : W) (phoneNumberId recipientPhone : string)
    : AllowListResult * W * list Event :=
  allow_list_loop ["recipients"; "registered_whatsapp_users"] None
                  w phoneNumberId recipientPhone.

(** The error message extracted from a non-2xx answer; [None] stands for
    the [TypeError] of [graphMessage?.trim()] on a non-string. *)
Definition error_message (json : value) (raw statusText : string) : option string :=
  let graphMessage :=
    coalesce (opt_prop (opt_prop json "error") "error_user_msg")
             (opt_prop (opt_prop json "error") "message") in
  let fallback :=
    if negb (bool_decide (raw = "")) then raw
    else if negb (bool_decide (statusText = "")) then statusText
    else "Meta API request failed" in
  match graphMessage with
  | VUndef | VNull => Some fallback
  | VStr g => Some (if bool_decide (String.length (trim g) = 0%nat) then fallback else g)
  | _ => None
  end.

Definition normalized_error (status : Z) (errorMessage : string) : string :=
  let lowerMessage := toLowerCase errorMessage in
  let isAccessTokenError :=
    (status =? 401) ||
    (((status =? 400) || (status =? 403)) &&
     (includes lowerMessage "access token" ||
      includes lowerMessage "session has expired")) in
  if isAccessTokenError
  then "Meta access token expired. Please reconnect WhatsApp in Settings."
  else errorMessage.

(** [response?.messages?.find((m) => typeof m?.id === "string")?.id ?? null];
    [None] stands for the [TypeError] raised when [messages] is not an
    array. *)
Definition first_message_id (json : value) : option (option string) :=
  match opt_prop json "messages" with
  | VUndef | VNull => Some None
  | VArray ms _ =>
      Some (match List.find (λ m, isString (opt_prop m "id")) ms with
            | Some m => match opt_prop m "id" with VStr i => Some i | _ => None end
            | None => None
            end)
  | _ => None
  end.

(** [sendMessage]; the recursion is the retry after a successful
    registration, [fuel] bounds its depth and [None] means that the bound
    was reached. *)
Fixpoint sendMessage_rec (fuel : nat) (w : W) (userId to : string)
    (message : SendMessagePayload) (allowListAttempted : bool)
    : option (Outcome SendMessageResult * W * list Event) :=
  match fuel with
  | O => None
  | S fuel' =>
      match normalizePhone (Some to) with
      | None =>
          Some (Returned (SendFailure (Some "Invalid destination phone number")
                                      (Some 400) VUndef), w, [])
      | Some normalizedTo =>
          match findUnique_user w userId with
          | (DbThrow code, w1) => Some (Threw (PrismaError code), w1, [])
          | (DbOk user, w1) =>
              let accessToken := trim_opt (user ≫= metaAccessToken) in
              let phoneNumberId := trim_opt (user ≫= metaPhoneNumberId) in
              if blank accessToken || blank phoneNumberId then
                Some (Returned (SendFailure (Some "Missing Meta API credentials")
                                            None VUndef), w1, [])
              else
                let url := graph_url (default "" phoneNumberId) "messages" in
                match build_body normalizedTo message with
                | inl early => Some (Returned early, w1, [])
                | inr body =>
                    let post := EvPostMessages url body allowListAttempted in
                    match fetch w1 url body with
                    | (AbortError, w2) =>
                        Some (Returned (SendFailure (Some "Request to Meta timed out")
                                                    None VUndef), w2, [post])
                    | (NetworkError msg, w2) =>
                        Some (Returned (SendFailure (Some msg) None VUndef), w2, [post])
                    | (Responded status statusText raw, w2) =>
                        let json := parse_raw raw in
                        if negb (res_ok status) then
                          match error_message json raw statusText with
                          | None =>
                              Some (Returned (SendFailure (Some type_error_message)
                                                          None VUndef), w2, [post])
                          | Some errorMessage =>
                              if enrollment_guard status json allowListAttempted then
                                let '(allowListResult, w3, tr) :=
                                  addRecipientToAllowList w2 (default "" phoneNumberId)
                                                          normalizedTo in
                                match allowListResult with
                                | AllowOk _ =>
                                    match sendMessage_rec fuel' w3 userId normalizedTo
                                                          message true with
                                    | Some (r, w4, tr') =>
                                        Some (r, w4,
                                              [post; EvEnroll normalizedTo] ++ tr ++
                                              [EvRetry] ++ tr')
                                    | None => None
                                    end
                                | AllowFail st err details =>
                                    let registrationError :=
                                      default "Meta rejected the number because it is not in the WhatsApp test allow list. Please add it manually from the Meta Developer Dashboard." err in
                                    Some (Returned
                                            (SendFailure (Some registrationError)
                                               (Some (default status st))
                                               (obj [("originalError", json);
                                                     ("allowListAttempt",
                                                      coalesce details VNull)])),
                                          w3, [post; EvEnroll normalizedTo] ++ tr)
                                end
                              else
                                Some (Returned
                                        (SendFailure
                                           (Some (normalized_error status errorMessage))
                                           (Some status) json), w2, [post])
                          end
                        else
                          match first_message_id json with
                          | Some messageId =>
                              Some (Returned (SendSuccess messageId), w2, [post])
                          | None =>
                              Some (Returned (SendFailure (Some type_error_message)
                                                          None VUndef), w2, [post])
                          end
                    end
                end
          end
      end
  end.

(** A call [sendMessage(userId, to, message, options)]: one level of
    recursion for the retry and one for the body of the retry. *)
Definition sendMessage (w : W) (userId to : string) (message : SendMessagePayload)
    (allowListAttempted : bool) :=
  sendMessage_rec 2 w userId to message allowListAttempted.

(** *** The calls made by one send *)












End Sender.

(** *** End-to-end scenario 5: allow-list recovery *)

(** A Graph API that rejects the first post with code 131030, accepts the
    registration and then accepts the retry.  The state of the world is the
    number of requests served so far. *)
Definition scenario_user (w : nat) (userId : string) : DbResult (option User) * nat :=
  (DbOk (Some {| metaAccessToken := Some "token"; metaPhoneNumberId := Some "1001" |}), w).

Definition scenario_fetch (w : nat) (url : string) (body : value) : FetchResult * nat :=
  (match w with
   | 0%nat => Responded 400 "Bad Request" "not-allowed"
   | 1%nat => Responded 200 "OK" ""
   | _ => Responded 200 "OK" "sent"
   end, S w).

Definition scenario_parse (raw : string) : option value :=
  if bool_decide (raw = "not-allowed") then
    Some (obj [("error", obj [("code", VNum (NFin 131030));
                              ("message", VStr "Recipient not in allowed list")])])
  else if bool_decide (raw = "sent") then
    Some (obj [("messages", VArr [obj [("id", VStr "wamid.1")]])])
  else None.

Example sendMessage_allow_list_recovery :
  ∃ body,
    sendMessage scenario_user scenario_fetch scenario_parse
                0%nat "u1" "+54 9 11 2222-3333" (MsgText "hi") false
    = Some (Returned (SendSuccess (Some "wamid.1")), 3%nat,
            [EvPostMessages "https://graph.facebook.com/v23.0/1001/messages" body false;
             EvEnroll "5491122223333";
             EvPostAllowList "https://graph.facebook.com/v23.0/1001/recipients";
             EvRetry;
             EvPostMessages "https://graph.facebook.com/v23.0/1001/messages" body true]).
Proof. eexists. vm_compute. reflexivity. Qed.


(** ** Further properties of the phone normalization *)

Lemma filter_digit_fixed l :
  Forall (λ c, is_digit c = true) l → filter is_digit l = l.
Proof.
  induction 1 as [|c l Hc _ IH]; [done|].
  rewrite filter_cons_True by (by rewrite Hc). by rewrite IH.
Qed.

Lemma digits_only_digits s :
  Forall (λ c, is_digit c = true) (chars (digits_only s)).
Proof.
  unfold digits_only. rewrite chars_str. apply Forall_forall.
  intros c [Hc _]%list_elem_of_filter. by apply Is_true_true.
Qed.

Lemma digits_only_idemp s : digits_only (digits_only s) = digits_only s.
Proof.
  unfold digits_only at 1. rewrite filter_digit_fixed by apply digits_only_digits.
  apply str_chars.
Qed.

Lemma normalizePhone_Some (v : option string) (d : string) :
  normalizePhone v = Some d → d ≠ "" ∧ ∃ s, v = Some s ∧ d = digits_only s.
Proof.
  unfold normalizePhone. destruct v as [s|]; [|done].
  case_bool_decide as Hs; [done|]. case_bool_decide as Hd; [done|].
  intros [= <-]. rewrite string_length_0 in Hd. split; [done|]. by exists s.
Qed.

(** X1: an answer of [normalizePhone] other than [null] is a non-empty string
    made of the digits of the input, and normalizing it again returns it
    unchanged. *)
Theorem normalizePhone_digits (v : option string) (d : string) :
  normalizePhone v = Some d →
  d ≠ "" ∧ Forall (λ c, is_digit c = true) (chars d) ∧
  (∃ s, v = Some s ∧ d = digits_only s) ∧
  normalizePhone (Some d) = Some d.
Proof.
  intros (Hd & s & -> & ->)%normalizePhone_Some.
  split; [done|]. split; [apply digits_only_digits|]. split; [by exists s|].
  unfold normalizePhone.
  rewrite bool_decide_eq_false_2 by done. rewrite digits_only_idemp.
  by rewrite bool_decide_eq_false_2 by (by rewrite string_length_0).
Qed.

Lemma normalizePhone_digits_witness :
  normalizePhone (Some "+54 9 11 2222-3333") = Some "5491122223333" ∧
  normalizePhone (Some "5491122223333") = Some "5491122223333".
Proof.
  split; [reflexivity|].
  exact (proj2 (proj2 (proj2 (normalizePhone_digits (Some "+54 9 11 2222-3333")
                                 "5491122223333" eq_refl)))).
Defined.

(** An input is refused exactly when it is absent or has no digit. *)
Lemma normalizePhone_None (v : option string) :
  normalizePhone v = None ↔ v = None ∨ ∃ s, v = Some s ∧ digits_only s = "".
Proof.
  unfold normalizePhone. destruct v as [s|]; [|by split; [left|]].
  case_bool_decide as Hs.
  - subst s. split; [|done]. intros _. right. by exists "".
  - case_bool_decide as Hd; rewrite string_length_0 in Hd.
    + split; [|done]. intros _. right. by exists s.
    + split; [done|]. intros [?|(t & [= <-] & Ht)]; done.
Qed.

(** ** The broadcast counters follow the recipients' states *)

(** [recipient.status] after the update of [processBroadcastStatuses]:
    [updateData.status] is set only for a truthy [nextStatus]. *)
Definition recipient_status_after (previousStatus nextStatus : option string)
    : option string :=
  if blank nextStatus then previousStatus else nextStatus.

(** The change of the two counters made by one call. *)
Definition counters_effect (previousStatus nextStatus : option string) : Z * Z :=
  match adjustBroadcastAggregates previousStatus nextStatus with
  | Some u => (op_effect (successCount u), op_effect (failureCount u))
  | None => (0, 0)
  end.

(** The calls made for one recipient by a sequence of status events, each
    one seeing the status left by the one before. *)
Fixpoint replay_statuses (status : option string) (events : list (option string))
    : Z * Z * option string :=
  match events with
  | [] => (0, 0, status)
  | nextStatus :: rest =>
      let e := counters_effect status nextStatus in
      let r := replay_statuses (recipient_status_after status nextStatus) rest in
      (e.1 + r.1.1, e.2 + r.1.2, r.2)
  end.

(** 1 for a status of the set, 0 otherwise. *)
Definition counted (set : gset string) (status : option string) : Z :=
  if prev_has set status then 1 else 0.

Lemma delta_of_counted set p n :
  n ≠ "" → delta_of set p n = counted set (Some n) - counted set p.
Proof.
  intros Hn.
  assert (prev_has set (Some n) = has set n) as Hnext.
  { unfold prev_has. by rewrite (bool_decide_eq_false_2 (n = "")). }
  unfold delta_of, counted. rewrite Hnext.
  destruct (has set n), (prev_has set p); simpl; lia.
Qed.

Lemma counters_effect_counted p n :
  counters_effect p n
  = (counted BROADCAST_SUCCESS_STATUSES (recipient_status_after p n)
     - counted BROADCAST_SUCCESS_STATUSES p,
     counted BROADCAST_FAILURE_STATUSES (recipient_status_after p n)
     - counted BROADCAST_FAILURE_STATUSES p).
Proof.
  unfold counters_effect, adjustBroadcastAggregates, recipient_status_after.
  destruct n as [n|]; simpl; [|f_equal; lia].
  case_bool_decide as Hn; simpl; [f_equal; lia|].
  case_bool_decide as Hp; simpl; [subst p; f_equal; lia|].
  unfold successDelta, failureDelta.
  rewrite !delta_of_counted by done.
  destruct (_ && _) eqn:E; simpl.
  - apply andb_prop in E as [E1%Z.eqb_eq E2%Z.eqb_eq]. by rewrite E1, E2.
  - by rewrite !op_effect_counter_op.
Qed.

(** X2: whatever the sequence of status events of a recipient, the success
    counter changes in total by the number of times the recipient is in a
    success status at the end minus at the start (1, 0 or -1), and likewise
    the failure counter: the counters keep counting the recipients in each
    state. *)
Theorem adjustBroadcastAggregates_telescopes
    (status : option string) (events : list (option string)) :
  let r := replay_statuses status events in
  r.1.1 = counted BROADCAST_SUCCESS_STATUSES r.2
          - counted BROADCAST_SUCCESS_STATUSES status ∧
  r.1.2 = counted BROADCAST_FAILURE_STATUSES r.2
          - counted BROADCAST_FAILURE_STATUSES status.
Proof.
  revert status. induction events as [|n rest IH]; intros status; simpl.
  - lia.
  - destruct (IH (recipient_status_after status n)) as [Hs Hf].
    rewrite Hs, Hf, counters_effect_counted. simpl. lia.
Qed.

(** ** Further properties of the contact resolution *)

Lemma NoDup_set_add x s : NoDup s → NoDup (set_add x s).
Proof.
  intros Hs. unfold set_add. case_bool_decide as Hx; [done|].
  apply NoDup_app. split; [done|]. split; [|apply NoDup_singleton].
  intros y Hy ->%list_elem_of_singleton. done.
Qed.

Lemma NoDup_add_alternate s c : NoDup s → NoDup (add_alternate s c).
Proof.
  intros Hs. unfold add_alternate. destruct c; try done.
  case_bool_decide; [done|].
  destruct (negb _); auto using NoDup_set_add.
Qed.

Lemma NoDup_add_primary phone : NoDup (add_primary phone).
Proof.
  unfold add_primary.
  assert (NoDup (if bool_decide (normalize_or_raw (trim phone) = "") then []
                 else set_add (normalize_or_raw (trim phone)) [])) as H.
  { case_bool_decide; [constructor|]. apply NoDup_set_add. constructor. }
  destruct (_ && _); [by apply NoDup_set_add|done].
Qed.

(** X3: the phones searched for are pairwise distinct and non-empty, and when
    there is one to search for, the canonical phone, under which a missing
    contact is created, is among them. *)
Theorem searchList_canonical (phone : string) (alts : list value) :
  NoDup (searchList phone alts) ∧
  ¬ ("" ∈ searchList phone alts) ∧
  (searchList phone alts ≠ [] → canonicalPhone phone alts ∈ searchList phone alts).
Proof.
  split; [|split].
  - unfold searchList. apply NoDup_filter.
    generalize (NoDup_add_primary phone). generalize (add_primary phone).
    induction alts as [|c alts IH]; intros s Hs; simpl; [done|].
    by apply IH, NoDup_add_alternate.
  - unfold searchList. intros [H _]%list_elem_of_filter. by apply H.
  - intros Hne. unfold canonicalPhone. case_bool_decide as Hnp.
    + destruct (searchList phone alts) as [|x l]; [done|]. simpl. by left.
    + unfold searchList. apply list_elem_of_filter. split.
      * by rewrite string_length_0.
      * apply elem_of_foldl_add_alternate. unfold add_primary.
        rewrite (bool_decide_eq_false_2 _ Hnp).
        destruct (_ && _); [apply elem_of_set_add|]; apply elem_of_set_add_new.
Qed.

Lemma searchList_canonical_witness :
  canonicalPhone "+54 9 11" [VStr "abc"] ∈ searchList "+54 9 11" [VStr "abc"].
Proof.
  apply (proj2 (proj2 (searchList_canonical "+54 9 11" [VStr "abc"]))).
  vm_compute. discriminate.
Defined.

(** X4: when the lookup finds a contact the call returns a contact: a failed
    update of the phone or of the name is swallowed.  A contact that already
    has the canonical phone is returned as found, the store being left as
    the lookup left it, when no name is supplied. *)
Theorem getOrCreateContactForUser_found {W}
    (findFirst : W → string → list string → DbResult (option Contact) * W)
    (create : W → string → string → option string → DbResult Contact * W)
    (update_phone update_name : W → string → string → DbResult Contact * W)
    (w w1 : W) (userId phone : string) (options : ContactResolutionOptions)
    (c : Contact) :
  searchList phone (alternatePhones options) ≠ [] →
  findFirst w userId (searchList phone (alternatePhones options)) = (DbOk (Some c), w1) →
  let r := getOrCreateContactForUser findFirst create update_phone update_name
             w userId phone options in
  (∃ c' w', r = (Returned c', w')) ∧
  (contact_phone c = canonicalPhone phone (alternatePhones options) →
   normalizedName options = None → r = (Returned c, w1)).
Proof.
  intros Hne Hfind r. subst r. unfold getOrCreateContactForUser.
  rewrite bool_decide_eq_false_2 by done. rewrite Hfind. split.
  - unfold finish_contact.
    repeat (case_match; simplify_eq); eauto.
  - intros Hphone Hname. unfold finish_contact. rewrite Hname.
    by rewrite (bool_decide_eq_true_2 _ Hphone).
Qed.

Lemma getOrCreateContactForUser_found_witness :
  mem_getOrCreateContactForUser
    [{| contact_id := "c0"; contact_userId := "u1";
        contact_phone := "5491122223333"; contact_name := Some "Ana" |}]
    "u1" "+54 9 11 2222-3333" no_options
  = (Returned {| contact_id := "c0"; contact_userId := "u1";
                 contact_phone := "5491122223333"; contact_name := Some "Ana" |},
     [{| contact_id := "c0"; contact_userId := "u1";
         contact_phone := "5491122223333"; contact_name := Some "Ana" |}]).
Proof.
  apply (getOrCreateContactForUser_found mem_findFirst mem_create mem_update_phone
           mem_update_name _ _ "u1" "+54 9 11 2222-3333" no_options).
  - vm_compute. discriminate.
  - vm_compute. reflexivity.
  - vm_compute. reflexivity.
  - reflexivity.
Defined.


(** ** Further properties of the outbound sender *)





Section SenderProperties.
Context {W : Type}.
Variable findUnique_user : W → string → DbResult (option User) * W.
Variable fetch : W → string → value → FetchResult * W.
Variable JSON_parse : string → option value.

Definition allow_list_body (recipientPhone : string) : value :=
  obj [("messaging_product", VStr "whatsapp"); ("to", VStr recipientPhone)].

(** X6: a registration makes one request, to [/recipients], or two, the second
    to [/registered_whatsapp_users]; an answer 2xx to the first settles it
    with success, and a timeout of the first settles it with a failure,
    without a second request. *)
Theorem addRecipientToAllowList_requests (w : W) (phoneNumberId recipientPhone : string) :
  let first := EvPostAllowList (graph_url phoneNumberId "recipients") in
  let second := EvPostAllowList (graph_url phoneNumberId "registered_whatsapp_users") in
  let r := addRecipientToAllowList fetch JSON_parse w phoneNumberId recipientPhone in
  (r.2 = [first] ∨ r.2 = [first; second]) ∧
  (∀ status statusText raw w1,
     fetch w (graph_url phoneNumberId "recipients") (allow_list_body recipientPhone)
     = (Responded status statusText raw, w1) →
     res_ok status = true →
     r = (AllowOk (coalesce (parse_raw JSON_parse raw) (VStr raw)), w1, [first])) ∧
  (∀ w1,
     fetch w (graph_url phoneNumberId "recipients") (allow_list_body recipientPhone)
     = (AbortError, w1) →
     r = (AllowFail None
            (Some "Request to Meta timed out while registering the recipient") VUndef,
          w1, [first])).
Proof.
  intros first second r. subst r first second.
  unfold addRecipientToAllowList. cbn [allow_list_loop].
  split; [|split].
  - destruct (try_path fetch JSON_parse w phoneNumberId recipientPhone "recipients")
      as [[r|e|] w1]; cbn [snd]; [by left| |by left].
    destruct (try_path fetch JSON_parse w1 phoneNumberId recipientPhone
                "registered_whatsapp_users") as [[r|e'|] w2]; cbn [snd]; by right.
  - intros status statusText raw w1 Hf Hok. unfold try_path.
    fold (allow_list_body recipientPhone). rewrite Hf, Hok. reflexivity.
  - intros w1 Hf. unfold try_path.
    fold (allow_list_body recipientPhone). rewrite Hf. reflexivity.
Qed.



End SenderProperties.


Lemma addRecipientToAllowList_requests_witness :
  addRecipientToAllowList scenario_fetch scenario_parse 1%nat "1001" "5491122223333"
  = (AllowOk (VStr ""), 2%nat,
     [EvPostAllowList "https://graph.facebook.com/v23.0/1001/recipients"]).
Proof.
  exact (proj1 (proj2 (addRecipientToAllowList_requests scenario_fetch scenario_parse
                         1%nat "1001" "5491122223333"))
           200 "OK" "" 2%nat eq_refl eq_refl).
Defined.




(** ** The choice of the flow that handles an incoming message *)

Definition DEFAULT_TRIGGER : string := "default".

(** The columns of [Flow] read by the matching; [flow_updatedAt] is the
    value of [getTime()] for the stored date, [NaN] for an invalid one. *)
Record FlowRow := {
  flow_id : string;
  flow_trigger : string;
  flow_status : string;
  flow_channel : option string;
  flow_updatedAt : num;
}.

Record FlowMatchContext := {
  fullText : option string;
  interactiveTitle : option string;
  interactiveId : option string;
}.

(** [isWhatsappChannel] *)
Definition isWhatsappChannel (channel : option string) : bool :=
  match channel with
  | None => true
  | Some c =>
      let trimmed := trim c in
      if bool_decide (trimmed = "") then true
      else bool_decide (toLowerCase trimmed = "whatsapp")
  end.

(** [toTimestamp] *)
Definition toTimestamp (t : num) : Z :=
  match t with NFin z => z | _ => 0 end.

Section FlowMatching.
(** [stripDiacritics]: the string without its combining marks. *)
Variable stripDiacritics : string → string.

Definition normalizeTrigger (value : option string) : option string :=
  match value with
  | None => None
  | Some v =>
      if bool_decide (v = "") then None
      else
        let trimmed := trim v in
        if bool_decide (trimmed = "") then None
        else Some (toLowerCase (stripDiacritics trimmed))
  end.

(** The local [push] of [collectKeywordCandidates]. *)
Definition push_candidates (value : option string) (candidates : list string)
    : list string :=
  match normalizeTrigger value with
  | None => candidates
  | Some normalized =>
      if bool_decide (normalized = "") then candidates
      else foldl (λ s part, set_add part s) (set_add normalized candidates)
                 (ws_parts normalized)
  end.

Definition collectKeywordCandidates (text interactiveTitle interactiveId : option string)
    : list string :=
  push_candidates interactiveId
    (push_candidates interactiveTitle (push_candidates text [])).

(** The four values computed before the loop over the flows. *)
Record MatchKeys := {
  keywordCandidates : list string;
  normalizedText : option string;
  normalizedInteractiveTitle : option string;
  normalizedInteractiveId : option string;
}.

Definition match_keys (context : FlowMatchContext) : MatchKeys :=
  {| keywordCandidates :=
       collectKeywordCandidates (fullText context) (interactiveTitle context)
                                (interactiveId context);
     normalizedText := normalizeTrigger (fullText context);
     normalizedInteractiveTitle := normalizeTrigger (interactiveTitle context);
     normalizedInteractiveId := normalizeTrigger (interactiveId context) |}.

(** [a && a.includes(t)] and [a && a === t] for optional strings. *)
Definition opt_includes (a : option string) (t : string) : bool :=
  match a with Some x => negb (bool_decide (x = "")) && includes x t | None => false end.

Definition opt_equals (a : option string) (t : string) : bool :=
  match a with Some x => negb (bool_decide (x = "")) && bool_decide (x = t) | None => false end.

Definition isDefaultTrigger (flow : FlowRow) : bool :=
  bool_decide (normalizeTrigger (Some (flow_trigger flow)) = Some DEFAULT_TRIGGER).

Definition matchesTrigger (keys : MatchKeys) (flow : FlowRow) : bool :=
  match normalizeTrigger (Some (flow_trigger flow)) with
  | Some t =>
      negb (bool_decide (t = "")) && negb (isDefaultTrigger flow) &&
      (bool_decide (t ∈ keywordCandidates keys) ||
       opt_includes (normalizedText keys) t ||
       opt_includes (normalizedInteractiveTitle keys) t ||
       opt_equals (normalizedInteractiveId keys) t)
  | None => false
  end.

(** [nt && a === nt] *)
Definition same_trigger (nt a : option string) : bool :=
  negb (blank nt) && bool_decide (a = nt).

(** The value of the local [score] at the end of one round of the loop. *)
Definition flow_score (keys : MatchKeys) (flow : FlowRow) : Z :=
  let nt := normalizeTrigger (Some (flow_trigger flow)) in
  let matches := matchesTrigger keys flow in
  (if matches then
     6 + (if same_trigger nt (normalizedText keys) then 2 else 0)
       + (if same_trigger nt (normalizedInteractiveTitle keys) then 1 else 0)
       + (if same_trigger nt (normalizedInteractiveId keys) then 1 else 0)
   else 0)
  + (if negb matches && isDefaultTrigger flow then 1 else 0).

(** One round of the loop on [bestFlow], [bestScore], [bestUpdatedAt]. *)
Definition consider (keys : MatchKeys) (best : option FlowRow * Z * Z) (flow : FlowRow)
    : option FlowRow * Z * Z :=
  let score := flow_score keys flow in
  if score <=? 0 then best
  else
    let updatedAt := toTimestamp (flow_updatedAt flow) in
    if (best.1.2 <? score) || ((score =? best.1.2) && (best.2 <? updatedAt))
    then (Some flow, score, updatedAt)
    else best.

(** [list.sort((a, b) => toTimestamp(b.updatedAt) - toTimestamp(a.updatedAt))]:
    a stable sort, the most recent first. *)
Fixpoint insert_by_updatedAt (flow : FlowRow) (sorted : list FlowRow) : list FlowRow :=
  match sorted with
  | [] => [flow]
  | g :: rest =>
      if toTimestamp (flow_updatedAt g) <? toTimestamp (flow_updatedAt flow)
      then flow :: sorted
      else g :: insert_by_updatedAt flow rest
  end.

Definition sort_by_updatedAt (l : list FlowRow) : list FlowRow :=
  foldl (λ sorted flow, insert_by_updatedAt flow sorted) [] l.

Definition findBestMatchingFlow (flows : list FlowRow) (context : FlowMatchContext)
    : option FlowRow :=
  if bool_decide (flows = []) then None
  else
    let keys := match_keys context in
    match (foldl (consider keys) (None, -1, 0) flows).1.1 with
    | Some bestFlow => Some bestFlow
    | None =>
        let defaultFlows := sort_by_updatedAt (List.filter isDefaultTrigger flows) in
        match head defaultFlows with
        | Some f => Some f
        | None => head flows
        end
    end.

(** *** The chosen flow has the best score *)

Lemma flow_score_nonneg keys flow : 0 ≤ flow_score keys flow.
Proof. unfold flow_score. repeat case_match; lia. Qed.

Lemma flow_score_default keys flow :
  isDefaultTrigger flow = true → flow_score keys flow = 1.
Proof.
  intros Hd. unfold flow_score, matchesTrigger. rewrite Hd.
  destruct (normalizeTrigger _); simpl; [|done].
  by rewrite andb_false_r.
Qed.

(** What the loop has established after the flows [seen]. *)
Definition best_so_far (keys : MatchKeys) (seen : list FlowRow)
    (best : option FlowRow * Z * Z) : Prop :=
  match best.1.1 with
  | None => best.1.2 = -1 ∧ ∀ g, g ∈ seen → flow_score keys g ≤ 0
  | Some f =>
      f ∈ seen ∧ best.1.2 = flow_score keys f ∧ 0 < flow_score keys f ∧
      best.2 = toTimestamp (flow_updatedAt f) ∧
      ∀ g, g ∈ seen →
           flow_score keys g ≤ flow_score keys f ∧
           (flow_score keys g = flow_score keys f →
            toTimestamp (flow_updatedAt g) ≤ toTimestamp (flow_updatedAt f))
  end.

Lemma consider_best_so_far keys seen best flow :
  best_so_far keys seen best →
  best_so_far keys (seen ++ [flow]) (consider keys best flow).
Proof.
  destruct best as [[bestFlow bestScore] bestUpdatedAt].
  unfold best_so_far, consider. cbn [fst snd].
  destruct bestFlow as [f|].
  - intros (Hin & -> & Hpos & -> & Hall).
    destruct (flow_score keys flow <=? 0) eqn:E0; cbn [fst snd].
    { apply Z.leb_le in E0. split; [apply elem_of_app; by left|].
      repeat (split; [done|]). intros g [Hg|Hg%list_elem_of_singleton]%elem_of_app.
      - by apply Hall.
      - subst g. split; lia. }
    apply Z.leb_gt in E0.
    destruct ((flow_score keys f <? flow_score keys flow) ||
              ((flow_score keys flow =? flow_score keys f) &&
               (toTimestamp (flow_updatedAt f) <? toTimestamp (flow_updatedAt flow))))
      eqn:E; cbn [fst snd].
    + split; [apply elem_of_app; right; by apply list_elem_of_singleton|].
      repeat (split; [done|]).
      intros g [Hg|Hg%list_elem_of_singleton]%elem_of_app.
      * destruct (Hall g Hg) as [H1 H2].
        apply orb_prop in E as [E%Z.ltb_lt|E].
        -- split; lia.
        -- apply andb_prop in E as [E1%Z.eqb_eq E2%Z.ltb_lt].
           split; [lia|]. intros Heq. rewrite E1 in Heq. specialize (H2 Heq). lia.
      * subst g. split; lia.
    + apply orb_false_elim in E as [E1%Z.ltb_ge E2].
      split; [apply elem_of_app; by left|]. repeat (split; [done|]).
      intros g [Hg|Hg%list_elem_of_singleton]%elem_of_app; [by apply Hall|].
      subst g. split; [lia|]. intros Heq.
      rewrite Heq, Z.eqb_refl in E2. simpl in E2. by apply Z.ltb_ge in E2.
  - intros (-> & Hall).
    destruct (flow_score keys flow <=? 0) eqn:E0; cbn [fst snd].
    { apply Z.leb_le in E0. split; [done|].
      intros g [Hg|Hg%list_elem_of_singleton]%elem_of_app; [by apply Hall|by subst g]. }
    apply Z.leb_gt in E0.
    assert ((-1 <? flow_score keys flow) = true) as -> by (apply Z.ltb_lt; lia).
    cbn [orb fst snd].
    split; [apply elem_of_app; right; by apply list_elem_of_singleton|].
    repeat (split; [done|]).
    intros g [Hg|Hg%list_elem_of_singleton]%elem_of_app.
    + specialize (Hall g Hg). pose proof (flow_score_nonneg keys g). split; lia.
    + subst g. split; lia.
Qed.

Lemma foldl_consider_best keys flows seen best :
  best_so_far keys seen best →
  best_so_far keys (seen ++ flows) (foldl (consider keys) best flows).
Proof.
  revert seen best. induction flows as [|flow flows IH]; intros seen best H; simpl.
  - by rewrite app_nil_r.
  - replace (seen ++ flow :: flows) with ((seen ++ [flow]) ++ flows)
      by (by rewrite <- app_assoc).
    by apply IH, consider_best_so_far.
Qed.

(** X8: [findBestMatchingFlow] answers [null] only for an empty list of flows.
    The flow it chooses is one of the list whose score no other flow of the
    list exceeds; when that score is positive, no flow with the same score
    was updated more recently. *)
Theorem findBestMatchingFlow_best (flows : list FlowRow) (context : FlowMatchContext) :
  (findBestMatchingFlow flows context = None ↔ flows = []) ∧
  (∀ f, findBestMatchingFlow flows context = Some f →
     f ∈ flows ∧
     (∀ g, g ∈ flows →
        flow_score (match_keys context) g ≤ flow_score (match_keys context) f) ∧
     (0 < flow_score (match_keys context) f →
      ∀ g, g ∈ flows →
        flow_score (match_keys context) g = flow_score (match_keys context) f →
        toTimestamp (flow_updatedAt g) ≤ toTimestamp (flow_updatedAt f))).
Proof.
  unfold findBestMatchingFlow.
  pose proof (foldl_consider_best (match_keys context) flows [] (None, -1, 0)) as H.
  cbn [app] in H. unfold best_so_far at 1 in H. cbn [fst snd] in H.
  specialize (H (conj eq_refl (λ g Hg, False_ind _ (not_elem_of_nil g Hg)))).
  unfold best_so_far in H.
  case_bool_decide as Hnil; [by subst flows|].
  destruct ((foldl (consider (match_keys context)) (None, -1, 0) flows).1.1)
    as [best|].
  - destruct H as (Hin & _ & Hpos & _ & Hall). split; [done|].
    intros f [= <-]. split; [done|]. split.
    + intros g Hg. by apply Hall.
    + intros _ g Hg. by apply Hall.
  - destruct H as (_ & Hall).
    assert (List.filter isDefaultTrigger flows = []) as ->.
    { destruct (List.filter isDefaultTrigger flows) as [|d ds] eqn:E; [done|].
      assert (In d (List.filter isDefaultTrigger flows)) as Hd by (rewrite E; by left).
      apply filter_In in Hd as [Hd1 Hd2].
      apply list_elem_of_In in Hd1. specialize (Hall d Hd1).
      rewrite (flow_score_default _ _ Hd2) in Hall. lia. }
    cbn [sort_by_updatedAt foldl head].
    destruct flows as [|f0 flows]; [done|]. cbn [head]. split; [done|].
    intros f [= <-]. split; [by left|]. split.
    + intros g Hg. specialize (Hall g Hg).
      pose proof (flow_score_nonneg (match_keys context) f0). lia.
    + intros Hpos. specialize (Hall f0 (list_elem_of_here _ _)). lia.
Qed.

End FlowMatching.

(** Three flows of a user; diacritics are left alone. *)
Definition flow_ventas : FlowRow :=
  {| flow_id := "f1"; flow_trigger := "ventas"; flow_status := "Active";
     flow_channel := Some "whatsapp"; flow_updatedAt := NFin 100 |}.
Definition flow_default : FlowRow :=
  {| flow_id := "f2"; flow_trigger := " Default "; flow_status := "Active";
     flow_channel := None; flow_updatedAt := NFin 300 |}.
Definition flow_soporte : FlowRow :=
  {| flow_id := "f3"; flow_trigger := "soporte"; flow_status := "Active";
     flow_channel := Some "whatsapp"; flow_updatedAt := NFin 200 |}.

Definition message_ventas : FlowMatchContext :=
  {| fullText := Some "Quiero VENTAS"; interactiveTitle := None; interactiveId := None |}.

Example findBestMatchingFlow_keyword :
  findBestMatchingFlow (λ s, s) [flow_default; flow_ventas; flow_soporte] message_ventas
  = Some flow_ventas.
Proof. vm_compute. reflexivity. Qed.

Example findBestMatchingFlow_fallback :
  findBestMatchingFlow (λ s, s) [flow_ventas; flow_soporte]
    {| fullText := Some "hola"; interactiveTitle := None; interactiveId := None |}
  = Some flow_ventas.
Proof. vm_compute. reflexivity. Qed.

Lemma findBestMatchingFlow_best_witness :
  flow_ventas ∈ [flow_default; flow_ventas; flow_soporte] ∧
  flow_score (λ s, s) (match_keys (λ s, s) message_ventas) flow_default
  ≤ flow_score (λ s, s) (match_keys (λ s, s) message_ventas) flow_ventas.
Proof.
  destruct (proj2 (findBestMatchingFlow_best (λ s, s)
                     [flow_default; flow_ventas; flow_soporte] message_ventas)
              flow_ventas findBestMatchingFlow_keyword) as (Hin & Hbest & _).
  split; [exact Hin|]. apply Hbest. apply list_elem_of_here.
Defined.


(** ** The text of an incoming message *)

(** *** Trimming twice is trimming once *)

Lemma drop_while_fixed {A} (p : A → bool) (l : list A) :
  drop_while p l = l ↔ match l with [] => True | c :: _ => p c = false end.
Proof.
  destruct l as [|c l]; simpl; [done|].
  destruct (p c) eqn:E; [|done]. split; [|done].
  intros H. exfalso.
  assert (∀ k : list A, (length (drop_while p k) ≤ length k)%nat) as Hlen.
  { induction k as [|x k IH]; simpl; [done|]. destruct (p x); simpl; lia. }
  specialize (Hlen l). rewrite H in Hlen. simpl in Hlen. lia.
Qed.

Lemma drop_while_head {A} (p : A → bool) (l : list A) :
  match drop_while p l with [] => True | c :: _ => p c = false end.
Proof.
  induction l as [|x l IH]; simpl; [done|]. by destruct (p x) eqn:E; [|simpl].
Qed.

Lemma drop_while_suffix {A} (p : A → bool) (l : list A) :
  ∃ s, l = s ++ drop_while p l.
Proof.
  induction l as [|x l [s IH]]; simpl; [by exists []|].
  destruct (p x); [|by exists []]. exists (x :: s). simpl. by rewrite <- IH.
Qed.

Lemma trim_chars_head l :
  match trim_chars l with [] => True | c :: _ => is_space c = false end.
Proof.
  unfold trim_chars.
  pose proof (drop_while_head is_space l) as Hhead.
  destruct (drop_while_suffix is_space (reverse (drop_while is_space l))) as [s Hs].
  apply (f_equal reverse) in Hs. rewrite reverse_involutive, reverse_app in Hs.
  destruct (reverse (drop_while is_space (reverse (drop_while is_space l))))
    as [|c t]; [done|].
  rewrite Hs in Hhead. exact Hhead.
Qed.

Lemma trim_chars_fixed l :
  match l with [] => True | c :: _ => is_space c = false end →
  match reverse l with [] => True | c :: _ => is_space c = false end →
  trim_chars l = l.
Proof.
  intros H1 H2. unfold trim_chars.
  rewrite (proj2 (drop_while_fixed is_space l) H1).
  rewrite (proj2 (drop_while_fixed is_space (reverse l)) H2).
  apply reverse_involutive.
Qed.

Lemma trim_idemp s : trim (trim s) = trim s.
Proof.
  unfold trim. rewrite chars_str. f_equal. apply trim_chars_fixed.
  - apply trim_chars_head.
  - unfold trim_chars. rewrite reverse_involutive. apply drop_while_head.
Qed.

(** *** [extractUserText] *)

(** [msg.interactive?.[reply]?.[field]] *)
Definition interactive_field (msg : value) (reply field : string) : value :=
  opt_prop (opt_prop (prop msg "interactive") reply) field.

(** [a || b] *)
Definition or_else (a b : value) : value := if truthy a then a else b.

(** [extractUserText]; [None] stands for the [TypeError] of calling [trim]
    on a value that is not a string. *)
Definition extractUserText (msg : value) : option value :=
  if negb (truthy msg) then Some VNull
  else
    let type := prop msg "type" in
    if is_str type "text" then
      body ← value_trim (opt_prop (prop msg "text") "body");
      Some (or_else body VNull)
    else if is_str type "interactive" then
      buttonTitle ← value_trim (interactive_field msg "button_reply" "title");
      if truthy buttonTitle then Some buttonTitle
      else
        listTitle ← value_trim (interactive_field msg "list_reply" "title");
        if truthy listTitle then Some listTitle
        else
          buttonId ← value_trim (interactive_field msg "button_reply" "id");
          if negb (nullish buttonId) then Some buttonId
          else
            listId ← value_trim (interactive_field msg "list_reply" "id");
            Some (coalesce listId VNull)
    else if is_str type "image" then
      Some (or_else (opt_prop (prop msg "image") "caption") (VStr "[image]"))
    else if is_str type "video" then
      Some (or_else (opt_prop (prop msg "video") "caption") (VStr "[video]"))
    else if is_str type "audio" then Some (VStr "[audio]")
    else if is_str type "document" then
      Some (or_else (opt_prop (prop msg "document") "caption")
                    (or_else (opt_prop (prop msg "document") "filename")
                             (VStr "[document]")))
    else if is_str type "sticker" then Some (VStr "[sticker]")
    else if is_str type "unknown" then Some (VStr "[unknown_message]")
    else Some VNull.

(** *** The head of [handleIncomingWhatsappMessage] *)

(** How the function fares up to the point where the text is resolved: it
    returns without doing anything, it throws, or it goes on with a sender
    and a text. *)
Inductive Incoming :=
| IncomingIgnored
| IncomingThrows
| IncomingText (from text : string).

Definition incoming_text (message : value) : Incoming :=
  if nullish message then IncomingThrows
  else
    let fromRaw := match prop message "from" with VStr f => f | _ => "" end in
    let from := trim fromRaw in
    if bool_decide (from = "") then IncomingIgnored
    else
      let interactiveTitle :=
        coalesce (interactive_field message "button_reply" "title")
                 (coalesce (interactive_field message "list_reply" "title") VNull) in
      let interactiveId :=
        coalesce (interactive_field message "button_reply" "id")
                 (coalesce (interactive_field message "list_reply" "id") VNull) in
      match extractUserText message with
      | None => IncomingThrows
      | Some textRaw =>
          let fallbackText :=
            title ← value_trim interactiveTitle;
            if negb (nullish title) then Some title
            else id ← value_trim interactiveId; Some (coalesce id VNull) in
          match fallbackText with
          | None => IncomingThrows
          | Some fallbackText =>
              if negb (truthy textRaw) && negb (truthy fallbackText) then IncomingIgnored
              else
                match coalesce textRaw (coalesce fallbackText (VStr "")) with
                | VStr t =>
                    let text := trim t in
                    if bool_decide (text = "") then IncomingIgnored
                    else IncomingText from text
                | _ => IncomingThrows
                end
          end
      end.

(** X9: a message goes on to a flow only with a sender and a text that are
    non-empty and trimmed, the sender being the trimmed [from] of the
    message; a message whose [from] is not a string, or is blank, is
    ignored whatever else it holds, provided its [id] and [type], which the
    log line prints, are neither objects nor arrays. *)
Theorem incoming_text_resolved (message : value) :
  (∀ from text,
     incoming_text message = IncomingText from text →
     from ≠ "" ∧ trim from = from ∧ text ≠ "" ∧ trim text = text ∧
     ∃ f, prop message "from" = VStr f ∧ from = trim f) ∧
  (nullish message = false →
   isObjectLike (prop message "id") = false →
   isObjectLike (prop message "type") = false →
   (∀ f, prop message "from" = VStr f → trim f = "") →
   incoming_text message = IncomingIgnored).
Proof.
  split.
  - intros from text. unfold incoming_text. intros H.
    repeat (case_match; simplify_eq);
      repeat match goal with
             | H : bool_decide _ = false |- _ => apply bool_decide_eq_false_1 in H
             end;
      (split; [done|]; split; [apply trim_idemp|]; split; [done|];
       split; [apply trim_idemp|]; by eexists).
  - intros Hm _ _ Hfrom. unfold incoming_text. rewrite Hm.
    destruct (prop message "from") as [| | | |f| |] eqn:E;
      try (by rewrite bool_decide_eq_true_2).
    by rewrite bool_decide_eq_true_2 by (by apply Hfrom).
Qed.

Definition audio_message : value :=
  obj [("id", VStr "wamid.1"); ("from", VStr " 5491122223333 ");
       ("type", VStr "audio"); ("audio", obj [("id", VStr "m1")])].

Definition anonymous_message : value :=
  obj [("id", VStr "wamid.2"); ("from", VStr "   "); ("type", VStr "text");
       ("text", obj [("body", VStr "hola")])].

Lemma incoming_text_resolved_witness :
  ("5491122223333" ≠ "" ∧ trim "5491122223333" = "5491122223333" ∧
   "[audio]" ≠ "" ∧ trim "[audio]" = "[audio]" ∧
   ∃ f, prop audio_message "from" = VStr f ∧ "5491122223333" = trim f) ∧
  incoming_text anonymous_message = IncomingIgnored.
Proof.
  split.
  - exact (proj1 (incoming_text_resolved audio_message)
             "5491122223333" "[audio]" eq_refl).
  - apply (proj2 (incoming_text_resolved anonymous_message)); try reflexivity.
    intros f Hf. vm_compute in Hf. by injection Hf as <-.
Defined.

(** ** The change values of a webhook event *)

(** The body of the loop over [payload.entry]. *)
Definition entry_change_values (entry : value) : list value :=
  if negb (truthy entry) || negb (isObjectLike entry) then []
  else
    let changes := match prop entry "changes" with VArray l _ => l | _ => [] end in
    List.filter (λ v, truthy v && isObjectLike v)
                ((λ change, opt_prop change "value") <$> changes).

Definition extractWebhookChangeValues (payload : value) : list value :=
  if negb (truthy payload) || negb (isObjectLike payload) then []
  else
    match prop payload "entry" with
    | VArray (e :: es) _ => flat_map entry_change_values (e :: es)
    | _ =>
        let standalone := prop payload "value" in
        if truthy standalone && isObjectLike standalone then [standalone] else []
    end.

(** X10: every change value handed on is an object, found either under
    [entry[i].changes[j].value] or, when the payload has no non-empty
    [entry] array, under [value]; a non-empty [entry] array makes the
    payload's own [value] be ignored. *)
Theorem extractWebhookChangeValues_objects (payload : value) :
  Forall (λ v, isObjectLike v = true) (extractWebhookChangeValues payload) ∧
  (∀ v, v ∈ extractWebhookChangeValues payload →
     (∃ e es p entry change changes cp,
        prop payload "entry" = VArray (e :: es) p ∧ entry ∈ e :: es ∧
        prop entry "changes" = VArray changes cp ∧ change ∈ changes ∧
        v = prop change "value") ∨
     ((∀ e es p, prop payload "entry" ≠ VArray (e :: es) p) ∧
      v = prop payload "value")).
Proof.
  assert (∀ entry, Forall (λ v, isObjectLike v = true) (entry_change_values entry))
    as Hentry.
  { intros entry. unfold entry_change_values. destruct (_ || _); [constructor|].
    apply Forall_forall. intros v Hv%list_elem_of_In. apply filter_In in Hv as [_ Hv].
    by apply andb_prop in Hv as [_ Hv]. }
  unfold extractWebhookChangeValues.
  destruct (negb (truthy payload) || negb (isObjectLike payload)).
  { split; [constructor|]. by intros v Hv%not_elem_of_nil. }
  assert (∀ standalone,
            Forall (λ v, isObjectLike v = true)
              (if truthy standalone && isObjectLike standalone then [standalone] else []))
    as Hstandalone.
  { intros sv. destruct (truthy sv && isObjectLike sv) eqn:E; [|constructor].
    apply andb_prop in E as [_ E]. by repeat constructor. }
  assert (∀ standalone v,
            v ∈ (if truthy standalone && isObjectLike standalone
                 then [standalone] else []) → v = standalone) as Hin.
  { intros sv v. destruct (_ && _); [by intros ->%list_elem_of_singleton|].
    by intros ?%not_elem_of_nil. }
  destruct (prop payload "entry") as [| | | | |[|e es] p|] eqn:Eentry;
    try (split; [apply Hstandalone|]; intros v Hv%Hin; right; by split).
  split.
  - apply Forall_forall. intros v Hv%list_elem_of_In.
    apply in_flat_map in Hv as (entry & _ & Hv). apply list_elem_of_In in Hv.
    revert v Hv. apply Forall_forall, Hentry.
  - intros v Hv%list_elem_of_In. left.
    apply in_flat_map in Hv as (entry & Hentry_in & Hv).
    unfold entry_change_values in Hv. destruct (_ || _); [done|].
    apply filter_In in Hv as [Hv _]. apply list_elem_of_In in Hv.
    apply list_elem_of_fmap in Hv as (change & -> & Hchange).
    destruct (prop entry "changes") as [| | | | |changes cp|] eqn:Ech;
      try (by apply not_elem_of_nil in Hchange).
    exists e, es, p, entry, change, changes, cp.
    split; [done|]. split; [by apply list_elem_of_In|]. split; [done|]. split; [done|].
    unfold opt_prop. destruct (nullish change) eqn:En; [|done].
    by destruct change.
Qed.

Definition webhook_sample : value :=
  obj [("object", VStr "whatsapp_business_account");
       ("entry", VArr [obj [("changes",
          VArr [obj [("value", obj [("metadata", obj [("phone_number_id", VStr "1001")])])];
                obj [("value", VStr "noise")]])]]);
       ("value", obj [("ignored", VBool true)])].

Example extractWebhookChangeValues_sample :
  extractWebhookChangeValues webhook_sample
  = [obj [("metadata", obj [("phone_number_id", VStr "1001")])]].
Proof. vm_compute. reflexivity. Qed.

Lemma extractWebhookChangeValues_objects_witness :
  isObjectLike (obj [("metadata", obj [("phone_number_id", VStr "1001")])]) = true.
Proof.
  pose proof (proj1 (extractWebhookChangeValues_objects webhook_sample)) as H.
  rewrite extractWebhookChangeValues_sample in H.
  exact (Forall_inv H).
Defined.

(** ** The index of the contacts of a webhook event *)

(** [typeof v === "string" ? v.trim() : undefined] *)
Definition trimmed_string (v : value) : option string :=
  match v with VStr s => Some (trim s) | _ => None end.

(** [a && a.length > 0] *)
Definition non_empty (a : option string) : bool :=
  match a with Some s => negb (bool_decide (s = "")) | None => false end.

(** One round of the loop of [indexWhatsappContacts]; the map holds the
    [name] of each entry. *)
Definition index_contact (map : gmap string (option string)) (contact : value)
    : gmap string (option string) :=
  let waId := default "" (trimmed_string (opt_prop contact "wa_id")) in
  if bool_decide (waId = "") then map
  else
    let profileName := trimmed_string (opt_prop (opt_prop contact "profile") "name") in
    let fallbackName := trimmed_string (opt_prop contact "name") in
    let name :=
      if non_empty profileName then profileName
      else if non_empty fallbackName then fallbackName
      else None in
    <[waId := name]> map.

Definition indexWhatsappContacts (contacts : value) : gmap string (option string) :=
  match contacts with
  | VArray l _ => foldl index_contact ∅ l
  | _ => ∅
  end.

Definition index_entry_ok (k : string) (name : option string) : Prop :=
  k ≠ "" ∧ trim k = k ∧ ∀ n, name = Some n → n ≠ "" ∧ trim n = n.

Lemma index_contact_ok map contact :
  map_Forall index_entry_ok map → map_Forall index_entry_ok (index_contact map contact).
Proof.
  intros Hmap. unfold index_contact. case_bool_decide as Hk; [done|].
  apply map_Forall_insert_2; [|done]. split; [done|].
  split.
  { unfold trimmed_string. destruct (opt_prop contact "wa_id"); simpl; try done.
    apply trim_idemp. }
  intros n Hn.
  assert (∀ o : option string, non_empty o = true →
            ∀ v, o = trimmed_string v → ∀ n, o = Some n → n ≠ "" ∧ trim n = n) as Hok.
  { intros o Ho v -> m Hm. unfold trimmed_string in *. destruct v; try done.
    simplify_eq. simpl in Ho. apply negb_true_iff, bool_decide_eq_false_1 in Ho.
    split; [done|apply trim_idemp]. }
  destruct (non_empty (trimmed_string (opt_prop (opt_prop contact "profile") "name")))
    eqn:E1; [by eapply Hok|].
  destruct (non_empty (trimmed_string (opt_prop contact "name"))) eqn:E2;
    [by eapply Hok|done].
Qed.

(** X11: the index is keyed by non-empty trimmed identifiers, and a name it
    holds is non-empty and trimmed; anything but an array gives the empty
    index. *)
Theorem indexWhatsappContacts_entries (contacts : value) :
  map_Forall index_entry_ok (indexWhatsappContacts contacts) ∧
  (isArray contacts = false → indexWhatsappContacts contacts = ∅).
Proof.
  split; [|by destruct contacts].
  unfold indexWhatsappContacts. destruct contacts as [| | | | |l p|];
    try apply map_Forall_empty.
  assert (∀ (m : gmap string (option string)),
            map_Forall index_entry_ok m →
            map_Forall index_entry_ok (foldl index_contact m l)) as H.
  { induction l as [|c l IH]; intros m Hm; simpl; [done|].
    by apply IH, index_contact_ok. }
  apply H, map_Forall_empty.
Qed.

Definition contacts_sample : value :=
  VArr [obj [("wa_id", VStr " 5491122223333 ");
             ("profile", obj [("name", VStr "  Ana  ")])];
        obj [("wa_id", VStr "   "); ("name", VStr "Nadie")];
        obj [("wa_id", VStr "5491100000000"); ("profile", obj [("name", VStr " ")])]].

Example indexWhatsappContacts_sample :
  indexWhatsappContacts contacts_sample
  = <["5491100000000" := None]> {[ "5491122223333" := Some "Ana" ]}.
Proof. vm_compute. reflexivity. Qed.

Lemma indexWhatsappContacts_entries_witness :
  indexWhatsappContacts (VStr "contacts") = ∅.
Proof.
  exact (proj2 (indexWhatsappContacts_entries (VStr "contacts")) eq_refl).
Defined.


(** ** The head of [processManualFlowTrigger] *)

(** [ManualFlowTriggerOptions]; [o_incomingMeta] is [null] or an object. *)
Record ManualFlowTriggerOptions := {
  o_flowId : string;
  o_from : string;
  o_message : string;
  o_name : option string;
  o_variables : option (gmap string value);
  o_incomingMeta : value;
}.

(** How the function fares up to the resolution of the contact: it returns
    a failure, the lookup of the flow throws, or it goes on to call
    [getOrCreateContactForUser] with a phone and alternate phones, for a flow
    and a message. *)
Inductive ManualHead :=
| ManualFailure (status : Z) (error : string)
| ManualThrows (code : string)
| ManualProceeds (normalizedPhone : string) (alternates : list value)
    (flow : FlowRow) (candidateMessage : string).

(** The first of the four candidates that is not empty. *)
Definition candidateMessage (o : ManualFlowTriggerOptions) : option string :=
  let meta := o_incomingMeta o in
  let trimmedMessage := Some (trim (o_message o)) in
  let incomingRawText := trimmed_string (opt_prop meta "rawText") in
  let interactiveTitle := trimmed_string (opt_prop (opt_prop meta "interactive") "title") in
  let interactiveId := trimmed_string (opt_prop (opt_prop meta "interactive") "id") in
  if non_empty trimmedMessage then trimmedMessage
  else if non_empty incomingRawText then incomingRawText
  else if non_empty interactiveTitle then interactiveTitle
  else if non_empty interactiveId then interactiveId
  else None.

Section ManualTrigger.
(** [prisma.flow.findUnique] *)
Variable findUnique_flow : string → DbResult (option FlowRow).

Definition manual_trigger_head (o : ManualFlowTriggerOptions) : ManualHead :=
  let rawPhone := trim (o_from o) in
  match normalizePhone (Some rawPhone) with
  | None =>
      ManualFailure 400 (if bool_decide (String.length rawPhone = 0%nat)
                         then "Missing contact phone number"
                         else "Invalid contact phone number")
  | Some normalizedPhone =>
      match findUnique_flow (o_flowId o) with
      | DbThrow code => ManualThrows code
      | DbOk None => ManualFailure 404 "Flow not found"
      | DbOk (Some flow) =>
          if negb (isWhatsappChannel (flow_channel flow)) then
            ManualFailure 409 "Flow is not configured for WhatsApp"
          else if negb (bool_decide (flow_status flow = "Active")) then
            ManualFailure 409 "Flow is not active"
          else
            match candidateMessage o with
            | None => ManualFailure 400 "Message text is required"
            | Some message =>
                if bool_decide (message = "") then
                  ManualFailure 400 "Message text is required"
                else
                  let alternates :=
                    if negb (bool_decide (rawPhone = "")) &&
                       negb (bool_decide (rawPhone = normalizedPhone))
                    then [VStr rawPhone] else [] in
                  ManualProceeds normalizedPhone alternates flow message
            end
      end
  end.

Lemma candidateMessage_trimmed o m :
  candidateMessage o = Some m → m ≠ "" → trim m = m.
Proof.
  unfold candidateMessage, trimmed_string. intros H _.
  repeat (case_match; simplify_eq); apply trim_idemp.
Qed.

(** X12: a manual trigger reaches the resolution of the contact only with an
    active WhatsApp flow, a message that is non-empty and trimmed, and a
    phone made of the digits of [from], which is also the canonical phone
    under which the contact is then looked up or created; in every other
    case it has failed with status 400, 404 or 409 or the lookup of the flow
    has thrown. *)
Theorem manual_trigger_head_proceeds (o : ManualFlowTriggerOptions) :
  match manual_trigger_head o with
  | ManualProceeds phone alternates flow message =>
      phone = digits_only (o_from o) ∧ phone ≠ "" ∧
      canonicalPhone phone alternates = phone ∧
      findUnique_flow (o_flowId o) = DbOk (Some flow) ∧
      flow_status flow = "Active" ∧ isWhatsappChannel (flow_channel flow) = true ∧
      message ≠ "" ∧ trim message = message
  | ManualFailure status _ => status = 400 ∨ status = 404 ∨ status = 409
  | ManualThrows code => findUnique_flow (o_flowId o) = DbThrow code
  end.
Proof.
  unfold manual_trigger_head.
  destruct (normalizePhone (Some (trim (o_from o)))) as [phone|] eqn:Hphone; [|by left].
  destruct (findUnique_flow (o_flowId o)) as [[flow|]|code]; [| by right; left | done].
  destruct (isWhatsappChannel (flow_channel flow)) eqn:Hch; cbn [negb];
    [|by right; right].
  case_bool_decide as Hst; cbn [negb]; [|by right; right].
  destruct (candidateMessage o) as [message|] eqn:Hm; [|by left].
  case_bool_decide as Hne; [by left|].
  apply normalizePhone_Some in Hphone as (Hp & s & [= <-] & Hd).
  rewrite digits_only_trim in Hd.
  split; [done|]. split; [done|]. split.
  - unfold canonicalPhone.
    assert (digits_only (trim phone) = phone) as Hfix.
    { rewrite digits_only_trim, Hd. apply digits_only_idemp. }
    rewrite normalize_or_raw_digits by (by rewrite Hfix).
    rewrite Hfix. by rewrite bool_decide_eq_false_2.
  - repeat (split; [done|]). by eapply candidateMessage_trimmed.
Qed.

End ManualTrigger.

Definition one_flow (id : string) : DbResult (option FlowRow) :=
  if bool_decide (id = "f1") then DbOk (Some flow_ventas) else DbOk None.

Definition manual_options : ManualFlowTriggerOptions :=
  {| o_flowId := "f1"; o_from := " +54 9 11 2222-3333 "; o_message := "  ";
     o_name := None; o_variables := None;
     o_incomingMeta := obj [("type", VStr "text"); ("rawText", VStr " hola ");
                            ("interactive", VNull)] |}.

Example manual_trigger_head_sample :
  manual_trigger_head one_flow manual_options
  = ManualProceeds "5491122223333" [VStr "+54 9 11 2222-3333"] flow_ventas "hola".
Proof. vm_compute. reflexivity. Qed.


End Meta.

(* ===================================================================== *)
(** * The manual trigger route ([src/index.ts], [/flows/:flowId/trigger])  *)
(* ===================================================================== *)

Module Routes.

Import Meta.

(** [isRecord] *)
Definition isRecord (v : value) : bool := isPlainObject v.

(** [typeof v === "string" ? v : null] *)
Definition string_or_null (v : value) : value :=
  match v with VStr _ => v | _ => VNull end.

(** [sanitizeMedia] *)
Definition sanitizeMedia (v : value) : value := if isRecord v then v else VNull.

Definition sanitizeIncomingMeta (raw : value) : value :=
  if negb (isRecord raw) then VNull
  else
    let interactiveRaw := prop raw "interactive" in
    let interactive :=
      if isRecord interactiveRaw then
        obj [("type", string_or_null (prop interactiveRaw "type"));
             ("id", string_or_null (prop interactiveRaw "id"));
             ("title", string_or_null (prop interactiveRaw "title"))]
      else VNull in
    obj [("type", string_or_null (prop raw "type"));
         ("rawText", string_or_null (prop raw "rawText"));
         ("interactive", interactive);
         ("image", sanitizeMedia (prop raw "image"));
         ("video", sanitizeMedia (prop raw "video"));
         ("audio", sanitizeMedia (prop raw "audio"));
         ("document", sanitizeMedia (prop raw "document"));
         ("sticker", sanitizeMedia (prop raw "sticker"))].





(** *** Sanitizing the incoming meta *)

Lemma string_or_null_idemp v : string_or_null (string_or_null v) = string_or_null v.
Proof. by destruct v. Qed.

Lemma sanitizeMedia_idemp v : sanitizeMedia (sanitizeMedia v) = sanitizeMedia v.
Proof. by destruct v. Qed.

(** The sanitized interactive part, from its three fields. *)
Definition interactive_of (type id title : value) : value :=
  obj [("type", type); ("id", id); ("title", title)].

Definition meta_of (type rawText interactive image video audio document sticker : value)
    : value :=
  obj [("type", type); ("rawText", rawText); ("interactive", interactive);
       ("image", image); ("video", video); ("audio", audio);
       ("document", document); ("sticker", sticker)].

Lemma sanitizeIncomingMeta_meta_of type rawText interactive image video audio
    document sticker :
  sanitizeIncomingMeta (meta_of type rawText interactive image video audio document sticker)
  = meta_of (string_or_null type) (string_or_null rawText)
      (if isRecord interactive
       then interactive_of (string_or_null (prop interactive "type"))
                           (string_or_null (prop interactive "id"))
                           (string_or_null (prop interactive "title"))
       else VNull)
      (sanitizeMedia image) (sanitizeMedia video) (sanitizeMedia audio)
      (sanitizeMedia document) (sanitizeMedia sticker).
Proof. reflexivity. Qed.

Definition sanitized_interactive (interactive : value) : Prop :=
  interactive = VNull ∨
  ∃ t i l, interactive = interactive_of t i l ∧ string_or_null t = t ∧
           string_or_null i = i ∧ string_or_null l = l.

Definition sanitized_meta (meta : value) : Prop :=
  meta = VNull ∨
  ∃ type rawText interactive image video audio document sticker,
    meta = meta_of type rawText interactive image video audio document sticker ∧
    string_or_null type = type ∧ string_or_null rawText = rawText ∧
    sanitized_interactive interactive ∧
    Forall (λ m, sanitizeMedia m = m) [image; video; audio; document; sticker].

Lemma sanitizeIncomingMeta_sanitized raw : sanitized_meta (sanitizeIncomingMeta raw).
Proof.
  unfold sanitizeIncomingMeta.
  destruct (isRecord raw); cbn [negb]; [|by left].
  right. eexists _, _, _, _, _, _, _, _. split; [reflexivity|].
  split; [apply string_or_null_idemp|]. split; [apply string_or_null_idemp|].
  split.
  - destruct (isRecord (prop raw "interactive")); [|by left].
    right. eexists _, _, _. split; [reflexivity|].
    repeat split; apply string_or_null_idemp.
  - repeat constructor; apply sanitizeMedia_idemp.
Qed.

Lemma sanitized_meta_fixed meta : sanitized_meta meta → sanitizeIncomingMeta meta = meta.
Proof.
  intros [->|(type & rawText & interactive & image & video & audio & document &
              sticker & -> & Ht & Hr & Hi & Hm)]; [done|].
  rewrite sanitizeIncomingMeta_meta_of, Ht, Hr.
  apply Forall_cons in Hm as [-> Hm]. apply Forall_cons in Hm as [-> Hm].
  apply Forall_cons in Hm as [-> Hm]. apply Forall_cons in Hm as [-> Hm].
  apply Forall_cons in Hm as [-> _].
  destruct Hi as [->|(t & i & l & -> & Ht' & Hi' & Hl')]; [done|].
  change (isRecord (interactive_of t i l)) with true. cbv iota.
  change (prop (interactive_of t i l) "type") with t.
  change (prop (interactive_of t i l) "id") with i.
  change (prop (interactive_of t i l) "title") with l.
  by rewrite Ht', Hi', Hl'.
Qed.

(** The fields of the interactive part and the media. *)
Definition interactive_fields : list string := ["type"; "id"; "title"].
Definition media_fields : list string :=
  ["image"; "video"; "audio"; "document"; "sticker"].

(** X13: the sanitizer returns [null] for what is not a plain object, and
    for a plain object an object of eight fields: the type and the raw text
    of the input when they are strings and [null] otherwise, each medium of
    the input when it is a plain object and [null] otherwise, and an
    interactive part that is [null] unless the input's is a plain object,
    and then holds its three fields when they are strings and [null]
    otherwise.  A result in this form is returned unchanged, so that
    sanitizing twice is sanitizing once. *)
Theorem sanitizeIncomingMeta_idempotent (raw : value) :
  sanitizeIncomingMeta (sanitizeIncomingMeta raw) = sanitizeIncomingMeta raw ∧
  sanitized_meta (sanitizeIncomingMeta raw) ∧
  (isRecord raw = false → sanitizeIncomingMeta raw = VNull) ∧
  (isRecord raw = true →
   isRecord (sanitizeIncomingMeta raw) = true ∧
   prop (sanitizeIncomingMeta raw) "type" = string_or_null (prop raw "type") ∧
   prop (sanitizeIncomingMeta raw) "rawText" = string_or_null (prop raw "rawText") ∧
   (∀ k, k ∈ media_fields →
      prop (sanitizeIncomingMeta raw) k = sanitizeMedia (prop raw k)) ∧
   (isRecord (prop raw "interactive") = false →
    prop (sanitizeIncomingMeta raw) "interactive" = VNull) ∧
   (isRecord (prop raw "interactive") = true →
    isRecord (prop (sanitizeIncomingMeta raw) "interactive") = true ∧
    ∀ k, k ∈ interactive_fields →
      prop (prop (sanitizeIncomingMeta raw) "interactive") k
      = string_or_null (prop (prop raw "interactive") k))) ∧
  (sanitized_meta raw → sanitizeIncomingMeta raw = raw).
Proof.
  split; [apply sanitized_meta_fixed, sanitizeIncomingMeta_sanitized|].
  split; [apply sanitizeIncomingMeta_sanitized|].
  split; [intros Hr; unfold sanitizeIncomingMeta; by rewrite Hr|].
  split; [|apply sanitized_meta_fixed].
  intros Hr. unfold sanitizeIncomingMeta. rewrite Hr. cbn [negb].
  split; [done|]. split; [done|]. split; [done|].
  split.
  { intros k Hk. apply list_elem_of_In in Hk. simpl in Hk.
    destruct Hk as [<-|[<-|[<-|[<-|[<-|[]]]]]]; reflexivity. }
  split.
  { intros Hi. by rewrite Hi. }
  intros Hi. rewrite Hi. split; [done|].
  intros k Hk. apply list_elem_of_In in Hk. simpl in Hk.
  destruct Hk as [<-|[<-|[<-|[]]]]; reflexivity.
Qed.

Definition raw_meta : value :=
  obj [("type", VStr "image"); ("rawText", VNum (NFin 7));
       ("image", obj [("id", VStr "m1")]); ("audio", VStr "none");
       ("interactive", obj [("id", VStr "opt_1"); ("title", VBool true)]);
       ("debug", VBool true)].

Lemma sanitizeIncomingMeta_idempotent_witness :
  sanitizeIncomingMeta (VArr [VStr "text"]) = VNull ∧
  sanitizeIncomingMeta raw_meta
  = meta_of (VStr "image") VNull (interactive_of VNull (VStr "opt_1") VNull)
            (obj [("id", VStr "m1")]) VNull VNull VNull VNull ∧
  prop (sanitizeIncomingMeta raw_meta) "type" = VStr "image" ∧
  prop (sanitizeIncomingMeta raw_meta) "rawText" = VNull ∧
  prop (prop (sanitizeIncomingMeta raw_meta) "interactive") "id" = VStr "opt_1".
Proof.
  destruct (sanitizeIncomingMeta_idempotent (VArr [VStr "text"]))
    as (_ & _ & Hnull & _).
  destruct (sanitizeIncomingMeta_idempotent raw_meta)
    as (_ & _ & _ & Hrecord & _).
  destruct (Hrecord eq_refl) as (_ & Htype & Hraw & _ & _ & Hinter).
  destruct (Hinter eq_refl) as (_ & Hfields).
  split; [exact (Hnull eq_refl)|]. split; [reflexivity|].
  split; [exact Htype|]. split; [exact Hraw|].
  refine (Hfields "id" _). apply list_elem_of_In. simpl. tauto.
Defined.

(** *** What the route lets through *)




End Routes.

(* ===================================================================== *)
(** * Flow-definition sanitizer ([src/lib/flow-schema.ts])                *)
(* ===================================================================== *)

Module FlowSchema.

Inductive Error :=
| FlowSanitizationError (message : string)
| ZodError.

Inductive result (A : Type) :=
| Ok (a : A)
| Err (e : Error).
Arguments Ok {A} a.
Arguments Err {A} e.

Global Instance result_bind : MBind result :=
  λ A B f r, match r with Ok a => f a | Err e => Err e end.

Definition flowNodeTypes : list string :=
  ["trigger"; "message"; "options"; "delay"; "condition"; "api"; "assign";
   "media"; "whatsapp_flow"; "handoff"; "goto"; "end"].

(** [deepClone]: [structuredClone], which copies the elements and the own
    properties of a value; on plain data the fallback branch agrees with
    it. *)
Fixpoint deepClone (v : value) : value :=
  match v with
  | VArray l p => VArray (deepClone <$> l) (deepClone <$> p)
  | VObj m => VObj (deepClone <$> m)
  | _ => v
  end.

(** [{...v}] *)
Definition spread (v : value) : gmap string value :=
  match v with VObj m => m | _ => ∅ end.

(** The field [data[key]] seen by a schema: absent keys read [undefined]. *)
Definition field (m : gmap string value) (k : string) : value :=
  default VUndef (m !! k).

(** An object schema sets a key of its output when the key is in the input
    or the parsed value is defined. *)
Definition put (k : string) (v : value) (input out : gmap string value)
    : gmap string value :=
  match input !! k, v with
  | None, VUndef => out
  | _, _ => <[k := v]> out
  end.

(** [.passthrough()]: the keys outside the shape are copied to the output
    when their value is defined. *)
Definition passthrough (shape : list string) (m : gmap string value)
    : gmap string value :=
  filter (λ kv : string * value,
            negb (bool_decide (kv.1 ∈ shape)) && negb (is_undefined kv.2)) m.

(** [z.string().min(1)] *)
Definition z_string_min1 (v : value) : result value :=
  match v with
  | VStr s => if bool_decide (String.length s = 0%nat) then Err ZodError else Ok v
  | _ => Err ZodError
  end.

(** [z.enum(flowNodeTypes)] *)
Definition z_node_type (v : value) : result value :=
  match v with
  | VStr s => if bool_decide (s ∈ flowNodeTypes) then Ok v else Err ZodError
  | _ => Err ZodError
  end.

(** [z.union([z.string(), z.null()]).optional()] *)
Definition z_handle (v : value) : result value :=
  match v with
  | VUndef | VNull | VStr _ => Ok v
  | _ => Err ZodError
  end.

Fixpoint parse_all (f : value → result value) (l : list value) : result (list value) :=
  match l with
  | [] => Ok []
  | x :: l' => y ← f x; ys ← parse_all f l'; Ok (y :: ys)
  end.

(** [z.array(schema).default([])] *)
Definition z_array_default (f : value → result value) (v : value) : result (list value) :=
  match v with
  | VUndef => Ok []
  | VArray l _ => parse_all f l
  | _ => Err ZodError
  end.

Section Sanitizer.
(** [JSON.parse] ([None] when it throws) and the conversion of a string to
    a number behind [Number(s)]. *)
Variable JSON_parse : string → option value.
Variable string_to_number : string → num.

(** [Number(v)] *)
Definition Number (v : value) : num := to_number string_to_number v.

(** [coordinateSchema = z.coerce.number().finite().catch(0)] *)
Definition coordinateSchema (v : value) : value :=
  let n := Number v in
  if isFinite n then VNum n else VNum (NFin 0).

(** [coordinateSchema.optional()] *)
Definition coordinate_optional (v : value) : value :=
  match v with VUndef => VUndef | _ => coordinateSchema v end.

(** [z.object({ x, y }).partial().optional()] *)
Definition z_position (v : value) : result value :=
  match v with
  | VUndef => Ok VUndef
  | VObj m =>
      Ok (VObj (put "y" (coordinate_optional (field m "y")) m
               (put "x" (coordinate_optional (field m "x")) m ∅)))
  | _ => Err ZodError
  end.

(** [FlowNodeSchemaInternal]: [data] is [z.unknown().optional()] and the
    object passes unknown keys through. *)
Definition FlowNodeSchemaInternal (v : value) : result value :=
  match v with
  | VObj m =>
      id ← z_string_min1 (field m "id");
      type ← z_node_type (field m "type");
      position ← z_position (field m "position");
      Ok (VObj (put "data" (field m "data") m
               (put "position" position m
               (put "type" type m
               (put "id" id m
               (passthrough ["id"; "type"; "position"; "data"] m))))))
  | _ => Err ZodError
  end.

(** [FlowEdgeSchemaInternal] *)
Definition FlowEdgeSchemaInternal (v : value) : result value :=
  match v with
  | VObj m =>
      id ← z_string_min1 (field m "id");
      source ← z_string_min1 (field m "source");
      target ← z_string_min1 (field m "target");
      sourceHandle ← z_handle (field m "sourceHandle");
      targetHandle ← z_handle (field m "targetHandle");
      Ok (VObj (put "targetHandle" targetHandle m
               (put "sourceHandle" sourceHandle m
               (put "target" target m
               (put "source" source m
               (put "id" id m
               (passthrough ["id"; "source"; "target"; "sourceHandle"; "targetHandle"]
                            m)))))))
  | _ => Err ZodError
  end.

(** [FlowDefinitionSchema]: the parsed [nodes] and [edges]; keys other than
    these two are stripped. *)
Definition FlowDefinitionSchema (v : value) : result (list value * list value) :=
  match (match v with VUndef => obj [("nodes", VArr []); ("edges", VArr [])] | _ => v end) with
  | VObj m =>
      nodes ← z_array_default FlowNodeSchemaInternal (field m "nodes");
      edges ← z_array_default FlowEdgeSchemaInternal (field m "edges");
      Ok (nodes, edges)
  | _ => Err ZodError
  end.

Definition ensureCoordinate (v : value) : num :=
  match v with
  | VNum n => if isFinite n then n else NFin 0
  | _ => let coerced := Number v in if isFinite coerced then coerced else NFin 0
  end.

Definition parseFlowInput (input : value) : result value :=
  match input with
  | VStr s =>
      let trimmed := trim s in
      if bool_decide (trimmed = "") then Ok (obj [])
      else
        match JSON_parse trimmed with
        | Some v => Ok v
        | None => Err (FlowSanitizationError "Flow definition string must be valid JSON.")
        end
  | _ => Ok (coalesce input (obj []))
  end.

Definition sanitize_node (node : value) : value :=
  let clone := deepClone node in
  let position :=
    if isPlainObject (prop clone "position") then prop clone "position" else obj [] in
  VObj (<["position" := obj [("x", VNum (ensureCoordinate (prop position "x")));
                             ("y", VNum (ensureCoordinate (prop position "y")))]]>
       (<["data" := if isPlainObject (prop clone "data")
                    then deepClone (prop clone "data") else obj []]>
       (<["type" := prop clone "type"]>
       (<["id" := VStr (js_String (prop clone "id"))]> (spread clone))))).

Definition normalizeHandle (handle : value) : value :=
  match handle with
  | VStr _ => handle
  | VNull => VNull
  | _ => VUndef
  end.

Definition sanitize_edge (edge : value) : value :=
  let clone := deepClone edge in
  VObj (<["targetHandle" := normalizeHandle (prop clone "targetHandle")]>
       (<["sourceHandle" := normalizeHandle (prop clone "sourceHandle")]>
       (<["target" := VStr (js_String (prop clone "target"))]>
       (<["source" := VStr (js_String (prop clone "source"))]>
       (<["id" := VStr (js_String (prop clone "id"))]> (spread clone)))))).

Definition flow_definition (nodes edges : list value) : value :=
  obj [("nodes", VArr nodes); ("edges", VArr edges)].

Definition sanitizeFlowDefinition (input : value) : result value :=
  raw ← parseFlowInput input;
  parsed ← FlowDefinitionSchema raw;
  Ok (flow_definition (sanitize_node <$> parsed.1) (sanitize_edge <$> parsed.2)).

Definition emptyFlowDefinition : value := flow_definition [] [].

(** *** Cloning plain data returns an equal value *)

Lemma deepClone_id v : deepClone v = v.
Proof.
  remember (vsize v) as n eqn:Hn. revert v Hn.
  induction n as [n IH] using lt_wf_ind. intros v ->.
  destruct v as [| |b|k|t|l p|m]; simpl; try done.
  - f_equal.
    + rewrite <- (list_fmap_id l) at 2. apply list_fmap_ext.
      intros i x Hx. eapply IH; [|done].
      apply vsize_elem. by eapply list_elem_of_lookup_2.
    + apply map_eq. intros k. rewrite lookup_fmap.
      destruct (p !! k) as [x|] eqn:Hx; simpl; [|done].
      f_equal. eapply IH; [|done]. by eapply vsize_props.
  - f_equal. apply map_eq. intros k. rewrite lookup_fmap.
    destruct (m !! k) as [x|] eqn:Hx; simpl; [|done].
    f_equal. eapply IH; [|done]. by eapply vsize_lookup.
Qed.

(** *** Facts about the schemas *)

Lemma bind_Ok {A B} (f : A → result B) (r : result A) (b : B) :
  r ≫= f = Ok b → ∃ a, r = Ok a ∧ f a = Ok b.
Proof. destruct r as [a|e]; [|done]. intros H. by exists a. Qed.

Lemma z_string_min1_Ok v v' :
  z_string_min1 v = Ok v' → v' = v ∧ ∃ s, v = VStr s ∧ s ≠ "".
Proof.
  destruct v; try done. simpl. case_bool_decide as Hl; [done|].
  intros [= <-]. split; [done|]. eexists. split; [done|].
  intros ->. by apply Hl.
Qed.

Lemma z_node_type_Ok v v' :
  z_node_type v = Ok v' → v' = v ∧ ∃ t, v = VStr t ∧ t ∈ flowNodeTypes.
Proof.
  destruct v; try done. simpl. case_bool_decide as Hl; [|done].
  intros [= <-]. eauto.
Qed.

Definition handle_ok (h : value) : Prop :=
  h = VUndef ∨ h = VNull ∨ ∃ s, h = VStr s.

Lemma z_handle_Ok v v' : z_handle v = Ok v' → v' = v ∧ handle_ok v.
Proof.
  unfold handle_ok. destruct v; try done; intros [= <-]; eauto.
Qed.

Lemma normalizeHandle_ok h : handle_ok h → normalizeHandle h = h.
Proof. by intros [->|[->|[s ->]]]. Qed.

Lemma normalizeHandle_handle_ok h : handle_ok (normalizeHandle h).
Proof. unfold handle_ok. destruct h; simpl; eauto. Qed.

Lemma field_Some m k v : v ≠ VUndef → field m k = v → m !! k = Some v.
Proof. unfold field. destruct (m !! k); simpl; congruence. Qed.

Lemma lookup_put_ne k k' v (m out : gmap string value) :
  k ≠ k' → put k v m out !! k' = out !! k'.
Proof.
  intros Hk. unfold put. repeat case_match; by rewrite ?lookup_insert_ne.
Qed.

Lemma lookup_put_present k v x (m out : gmap string value) :
  m !! k = Some x → put k v m out !! k = Some v.
Proof. intros Hk. unfold put. rewrite Hk. by rewrite lookup_insert_eq. Qed.

Lemma lookup_passthrough shape (m : gmap string value) k :
  k ∉ shape → m !! k ≠ Some VUndef → passthrough shape m !! k = m !! k.
Proof.
  intros Hk Hu. unfold passthrough. rewrite map_lookup_filter.
  destruct (m !! k) as [v|] eqn:E; simpl; [|done].
  rewrite option_guard_True; [done|]. simpl.
  rewrite bool_decide_eq_false_2 by done. by destruct v.
Qed.

Lemma lookup_passthrough_defined shape (m : gmap string value) k :
  passthrough shape m !! k ≠ Some VUndef.
Proof.
  unfold passthrough. intros [_ H]%map_lookup_filter_Some. simpl in H.
  by rewrite andb_false_r in H.
Qed.

Lemma parse_all_Ok f l l' :
  parse_all f l = Ok l' → Forall2 (λ x y, f x = Ok y) l l'.
Proof.
  revert l'. induction l as [|x l IH]; intros l'; simpl.
  - intros [= <-]. constructor.
  - intros (y & Hy & H)%bind_Ok. apply bind_Ok in H as (ys & Hys & [= <-]).
    constructor; auto.
Qed.

Lemma parse_all_fixed f l :
  Forall (λ x, f x = Ok x) l → parse_all f l = Ok l.
Proof.
  induction 1 as [|x l Hx _ IH]; simpl; [done|]. by rewrite Hx, IH.
Qed.

(** *** Sanitized nodes and edges *)

Definition position_of (x y : Z) : value :=
  obj [("x", VNum (NFin x)); ("y", VNum (NFin y))].

(** A node as the sanitizer returns it: a non-empty string [id], a [type]
    among the twelve node types, an object [data] and a [position] made of
    two finite numbers. *)
Definition sanitized_node (n : value) : Prop :=
  ∃ m i t d x y,
    n = VObj m ∧
    m !! "id" = Some (VStr i) ∧ i ≠ "" ∧
    m !! "type" = Some (VStr t) ∧ t ∈ flowNodeTypes ∧
    m !! "data" = Some (VObj d) ∧
    m !! "position" = Some (position_of x y) ∧
    (∀ k, m !! k ≠ Some VUndef).

Definition sanitized_edge (e : value) : Prop :=
  ∃ m i s t sh th,
    e = VObj m ∧
    m !! "id" = Some (VStr i) ∧ i ≠ "" ∧
    m !! "source" = Some (VStr s) ∧ s ≠ "" ∧
    m !! "target" = Some (VStr t) ∧ t ≠ "" ∧
    m !! "sourceHandle" = Some sh ∧ handle_ok sh ∧
    m !! "targetHandle" = Some th ∧ handle_ok th ∧
    (∀ k, m !! k = Some VUndef → k = "sourceHandle" ∨ k = "targetHandle").

Lemma ensureCoordinate_finite v : ∃ z, ensureCoordinate v = NFin z.
Proof.
  unfold ensureCoordinate.
  destruct v as [| |b|n|t|l p|m]; simpl;
    try (destruct (Number _) as [z| |]; simpl; eauto; fail).
  - eauto.
  - eauto.
  - destruct b; eauto.
  - destruct n; simpl; eauto.
  - destruct (string_to_number t); simpl; eauto.
  - destruct (string_to_number _); simpl; eauto.
  - eauto.
Qed.

Definition node_shape : list string := ["id"; "type"; "position"; "data"].
Definition edge_shape : list string :=
  ["id"; "source"; "target"; "sourceHandle"; "targetHandle"].

Lemma not_in_node_shape k :
  k ≠ "id" → k ≠ "type" → k ≠ "position" → k ≠ "data" → k ∉ node_shape.
Proof.
  intros ???? H. unfold node_shape in H.
  repeat (apply elem_of_cons in H as [?|H]; [done|]). by apply not_elem_of_nil in H.
Qed.

Lemma not_in_edge_shape k :
  k ≠ "id" → k ≠ "source" → k ≠ "target" → k ≠ "sourceHandle" →
  k ≠ "targetHandle" → k ∉ edge_shape.
Proof.
  intros ????? H. unfold edge_shape in H.
  repeat (apply elem_of_cons in H as [?|H]; [done|]). by apply not_elem_of_nil in H.
Qed.

Lemma node_schema_Ok v n :
  FlowNodeSchemaInternal v = Ok n →
  ∃ m i t, n = VObj m ∧
           m !! "id" = Some (VStr i) ∧ i ≠ "" ∧
           m !! "type" = Some (VStr t) ∧ t ∈ flowNodeTypes ∧
           (∀ k, k ∉ node_shape → m !! k ≠ Some VUndef).
Proof.
  destruct v as [| | | | | |m0]; try done. simpl.
  intros (id & Hid & H)%bind_Ok.
  apply bind_Ok in H as (ty & Hty & H).
  apply bind_Ok in H as (pos & Hpos & [= <-]).
  apply z_string_min1_Ok in Hid as (-> & i & Hi & Hne).
  apply z_node_type_Ok in Hty as (-> & t & Ht & Hin).
  rewrite Hi, Ht.
  apply field_Some in Hi; [|done]. apply field_Some in Ht; [|done].
  eexists _, i, t. split; [done|].
  split; [|split; [done|split; [|split; [done|]]]].
  - rewrite !lookup_put_ne by done. by eapply lookup_put_present.
  - rewrite !lookup_put_ne by done. by eapply lookup_put_present.
  - intros k Hk. rewrite !lookup_put_ne.
    + apply lookup_passthrough_defined.
    + intros <-. apply Hk. apply list_elem_of_In. simpl. tauto.
    + intros <-. apply Hk. apply list_elem_of_In. simpl. tauto.
    + intros <-. apply Hk. apply list_elem_of_In. simpl. tauto.
    + intros <-. apply Hk. apply list_elem_of_In. simpl. tauto.
Qed.

Lemma sanitize_node_sanitized v n :
  FlowNodeSchemaInternal v = Ok n → sanitized_node (sanitize_node n).
Proof.
  intros (m & i & t & -> & Hi & Hne & Ht & Hin & Hdef)%node_schema_Ok.
  unfold sanitize_node. rewrite !deepClone_id. simpl.
  rewrite Hi, Ht. simpl.
  destruct (ensureCoordinate_finite
              (prop (if isPlainObject (default VUndef (m !! "position"))
                     then default VUndef (m !! "position") else obj []) "x"))
    as [x Hx].
  destruct (ensureCoordinate_finite
              (prop (if isPlainObject (default VUndef (m !! "position"))
                     then default VUndef (m !! "position") else obj []) "y"))
    as [y Hy].
  rewrite Hx, Hy.
  assert (∃ d, (if isPlainObject (default VUndef (m !! "data"))
                then default VUndef (m !! "data") else obj []) = VObj d) as [d Hd].
  { destruct (default VUndef (m !! "data")); simpl; eauto. }
  rewrite Hd.
  eexists _, i, t, d, x, y. split; [done|].
  rewrite lookup_insert_ne, lookup_insert_ne, lookup_insert_ne, lookup_insert_eq by done.
  rewrite lookup_insert_ne, lookup_insert_ne, lookup_insert_eq by done.
  rewrite lookup_insert_ne, lookup_insert_eq by done.
  rewrite lookup_insert_eq. repeat (split; [done|]).
  intros k.
  destruct (decide (k = "position")) as [->|Hk1]; [by rewrite lookup_insert_eq|].
  rewrite lookup_insert_ne by done.
  destruct (decide (k = "data")) as [->|Hk2]; [by rewrite lookup_insert_eq|].
  rewrite lookup_insert_ne by done.
  destruct (decide (k = "type")) as [->|Hk3]; [by rewrite lookup_insert_eq|].
  rewrite lookup_insert_ne by done.
  destruct (decide (k = "id")) as [->|Hk4]; [by rewrite lookup_insert_eq|].
  rewrite lookup_insert_ne by done.
  by apply Hdef, not_in_node_shape.
Qed.

Lemma position_schema_fixed x y :
  z_position (position_of x y) = Ok (position_of x y).
Proof. reflexivity. Qed.

Lemma field_lookup m k v : m !! k = Some v → field m k = v.
Proof. unfold field. by intros ->. Qed.

Lemma ret_bind {A B} (f : A → result B) (a : A) : Ok a ≫= f = f a.
Proof. reflexivity. Qed.

Lemma z_string_min1_fixed s : s ≠ "" → z_string_min1 (VStr s) = Ok (VStr s).
Proof.
  intros Hs. simpl. by rewrite bool_decide_eq_false_2 by (by rewrite Meta.string_length_0).
Qed.

Lemma z_node_type_fixed t : t ∈ flowNodeTypes → z_node_type (VStr t) = Ok (VStr t).
Proof. intros Ht. simpl. by rewrite bool_decide_eq_true_2. Qed.

(** A sanitized node is accepted unchanged by the schema and left unchanged
    by a second sanitization. *)
Lemma sanitized_node_fixed n :
  sanitized_node n →
  FlowNodeSchemaInternal n = Ok n ∧ sanitize_node n = n.
Proof.
  intros (m & i & t & d & x & y & -> & Hi & Hne & Ht & Hin & Hd & Hp & Hdef). split.
  - unfold FlowNodeSchemaInternal.
    rewrite (field_lookup _ _ _ Hi), (field_lookup _ _ _ Ht),
      (field_lookup _ _ _ Hp), (field_lookup _ _ _ Hd).
    rewrite z_string_min1_fixed, ret_bind by done.
    rewrite z_node_type_fixed, ret_bind by done.
    rewrite position_schema_fixed, ret_bind.
    do 2 f_equal. apply map_eq. intros k.
    destruct (decide (k = "data")) as [->|Hk1];
      [by rewrite (lookup_put_present _ _ _ _ _ Hd)|].
    rewrite lookup_put_ne by done.
    destruct (decide (k = "position")) as [->|Hk2];
      [by rewrite (lookup_put_present _ _ _ _ _ Hp)|].
    rewrite lookup_put_ne by done.
    destruct (decide (k = "type")) as [->|Hk3];
      [by rewrite (lookup_put_present _ _ _ _ _ Ht)|].
    rewrite lookup_put_ne by done.
    destruct (decide (k = "id")) as [->|Hk4];
      [by rewrite (lookup_put_present _ _ _ _ _ Hi)|].
    rewrite lookup_put_ne by done.
    apply lookup_passthrough; [by apply not_in_node_shape|done].
  - unfold sanitize_node. rewrite !deepClone_id. simpl.
    rewrite Hi, Ht, Hd, Hp. simpl. f_equal.
    rewrite (insert_id m "id") by done.
    rewrite (insert_id m "type") by done.
    rewrite (insert_id m "data") by done.
    by rewrite (insert_id m "position").
Qed.

Lemma edge_schema_Ok v e :
  FlowEdgeSchemaInternal v = Ok e →
  ∃ m i s t, e = VObj m ∧
    m !! "id" = Some (VStr i) ∧ i ≠ "" ∧
    m !! "source" = Some (VStr s) ∧ s ≠ "" ∧
    m !! "target" = Some (VStr t) ∧ t ≠ "" ∧
    (∀ k, k ∉ edge_shape → m !! k ≠ Some VUndef).
Proof.
  destruct v as [| | | | | |m0]; try done. simpl.
  intros (id & Hid & H)%bind_Ok.
  apply bind_Ok in H as (so & Hso & H).
  apply bind_Ok in H as (ta & Hta & H).
  apply bind_Ok in H as (sh & Hsh & H).
  apply bind_Ok in H as (th & Hth & [= <-]).
  apply z_string_min1_Ok in Hid as (-> & i & Hi & Hine).
  apply z_string_min1_Ok in Hso as (-> & s & Hs & Hsne).
  apply z_string_min1_Ok in Hta as (-> & t & Ht & Htne).
  apply z_handle_Ok in Hsh as (-> & _).
  apply z_handle_Ok in Hth as (-> & _).
  rewrite Hi, Hs, Ht.
  apply field_Some in Hi; [|done]. apply field_Some in Hs; [|done].
  apply field_Some in Ht; [|done].
  eexists _, i, s, t. split; [done|].
  split; [|split; [done|split; [|split; [done|split; [|split; [done|]]]]]].
  - rewrite !lookup_put_ne by done. by eapply lookup_put_present.
  - rewrite !lookup_put_ne by done. by eapply lookup_put_present.
  - rewrite !lookup_put_ne by done. by eapply lookup_put_present.
  - intros k Hk. rewrite !lookup_put_ne.
    + apply lookup_passthrough_defined.
    + intros <-. apply Hk. apply list_elem_of_In. simpl. tauto.
    + intros <-. apply Hk. apply list_elem_of_In. simpl. tauto.
    + intros <-. apply Hk. apply list_elem_of_In. simpl. tauto.
    + intros <-. apply Hk. apply list_elem_of_In. simpl. tauto.
    + intros <-. apply Hk. apply list_elem_of_In. simpl. tauto.
Qed.

Lemma sanitize_edge_sanitized v e :
  FlowEdgeSchemaInternal v = Ok e → sanitized_edge (sanitize_edge e).
Proof.
  intros (m & i & s & t & -> & Hi & Hine & Hs & Hsne & Ht & Htne & Hdef)%edge_schema_Ok.
  unfold sanitize_edge. rewrite !deepClone_id. simpl.
  rewrite Hi, Hs, Ht. simpl.
  eexists _, i, s, t, _, _. split; [done|].
  rewrite lookup_insert_ne, lookup_insert_ne, lookup_insert_ne, lookup_insert_ne,
    lookup_insert_eq by done.
  rewrite lookup_insert_ne, lookup_insert_ne, lookup_insert_ne, lookup_insert_eq by done.
  rewrite lookup_insert_ne, lookup_insert_ne, lookup_insert_eq by done.
  rewrite lookup_insert_ne, lookup_insert_eq by done.
  rewrite lookup_insert_eq.
  repeat (split; [done|]).
  split; [apply normalizeHandle_handle_ok|]. split; [done|].
  split; [apply normalizeHandle_handle_ok|].
  intros k.
  destruct (decide (k = "targetHandle")) as [->|Hk1]; [by right|].
  rewrite lookup_insert_ne by done.
  destruct (decide (k = "sourceHandle")) as [->|Hk2]; [by left|].
  rewrite lookup_insert_ne by done.
  destruct (decide (k = "target")) as [->|Hk3]; [by rewrite lookup_insert_eq|].
  rewrite lookup_insert_ne by done.
  destruct (decide (k = "source")) as [->|Hk4]; [by rewrite lookup_insert_eq|].
  rewrite lookup_insert_ne by done.
  destruct (decide (k = "id")) as [->|Hk5]; [by rewrite lookup_insert_eq|].
  rewrite lookup_insert_ne by done.
  intros Hu. by destruct (Hdef k (not_in_edge_shape k Hk5 Hk4 Hk3 Hk2 Hk1)).
Qed.

Lemma handle_ok_schema h : handle_ok h → z_handle h = Ok h.
Proof. by intros [->|[->|[s ->]]]. Qed.

Lemma sanitized_edge_fixed e :
  sanitized_edge e →
  FlowEdgeSchemaInternal e = Ok e ∧ sanitize_edge e = e.
Proof.
  intros (m & i & s & t & sh & th & -> & Hi & Hine & Hs & Hsne & Ht & Htne &
          Hsh & Hshok & Hth & Hthok & Hdef).
  split.
  - unfold FlowEdgeSchemaInternal.
    rewrite (field_lookup _ _ _ Hi), (field_lookup _ _ _ Hs),
      (field_lookup _ _ _ Ht), (field_lookup _ _ _ Hsh), (field_lookup _ _ _ Hth).
    rewrite !z_string_min1_fixed, !ret_bind by done.
    rewrite !handle_ok_schema, !ret_bind by done.
    do 2 f_equal. apply map_eq. intros k.
    destruct (decide (k = "targetHandle")) as [->|Hk1];
      [by rewrite (lookup_put_present _ _ _ _ _ Hth)|].
    rewrite lookup_put_ne by done.
    destruct (decide (k = "sourceHandle")) as [->|Hk2];
      [by rewrite (lookup_put_present _ _ _ _ _ Hsh)|].
    rewrite lookup_put_ne by done.
    destruct (decide (k = "target")) as [->|Hk3];
      [by rewrite (lookup_put_present _ _ _ _ _ Ht)|].
    rewrite lookup_put_ne by done.
    destruct (decide (k = "source")) as [->|Hk4];
      [by rewrite (lookup_put_present _ _ _ _ _ Hs)|].
    rewrite lookup_put_ne by done.
    destruct (decide (k = "id")) as [->|Hk5];
      [by rewrite (lookup_put_present _ _ _ _ _ Hi)|].
    rewrite lookup_put_ne by done.
    apply lookup_passthrough; [by apply not_in_edge_shape|].
    intros Hu. by destruct (Hdef k Hu).
  - unfold sanitize_edge. rewrite !deepClone_id. simpl.
    rewrite Hi, Hs, Ht, Hsh, Hth. simpl.
    rewrite !normalizeHandle_ok by done. f_equal.
    rewrite (insert_id m "id") by done.
    rewrite (insert_id m "source") by done.
    rewrite (insert_id m "target") by done.
    rewrite (insert_id m "sourceHandle") by done.
    by rewrite (insert_id m "targetHandle").
Qed.

Lemma array_schema_Ok f v l :
  z_array_default f v = Ok l → Forall (λ y, ∃ x, f x = Ok y) l.
Proof.
  destruct v as [| | | | |xs ps|]; try done; simpl.
  - intros [= <-]. constructor.
  - intros H%parse_all_Ok. induction H; constructor; eauto.
Qed.

Lemma definition_schema_Ok raw nodes edges :
  FlowDefinitionSchema raw = Ok (nodes, edges) →
  Forall (λ n, ∃ v, FlowNodeSchemaInternal v = Ok n) nodes ∧
  Forall (λ e, ∃ v, FlowEdgeSchemaInternal v = Ok e) edges.
Proof.
  unfold FlowDefinitionSchema.
  destruct (match raw with VUndef => _ | _ => raw end) as [| | | | | |m]; try done.
  intros (ns & Hns & H)%bind_Ok. apply bind_Ok in H as (es & Hes & [= <- <-]).
  split; by eapply array_schema_Ok.
Qed.

Lemma definition_schema_fixed nodes edges :
  Forall sanitized_node nodes → Forall sanitized_edge edges →
  FlowDefinitionSchema (flow_definition nodes edges) = Ok (nodes, edges).
Proof.
  intros Hn He. unfold FlowDefinitionSchema, flow_definition. cbn [obj foldl fst snd].
  change (field _ "nodes") with (VArr nodes).
  change (field _ "edges") with (VArr edges).
  cbn [z_array_default].
  rewrite (parse_all_fixed FlowNodeSchemaInternal nodes).
  2:{ eapply Forall_impl; [exact Hn|]. intros n H. by apply sanitized_node_fixed. }
  rewrite ret_bind.
  rewrite (parse_all_fixed FlowEdgeSchemaInternal edges).
  2:{ eapply Forall_impl; [exact He|]. intros e H. by apply sanitized_edge_fixed. }
  done.
Qed.

Lemma fmap_fixed (f : value → value) (l : list value) :
  Forall (λ x, f x = x) l → f <$> l = l.
Proof. induction 1 as [|x l Hx _ IH]; csimpl; [done|]. by f_equal. Qed.

Lemma all_space_trim s :
  Forall (λ c, is_space c = true) (chars s) → trim s = "".
Proof.
  intros H. unfold trim, trim_chars.
  assert (drop_while is_space (chars s) = []) as ->.
  { induction H as [|c l Hc _ IH]; simpl; [done|]. by rewrite Hc. }
  done.
Qed.

(** [v] when it is an array, seen as the list of its elements. *)
Definition items (v : value) : list value :=
  match v with VArray l _ => l | _ => [] end.

(** The coordinate stored for an input coordinate: the number it converts
    to when that number is finite, and 0 otherwise. *)
Definition coordinate_or_zero (v : value) : Z :=
  match Number v with NFin z => z | _ => 0 end.

Lemma ensureCoordinate_optional v :
  isObjectLike v = false →
  ensureCoordinate (coordinate_optional v) = NFin (coordinate_or_zero v).
Proof.
  unfold coordinate_or_zero, coordinate_optional, coordinateSchema, ensureCoordinate.
  destruct v as [| |b|n|t|l p|m]; try done; intros _;
    try (by destruct (Number _) as [z| |]).
Qed.

Lemma lookup_put_self k v (m out : gmap string value) :
  out !! k = None → default VUndef (put k v m out !! k) = v.
Proof.
  intros Hout. unfold put.
  destruct (m !! k), v; rewrite ?lookup_insert_eq, ?Hout; done.
Qed.

Lemma lookup_passthrough_shape shape (m : gmap string value) k :
  k ∈ shape → passthrough shape m !! k = None.
Proof.
  intros Hk. unfold passthrough. rewrite map_lookup_filter.
  destruct (m !! k) as [v|]; simpl; [|done].
  rewrite option_guard_False; [done|]. simpl.
  rewrite bool_decide_eq_true_2 by done. simpl. by intros [].
Qed.

(** The position of a sanitized node, from the position of the node given
    to the schema. *)
Lemma sanitize_node_position v n :
  FlowNodeSchemaInternal v = Ok n →
  prop (sanitize_node n) "position"
  = obj [("x", VNum (ensureCoordinate
                       (coordinate_optional (prop (prop v "position") "x"))));
         ("y", VNum (ensureCoordinate
                       (coordinate_optional (prop (prop v "position") "y"))))].
Proof.
  intros H. destruct v as [| | | | | |m0]; try done. simpl in H.
  apply bind_Ok in H as (i & Hid & H).
  apply bind_Ok in H as (ty & Hty & H).
  apply bind_Ok in H as (pos & Hpos & [= <-]).
  unfold sanitize_node. rewrite !deepClone_id.
  cbn [prop]. rewrite lookup_insert_eq. cbn [from_option id].
  rewrite lookup_put_ne by done.
  rewrite lookup_put_self.
  2:{ rewrite !lookup_put_ne by done. apply lookup_passthrough_shape.
      apply list_elem_of_In. simpl. tauto. }
  unfold z_position, field in Hpos.
  destruct (m0 !! "position") as [[| | | | | |pm]|];
    simpl in Hpos; simplify_eq; try done.
  cbn [from_option id isPlainObject prop].
  rewrite lookup_put_ne by done.
  rewrite lookup_put_self by done.
  rewrite lookup_put_self; [done|]. by rewrite lookup_put_ne.
Qed.

(** C6: sanitization is idempotent on every input it accepts; every node
    of its output has one of the twelve node types, a position made of two
    finite numbers and an object [data]; and the node at each place of the
    input gives the node at the same place of the output, each coordinate of
    which is the number that the input coordinate converts to when that
    number is finite, and 0 otherwise: without a position, without the
    coordinate, for [NaN], an infinity or a text that is not a number.  (An
    input coordinate that is an object or an array is left aside.) *)
Theorem sanitizeFlowDefinition_idempotent (x y : value) :
  sanitizeFlowDefinition x = Ok y →
  sanitizeFlowDefinition y = Ok y ∧
  (∃ nodes edges,
     y = flow_definition nodes edges ∧
     Forall sanitized_node nodes ∧ Forall sanitized_edge edges) ∧
  (∀ raw k n,
     parseFlowInput x = Ok raw → items (prop raw "nodes") !! k = Some n →
     ∃ n' px py,
       items (prop y "nodes") !! k = Some n' ∧
       prop n' "position" = position_of px py ∧
       (isObjectLike (prop (prop n "position") "x") = false →
        px = coordinate_or_zero (prop (prop n "position") "x")) ∧
       (isObjectLike (prop (prop n "position") "y") = false →
        py = coordinate_or_zero (prop (prop n "position") "y"))).
Proof.
  unfold sanitizeFlowDefinition.
  intros (raw & Hraw & H)%bind_Ok.
  apply bind_Ok in H as ([pn pe] & Hparsed & [= <-]). simpl.
  pose proof Hparsed as Hschema.
  apply definition_schema_Ok in Hparsed as [Hpn Hpe].
  assert (Forall sanitized_node (sanitize_node <$> pn)) as Hn.
  { apply Forall_fmap. eapply Forall_impl; [exact Hpn|].
    intros n [v Hv]. by eapply sanitize_node_sanitized. }
  assert (Forall sanitized_edge (sanitize_edge <$> pe)) as He.
  { apply Forall_fmap. eapply Forall_impl; [exact Hpe|].
    intros e [v Hv]. by eapply sanitize_edge_sanitized. }
  split; [|split; [eauto|]].
  - change (coalesce (flow_definition (sanitize_node <$> pn) (sanitize_edge <$> pe)) (obj []))
      with (flow_definition (sanitize_node <$> pn) (sanitize_edge <$> pe)).
    rewrite definition_schema_fixed, ret_bind by done. cbn [fst snd].
    rewrite (fmap_fixed sanitize_node), (fmap_fixed sanitize_edge); [done| |].
    + eapply Forall_impl; [exact He|]. intros e H. by apply sanitized_edge_fixed.
    + eapply Forall_impl; [exact Hn|]. intros n H. by apply sanitized_node_fixed.
  - intros raw' k n Hraw' Hk. rewrite Hraw in Hraw'. injection Hraw' as <-.
    change (prop (flow_definition (sanitize_node <$> pn) (sanitize_edge <$> pe)) "nodes")
      with (VArr (sanitize_node <$> pn)).
    cbn [items].
    assert (Forall2 (λ a b, FlowNodeSchemaInternal a = Ok b) (items (prop raw "nodes")) pn)
      as Hall.
    { unfold FlowDefinitionSchema in Hschema.
      destruct raw as [| | | | | |m]; try done.
      apply bind_Ok in Hschema as (ns & Hns & H).
      apply bind_Ok in H as (es & Hes & [= -> ->]).
      change (prop (VObj m) "nodes") with (field m "nodes").
      destruct (field m "nodes") as [| | | | |l p|]; try done; simpl in *.
      - injection Hns as <-. constructor.
      - by apply parse_all_Ok. }
    destruct (Forall2_lookup_l _ _ _ _ _ Hall Hk) as (n1 & Hn1 & Hnode).
    destruct (ensureCoordinate_finite
                (coordinate_optional (prop (prop n "position") "x"))) as [px Hpx].
    destruct (ensureCoordinate_finite
                (coordinate_optional (prop (prop n "position") "y"))) as [py Hpy].
    exists (sanitize_node n1), px, py.
    split.
    { rewrite lookup_insert_ne by done. rewrite lookup_insert_eq.
      cbn [from_option id items]. by rewrite list_lookup_fmap, Hn1. }
    split; [by rewrite (sanitize_node_position _ _ Hnode), Hpx, Hpy|].
    split; intros Hprim; apply ensureCoordinate_optional in Hprim; congruence.
Qed.

(** A node without a usable [position] is placed at the origin. *)
Lemma sanitize_node_default_position node :
  isPlainObject (prop node "position") = false →
  prop (sanitize_node node) "position" = position_of 0 0.
Proof.
  intros Hp. unfold sanitize_node. rewrite !deepClone_id, Hp.
  cbn [prop]. by rewrite lookup_insert_eq.
Qed.

(** C10: a string input that is empty or made of white space only yields
    the empty definition; a string whose trimmed form is not valid JSON makes
    the sanitizer throw [FlowSanitizationError] with the message
    "Flow definition string must be valid JSON.". *)
Theorem sanitizeFlowDefinition_string_input (s : string) :
  (Forall (λ c, is_space c = true) (chars s) →
     sanitizeFlowDefinition (VStr s) = Ok emptyFlowDefinition) ∧
  (trim s ≠ "" → JSON_parse (trim s) = None →
     sanitizeFlowDefinition (VStr s)
     = Err (FlowSanitizationError "Flow definition string must be valid JSON.")).
Proof.
  split.
  - intros Hs%all_space_trim. unfold sanitizeFlowDefinition, parseFlowInput.
    rewrite Hs. reflexivity.
  - intros Hne Hparse. unfold sanitizeFlowDefinition, parseFlowInput.
    rewrite bool_decide_eq_false_2 by done. by rewrite Hparse.
Qed.

(** *** Which definitions are accepted, and what is kept of them *)

(** A node the schema accepts: an object with a non-empty string [id], a
    [type] among the twelve node types and a [position] that is absent or an
    object. *)
Definition valid_node_input (n : value) : Prop :=
  ∃ m i t, n = VObj m ∧ field m "id" = VStr i ∧ i ≠ "" ∧
           field m "type" = VStr t ∧ t ∈ flowNodeTypes ∧
           (field m "position" = VUndef ∨ ∃ p, field m "position" = VObj p).

(** An edge the schema accepts: an object with non-empty strings [id],
    [source] and [target] and handles that are absent, [null] or strings. *)
Definition valid_edge_input (e : value) : Prop :=
  ∃ m i s t, e = VObj m ∧ field m "id" = VStr i ∧ i ≠ "" ∧
             field m "source" = VStr s ∧ s ≠ "" ∧
             field m "target" = VStr t ∧ t ≠ "" ∧
             handle_ok (field m "sourceHandle") ∧ handle_ok (field m "targetHandle").

(** A list field the schema accepts: absent, or an array of accepted
    elements. *)
Definition valid_list_input (valid : value → Prop) (v : value) : Prop :=
  v = VUndef ∨ ∃ l p, v = VArray l p ∧ Forall valid l.

Lemma z_position_Ok v :
  (∃ p, z_position v = Ok p) ↔ v = VUndef ∨ ∃ m, v = VObj m.
Proof.
  destruct v as [| | | | | |m]; simpl; split; eauto;
    try (by intros [p [=]]); try (by intros [[=]|[m [=]]]).
Qed.

Lemma node_schema_valid v :
  (∃ n, FlowNodeSchemaInternal v = Ok n) ↔ valid_node_input v.
Proof.
  split.
  - intros [n H]. destruct v as [| | | | | |m]; try done. simpl in H.
    apply bind_Ok in H as (id & Hid & H).
    apply bind_Ok in H as (ty & Hty & H).
    apply bind_Ok in H as (pos & Hpos & _).
    apply z_string_min1_Ok in Hid as (_ & i & Hi & Hne).
    apply z_node_type_Ok in Hty as (_ & t & Ht & Hin).
    exists m, i, t. repeat (split; [done|]). apply z_position_Ok. by exists pos.
  - intros (m & i & t & -> & Hi & Hne & Ht & Hin & Hpos).
    apply z_position_Ok in Hpos as [pos Hpos]. simpl.
    rewrite Hi, Ht, Hpos. rewrite z_string_min1_fixed, ret_bind by done.
    rewrite z_node_type_fixed, ret_bind by done. rewrite ret_bind. by eexists.
Qed.

Lemma z_handle_valid v : (∃ h, z_handle v = Ok h) ↔ handle_ok v.
Proof.
  split.
  - intros [h H]. by apply z_handle_Ok in H as [_ H].
  - intros H. exists v. by apply handle_ok_schema.
Qed.

Lemma edge_schema_valid v :
  (∃ e, FlowEdgeSchemaInternal v = Ok e) ↔ valid_edge_input v.
Proof.
  split.
  - intros [e H]. destruct v as [| | | | | |m]; try done. simpl in H.
    apply bind_Ok in H as (id & Hid & H).
    apply bind_Ok in H as (so & Hso & H).
    apply bind_Ok in H as (ta & Hta & H).
    apply bind_Ok in H as (sh & Hsh & H).
    apply bind_Ok in H as (th & Hth & _).
    apply z_string_min1_Ok in Hid as (_ & i & Hi & Hine).
    apply z_string_min1_Ok in Hso as (_ & s & Hs & Hsne).
    apply z_string_min1_Ok in Hta as (_ & t & Ht & Htne).
    apply z_handle_Ok in Hsh as (_ & Hsh). apply z_handle_Ok in Hth as (_ & Hth).
    by exists m, i, s, t.
  - intros (m & i & s & t & -> & Hi & Hine & Hs & Hsne & Ht & Htne & Hsh & Hth).
    simpl. rewrite Hi, Hs, Ht.
    rewrite !z_string_min1_fixed, !ret_bind by done.
    rewrite !handle_ok_schema, !ret_bind by done. by eexists.
Qed.

Lemma parse_all_valid f l :
  (∃ l', parse_all f l = Ok l') ↔ Forall (λ x, ∃ y, f x = Ok y) l.
Proof.
  split.
  - intros [l' H%parse_all_Ok]. induction H; constructor; eauto.
  - induction 1 as [|x l [y Hy] _ [ys IH]]; simpl; [by eexists|].
    rewrite Hy, ret_bind, IH, ret_bind. by eexists.
Qed.

Lemma array_schema_valid f (valid : value → Prop) v :
  (∀ x, (∃ y, f x = Ok y) ↔ valid x) →
  (∃ l, z_array_default f v = Ok l) ↔ valid_list_input valid v.
Proof.
  intros Hf. unfold valid_list_input.
  destruct v as [| | | | |l p|]; simpl;
    try (split; [by intros [? [=]]|by intros [[=]|(? & ? & [=] & _)]]).
  - split; [by left|by eexists].
  - rewrite parse_all_valid. split.
    + intros H. right. exists l, p. split; [done|].
      eapply Forall_impl; [exact H|]. intros x. apply Hf.
    + intros [[=]|(l' & p' & [= <- <-] & H)].
      eapply Forall_impl; [exact H|]. intros x. apply Hf.
Qed.

Lemma schema_errors_are_zod {A} (r : result A) e :
  (r = Err e → e = ZodError) → ∀ {B} (k : A → result B),
  (∀ a e', k a = Err e' → e' = ZodError) → r ≫= k = Err e → e = ZodError.
Proof. intros Hr B k Hk. destruct r as [a|e0]; simpl; [apply Hk|]. intros [= <-]. by apply Hr. Qed.

Lemma z_string_min1_Err v e : z_string_min1 v = Err e → e = ZodError.
Proof. destruct v; simpl; try (by intros [= <-]). case_bool_decide; by intros [=]. Qed.

Lemma z_node_type_Err v e : z_node_type v = Err e → e = ZodError.
Proof. destruct v; simpl; try (by intros [= <-]). case_bool_decide; by intros [=]. Qed.

Lemma z_handle_Err v e : z_handle v = Err e → e = ZodError.
Proof. destruct v; simpl; by intros [=]. Qed.

Lemma z_position_Err v e : z_position v = Err e → e = ZodError.
Proof. destruct v; simpl; by intros [=]. Qed.

Lemma node_schema_Err v e : FlowNodeSchemaInternal v = Err e → e = ZodError.
Proof.
  destruct v as [| | | | | |m]; simpl; try (by intros [= <-]).
  apply schema_errors_are_zod; [apply z_string_min1_Err|]. intros id e'.
  apply schema_errors_are_zod; [apply z_node_type_Err|]. intros ty e''.
  apply schema_errors_are_zod; [apply z_position_Err|]. by intros pos e3.
Qed.

Lemma edge_schema_Err v e : FlowEdgeSchemaInternal v = Err e → e = ZodError.
Proof.
  destruct v as [| | | | | |m]; simpl; try (by intros [= <-]).
  apply schema_errors_are_zod; [apply z_string_min1_Err|]. intros id e1.
  apply schema_errors_are_zod; [apply z_string_min1_Err|]. intros so e2.
  apply schema_errors_are_zod; [apply z_string_min1_Err|]. intros ta e3.
  apply schema_errors_are_zod; [apply z_handle_Err|]. intros sh e4.
  apply schema_errors_are_zod; [apply z_handle_Err|]. by intros th e5.
Qed.

Lemma parse_all_Err f l e :
  (∀ x e', f x = Err e' → e' = ZodError) → parse_all f l = Err e → e = ZodError.
Proof.
  intros Hf. revert e. induction l as [|x l IH]; intros e; simpl; [done|].
  apply schema_errors_are_zod; [apply Hf|]. intros y e'.
  apply schema_errors_are_zod; [apply IH|]. by intros ys e''.
Qed.

Lemma array_schema_Err f v e :
  (∀ x e', f x = Err e' → e' = ZodError) → z_array_default f v = Err e → e = ZodError.
Proof.
  intros Hf. destruct v; simpl; try (by intros [= <-]). by apply parse_all_Err.
Qed.

(** X15: an object is accepted exactly when its [nodes] and its [edges] are each
    absent or an array of well-formed elements; an object that is not
    accepted is refused with a validation error, by the first element that
    is not well formed. *)
Theorem sanitizeFlowDefinition_accepts (m : gmap string value) :
  ((∃ y, sanitizeFlowDefinition (VObj m) = Ok y) ↔
   valid_list_input valid_node_input (field m "nodes") ∧
   valid_list_input valid_edge_input (field m "edges")) ∧
  (∀ e, sanitizeFlowDefinition (VObj m) = Err e → e = ZodError).
Proof.
  unfold sanitizeFlowDefinition, parseFlowInput.
  change (coalesce (VObj m) (obj [])) with (VObj m). rewrite ret_bind.
  unfold FlowDefinitionSchema.
  pose proof (array_schema_valid FlowNodeSchemaInternal valid_node_input
                (field m "nodes") node_schema_valid) as Hn.
  pose proof (array_schema_valid FlowEdgeSchemaInternal valid_edge_input
                (field m "edges") edge_schema_valid) as He.
  split.
  - rewrite <- Hn, <- He. split.
    + intros [y H]. apply bind_Ok in H as ([pn pe] & H & _).
      apply bind_Ok in H as (ns & Hns & H). apply bind_Ok in H as (es & Hes & _).
      split; by eexists.
    + intros [[ns Hns] [es Hes]]. rewrite Hns, ret_bind, Hes, !ret_bind. by eexists.
  - intros e.
    apply schema_errors_are_zod; [|by intros parsed e'].
    apply schema_errors_are_zod; [apply array_schema_Err, node_schema_Err|].
    intros ns e'.
    apply schema_errors_are_zod; [apply array_schema_Err, edge_schema_Err|].
    by intros es e''.
Qed.

Lemma node_schema_keeps v n :
  FlowNodeSchemaInternal v = Ok n →
  ∃ i t, prop v "id" = VStr i ∧ prop n "id" = VStr i ∧
         prop v "type" = VStr t ∧ prop n "type" = VStr t.
Proof.
  intros H. destruct v as [| | | | | |m0]; try done. simpl in H.
  apply bind_Ok in H as (id & Hid & H).
  apply bind_Ok in H as (ty & Hty & H).
  apply bind_Ok in H as (pos & Hpos & [= <-]).
  apply z_string_min1_Ok in Hid as (-> & i & Hi & _).
  apply z_node_type_Ok in Hty as (-> & t & Ht & _).
  assert (m0 !! "id" = Some (VStr i)) as Hi0 by (by apply field_Some).
  assert (m0 !! "type" = Some (VStr t)) as Ht0 by (by apply field_Some).
  exists i, t. cbn [prop]. rewrite Hi0, Ht0. split; [done|]. split; [|split; [done|]].
  - rewrite !lookup_put_ne by done. by rewrite (lookup_put_present _ _ _ _ _ Hi0), Hi.
  - rewrite !lookup_put_ne by done. by rewrite (lookup_put_present _ _ _ _ _ Ht0), Ht.
Qed.

Lemma sanitize_node_keeps n i t :
  prop n "id" = VStr i → prop n "type" = VStr t →
  prop (sanitize_node n) "id" = VStr i ∧ prop (sanitize_node n) "type" = VStr t.
Proof.
  intros Hi Ht. unfold sanitize_node. rewrite !deepClone_id, Hi, Ht. cbn [prop js_String].
  rewrite lookup_insert_ne, lookup_insert_ne, lookup_insert_ne, lookup_insert_eq by done.
  rewrite lookup_insert_ne, lookup_insert_ne, lookup_insert_eq by done. done.
Qed.

(** X16: the sanitizer neither drops nor adds nor reorders nodes: the nodes of
    the result are as many as those of the input, and each keeps the [id]
    and the [type] of the input node at the same position. *)
Theorem sanitizeFlowDefinition_keeps_nodes (m : gmap string value) (y : value) :
  sanitizeFlowDefinition (VObj m) = Ok y →
  length (items (prop y "nodes")) = length (items (field m "nodes")) ∧
  ∀ k n, items (field m "nodes") !! k = Some n →
    ∃ n', items (prop y "nodes") !! k = Some n' ∧
          prop n' "id" = prop n "id" ∧ prop n' "type" = prop n "type".
Proof.
  unfold sanitizeFlowDefinition, parseFlowInput.
  change (coalesce (VObj m) (obj [])) with (VObj m). rewrite ret_bind.
  intros ([pn pe] & H & [= <-])%bind_Ok. unfold FlowDefinitionSchema in H.
  apply bind_Ok in H as (ns & Hns & H). apply bind_Ok in H as (es & Hes & [= -> ->]).
  cbn [fst snd].
  change (prop (flow_definition (sanitize_node <$> pn) (sanitize_edge <$> pe)) "nodes")
    with (VArr (sanitize_node <$> pn)).
  cbn [items].
  assert (Forall2 (λ x y, FlowNodeSchemaInternal x = Ok y) (items (field m "nodes")) pn)
    as Hall.
  { destruct (field m "nodes") as [| | | | |l p|]; try done; simpl in *.
    - injection Hns as <-. constructor.
    - by apply parse_all_Ok. }
  split.
  - rewrite length_fmap. symmetry. by eapply Forall2_length.
  - intros k n Hk.
    destruct (Forall2_lookup_l _ _ _ _ _ Hall Hk) as (n1 & Hn1 & Hschema).
    exists (sanitize_node n1). split; [by rewrite list_lookup_fmap, Hn1|].
    destruct (node_schema_keeps _ _ Hschema) as (i & t & Hi & Hi1 & Ht & Ht1).
    destruct (sanitize_node_keeps n1 i t Hi1 Ht1) as [-> ->]. by rewrite Hi, Ht.
Qed.


End Sanitizer.

(** *** Examples *)

(** A [JSON.parse] that accepts nothing and a number conversion that
    recognises nothing are enough for object inputs. *)
Definition no_json (s : string) : option value := None.
Definition no_number (s : string) : num := NNaN.

Definition sample_definition : value :=
  obj [("nodes",
        VArr [obj [("id", VStr "n1"); ("type", VStr "trigger");
                   ("data", obj [("keyword", VStr "hola")]);
                   ("position", obj [("x", VNum (NFin 12)); ("y", VStr "oops")]);
                   ("selected", VBool true)];
              obj [("id", VStr "n2"); ("type", VStr "end")]]);
       ("edges",
        VArr [obj [("id", VStr "e1"); ("source", VStr "n1"); ("target", VStr "n2")]]);
       ("viewport", VNull)].

Definition sample_sanitized : value :=
  flow_definition
    [obj [("id", VStr "n1"); ("type", VStr "trigger");
          ("data", obj [("keyword", VStr "hola")]);
          ("position", position_of 12 0);
          ("selected", VBool true)];
     obj [("id", VStr "n2"); ("type", VStr "end");
          ("data", obj []); ("position", position_of 0 0)]]
    [obj [("id", VStr "e1"); ("source", VStr "n1"); ("target", VStr "n2");
          ("sourceHandle", VUndef); ("targetHandle", VUndef)]].

Example sanitize_sample :
  sanitizeFlowDefinition no_json no_number sample_definition = Ok sample_sanitized.
Proof. vm_compute. reflexivity. Qed.

Lemma sanitizeFlowDefinition_accepts_witness :
  valid_list_input valid_node_input (prop sample_definition "nodes") ∧
  valid_list_input valid_edge_input (prop sample_definition "edges").
Proof.
  exact (proj1 (proj1 (sanitizeFlowDefinition_accepts no_json no_number _))
           (ex_intro _ sample_sanitized sanitize_sample)).
Defined.

Lemma sanitizeFlowDefinition_keeps_nodes_witness :
  length (items (prop sample_sanitized "nodes"))
  = length (items (prop sample_definition "nodes")).
Proof.
  exact (proj1 (sanitizeFlowDefinition_keeps_nodes no_json no_number _ sample_sanitized
                  sanitize_sample)).
Defined.

(** A definition with a node of an unknown type is refused as a whole. *)
Example sanitize_unknown_type :
  sanitizeFlowDefinition no_json no_number
    (obj [("nodes", VArr [obj [("id", VStr "n1"); ("type", VStr "trigger")];
                          obj [("id", VStr "n2"); ("type", VStr "webhook")]])])
  = Err ZodError.
Proof. vm_compute. reflexivity. Qed.


(** The sample holds a node whose [y] is a text and a node without a
    position: the first keeps its [x] and has [y] set to 0, the second is
    placed at the origin. *)
Lemma sanitizeFlowDefinition_idempotent_witness :
  sanitizeFlowDefinition no_json no_number sample_sanitized = Ok sample_sanitized ∧
  ∃ n1 n2,
    items (prop sample_sanitized "nodes") = [n1; n2] ∧
    prop n1 "position" = position_of 12 0 ∧
    prop n2 "position" = position_of 0 0.
Proof.
  destruct (sanitizeFlowDefinition_idempotent no_json no_number
              sample_definition sample_sanitized sanitize_sample) as (Hidem & _ & Hpos).
  split; [exact Hidem|].
  destruct (Hpos sample_definition 0%nat _ eq_refl eq_refl)
    as (n1 & x1 & y1 & Hn1 & Hp1 & Hx1 & Hy1).
  destruct (Hpos sample_definition 1%nat _ eq_refl eq_refl)
    as (n2 & x2 & y2 & Hn2 & Hp2 & Hx2 & Hy2).
  exists n1, n2.
  injection Hn1 as <-. injection Hn2 as <-.
  split; [reflexivity|].
  rewrite Hp1, Hp2, (Hx1 eq_refl), (Hy1 eq_refl), (Hx2 eq_refl), (Hy2 eq_refl).
  split; reflexivity.
Defined.

Lemma sanitizeFlowDefinition_string_input_witness :
  sanitizeFlowDefinition no_json no_number (VStr "  ") = Ok emptyFlowDefinition ∧
  sanitizeFlowDefinition no_json no_number (VStr " {nodes ")
  = Err (FlowSanitizationError "Flow definition string must be valid JSON.").
Proof.
  split.
  - apply (proj1 (sanitizeFlowDefinition_string_input no_json no_number "  ")).
    repeat constructor.
  - apply (proj2 (sanitizeFlowDefinition_string_input no_json no_number " {nodes ")).
    + vm_compute. discriminate.
    + reflexivity.
Defined.

End FlowSchema.

(* ===================================================================== *)
(** * The flow executor ([src/lib/flow-executor.ts])                      *)
(* ===================================================================== *)

Module Executor.

(** ** Paths into the context: [getFromPath] *)

(** [s.split(sep)] for a one-character separator. *)
Fixpoint split_on (sep : ascii) (l : list ascii) : list (list ascii) :=
  match l with
  | [] => [[]]
  | c :: l' =>
      if bool_decide (c = sep) then [] :: split_on sep l'
      else
        match split_on sep l' with
        | h :: t => (c :: h) :: t
        | [] => [[c]]
        end
  end.

Definition split_dot (path : string) : list string :=
  str <$> split_on "."%char (chars path).

(** The reducer of [getFromPath], on own properties; [read_key] below also
    follows the properties that the prototypes supply. *)
Definition path_step (acc : value) (key : string) : value :=
  if nullish acc || negb (isObjectLike acc) then VUndef else prop acc key.

Definition getFromPath (o : value) (path : string) : value :=
  foldl path_step o (split_dot path).

(** ** Template interpolation: [tpl] *)

(** The class [[\w.[\]0-9]] of the placeholder pattern. *)
Definition is_key_char (c : ascii) : bool :=
  is_word c || bool_decide (c = "."%char) || bool_decide (c = "["%char) ||
  bool_decide (c = "]"%char).

(** An attempt to match [\{\{\s*([\w.[\]0-9]+)\s*\}\}] at the head of [l]:
    the captured key and the length of the match.  The three repetitions
    range over disjoint classes, none of which contains the closing brace, so
    that the greedy match is the only one. *)
Definition match_placeholder (l : list ascii) : option (list ascii * nat) :=
  match l with
  | "{"%char :: "{"%char :: r =>
      let ws1 := take_while is_space r in
      let r1 := drop_while is_space r in
      let key := take_while is_key_char r1 in
      let r2 := drop_while is_key_char r1 in
      match key with
      | [] => None
      | _ :: _ =>
          let ws2 := take_while is_space r2 in
          match drop_while is_space r2 with
          | "}"%char :: "}"%char :: _ =>
              Some (key, (2 + length ws1 + length key + length ws2 + 2)%nat)
          | _ => None
          end
      end
  | _ => None
  end.

(** [s.replace(pattern, replacer)] with the global flag: the string is
    scanned from left to right; at a position where the pattern matches, the
    replacement is emitted and the scan resumes after the match ([skip]
    counts the characters of the match still to pass); elsewhere the
    character is copied. *)
Fixpoint tpl_go (replacer : string → string) (skip : nat) (l : list ascii)
    : list ascii :=
  match l with
  | [] => []
  | c :: l' =>
      match skip with
      | S k => tpl_go replacer k l'
      | O =>
          match match_placeholder l with
          | Some (key, len) =>
              chars (replacer (str key)) ++ tpl_go replacer (len - 1) l'
          | None => c :: tpl_go replacer 0 l'
          end
      end
  end.

(** [getFromPath({ context }, key) ?? getFromPath(context, key)] *)
Definition lookup_key (context : gmap string value) (key : string) : value :=
  coalesce (getFromPath (obj [("context", VObj context)]) key)
           (getFromPath (VObj context) key).

(** The replacer of [tpl]: [v == null ? "" : String(v)], on values that
    [js_String] prints as [String] does; [replacement] below has the
    conversions that throw. *)
Definition render (context : gmap string value) (key : string) : string :=
  let v := lookup_key context key in
  if nullish v then "" else js_String v.

Definition tpl (context : gmap string value) (s : string) : string :=
  str (tpl_go (render context) 0 (chars s)).

(** [tpl(v)] for a value that should be a string or absent: [None] stands
    for the [TypeError] of calling [replace] on a value without it. *)
Definition tpl_value (context : gmap string value) (v : value) : option string :=
  match v with
  | VUndef | VNull => Some (tpl context "")
  | VStr s => Some (tpl context s)
  | _ => None
  end.

(** *** The scan, stated on its input *)

Definition all_space (s : string) : Prop :=
  Forall (λ c, is_space c = true) (chars s).

Definition is_path (path : string) : Prop :=
  path ≠ "" ∧ Forall (λ c, is_key_char c = true) (chars path).

Definition placeholder (ws1 path ws2 : string) : string :=
  "{{" +:+ ws1 +:+ path +:+ ws2 +:+ "}}".

Definition starts_with_placeholder (s : string) : Prop :=
  ∃ ws1 path ws2 rest,
    all_space ws1 ∧ is_path path ∧ all_space ws2 ∧
    s = placeholder ws1 path ws2 +:+ rest.

Lemma take_drop_while_stop {A} (p : A → bool) (a b : list A) :
  Forall (λ x, p x = true) a →
  (b = [] ∨ ∃ c b', b = c :: b' ∧ p c = false) →
  take_while p (a ++ b) = a ∧ drop_while p (a ++ b) = b.
Proof.
  intros Ha Hb. induction Ha as [|x a Hx _ IH]; simpl.
  - destruct Hb as [->|(c & b' & -> & Hc)]; simpl; [done|]. by rewrite Hc.
  - rewrite Hx. destruct IH as [-> ->]. done.
Qed.

Lemma take_while_Forall {A} (p : A → bool) (l : list A) :
  Forall (λ x, p x = true) (take_while p l).
Proof.
  induction l as [|x l IH]; simpl; [constructor|].
  destruct (p x) eqn:E; by constructor.
Qed.

Lemma space_not_key c : is_space c = true → is_key_char c = false.
Proof. destruct c as [[] [] [] [] [] [] [] []]; vm_compute; congruence. Qed.

Lemma key_not_space c : is_key_char c = true → is_space c = false.
Proof. destruct c as [[] [] [] [] [] [] [] []]; vm_compute; congruence. Qed.

Lemma match_placeholder_complete ws1 path ws2 rest :
  Forall (λ c, is_space c = true) ws1 →
  path ≠ [] → Forall (λ c, is_key_char c = true) path →
  Forall (λ c, is_space c = true) ws2 →
  match_placeholder (chars "{{" ++ ws1 ++ path ++ ws2 ++ chars "}}" ++ rest)
  = Some (path, (2 + length ws1 + length path + length ws2 + 2)%nat).
Proof.
  intros Hws1 Hne Hpath Hws2. cbn [chars String.list_ascii_of_string app].
  unfold match_placeholder.
  destruct path as [|k path]; [done|]. inversion Hpath as [|? ? Hk Hpath']; subst.
  destruct (take_drop_while_stop is_space ws1
              ((k :: path) ++ ws2 ++ "}"%char :: "}"%char :: rest) Hws1) as [-> ->].
  { right. eexists _, _. split; [done|]. by apply key_not_space. }
  destruct (take_drop_while_stop is_key_char (k :: path)
              (ws2 ++ "}"%char :: "}"%char :: rest) Hpath) as [-> ->].
  { destruct Hws2 as [|w ws2 Hw _]; right; eexists _, _.
    - split; [done|]. reflexivity.
    - split; [done|]. by apply space_not_key. }
  destruct (take_drop_while_stop is_space ws2 ("}"%char :: "}"%char :: rest) Hws2)
    as [-> ->].
  { right. eexists _, _. split; [done|]. reflexivity. }
  done.
Qed.

Lemma match_placeholder_sound l key n :
  match_placeholder l = Some (key, n) →
  ∃ ws1 ws2 rest,
    l = chars "{{" ++ ws1 ++ key ++ ws2 ++ chars "}}" ++ rest ∧
    Forall (λ c, is_space c = true) ws1 ∧
    key ≠ [] ∧ Forall (λ c, is_key_char c = true) key ∧
    Forall (λ c, is_space c = true) ws2 ∧
    n = (2 + length ws1 + length key + length ws2 + 2)%nat.
Proof.
  unfold match_placeholder.
  destruct l as [|c1 [|c2 r]]; try done.
  { by repeat case_match. }
  repeat (case_match; try done); subst.
  intros [= <- <-].
  match goal with
  | H : drop_while is_space ?r2 = _ :: _ :: ?rest |- _ =>
      exists (take_while is_space r), (take_while is_space r2), rest;
      rename H into Hr3
  end.
  match goal with
  | H : take_while is_key_char _ = _ :: _ |- _ => rename H into Hkey
  end.
  split.
  - rewrite <- Hkey.
    change (chars "}}" ++ l1) with ("}"%char :: "}"%char :: l1).
    rewrite <- Hr3. by rewrite !take_drop_while.
  - split; [apply take_while_Forall|]. split; [done|].
    split; [rewrite <- Hkey; apply take_while_Forall|].
    split; [apply take_while_Forall|]. simpl. lia.
Qed.

Lemma tpl_go_skip replacer pre rest :
  tpl_go replacer (length pre) (pre ++ rest) = tpl_go replacer 0 rest.
Proof. induction pre as [|c pre IH]; simpl; [by destruct rest|done]. Qed.

Lemma chars_placeholder ws1 path ws2 rest :
  chars (placeholder ws1 path ws2 +:+ rest)
  = chars "{{" ++ chars ws1 ++ chars path ++ chars ws2 ++ chars "}}" ++ chars rest.
Proof.
  unfold placeholder. rewrite !chars_app. by rewrite <- !app_assoc.
Qed.

Lemma chars_nonempty s : s ≠ "" → chars s ≠ [].
Proof. by destruct s. Qed.

Lemma tpl_go_match replacer c l key len :
  match_placeholder (c :: l) = Some (key, len) →
  tpl_go replacer 0 (c :: l)
  = chars (replacer (str key)) ++ tpl_go replacer (len - 1) l.
Proof. intros H. cbn [tpl_go]. by rewrite H. Qed.

Lemma tpl_placeholder context ws1 path ws2 rest :
  all_space ws1 → is_path path → all_space ws2 →
  tpl context (placeholder ws1 path ws2 +:+ rest)
  = render context path +:+ tpl context rest.
Proof.
  intros Hws1 [Hne Hpath] Hws2. unfold tpl.
  rewrite chars_placeholder.
  pose proof (match_placeholder_complete (chars ws1) (chars path) (chars ws2)
                (chars rest) Hws1 (chars_nonempty _ Hne) Hpath Hws2) as Hm.
  set (inner := "{"%char :: chars ws1 ++ chars path ++ chars ws2 ++ chars "}}").
  assert (chars "{{" ++ chars ws1 ++ chars path ++ chars ws2 ++ chars "}}" ++ chars rest
          = "{"%char :: (inner ++ chars rest)) as Heq.
  { subst inner. cbn [chars String.list_ascii_of_string app].
    by rewrite <- !app_assoc. }
  rewrite Heq in *. rewrite (tpl_go_match _ _ _ _ _ Hm).
  assert ((2 + length (chars ws1) + length (chars path) + length (chars ws2) + 2 - 1)%nat
          = length inner) as ->.
  { subst inner. cbn [length]. rewrite !length_app. simpl. lia. }
  by rewrite tpl_go_skip, str_app, !str_chars.
Qed.

Lemma match_placeholder_starts c s key n :
  match_placeholder (chars (String c s)) = Some (key, n) →
  starts_with_placeholder (String c s).
Proof.
  intros (ws1 & ws2 & rest & Hl & Hws1 & Hne & Hkey & Hws2 & _)%match_placeholder_sound.
  exists (str ws1), (str key), (str ws2), (str rest).
  unfold all_space, is_path. rewrite !chars_str.
  split; [done|]. split; [|split; [done|]].
  - split; [|done]. intros Hk. apply Hne. by apply Meta.str_eq_empty.
  - rewrite <- (str_chars (String c s)), Hl.
    rewrite <- (str_chars (placeholder _ _ _ +:+ _)), chars_placeholder.
    by rewrite !chars_str.
Qed.

Lemma tpl_literal context c s :
  ¬ starts_with_placeholder (String c s) →
  tpl context (String c s) = String c (tpl context s).
Proof.
  intros Hno. unfold tpl.
  destruct (match_placeholder (chars (String c s))) as [[key n]|] eqn:Hm.
  - by apply match_placeholder_starts in Hm.
  - change (chars (String c s)) with (c :: chars s) in *.
    cbn [tpl_go]. by rewrite Hm.
Qed.

(** *** Paths *)

Lemma split_on_nonempty sep l : split_on sep l ≠ [].
Proof. induction l as [|c l IH]; simpl; [done|]. by repeat case_match. Qed.

Lemma split_on_segment sep k rest :
  sep ∉ k → split_on sep (k ++ sep :: rest) = k :: split_on sep rest.
Proof.
  induction k as [|c k IH]; intros Hk; simpl.
  - by rewrite bool_decide_eq_true_2.
  - apply not_elem_of_cons in Hk as [Hc Hk].
    rewrite bool_decide_eq_false_2 by done. by rewrite IH.
Qed.

Lemma split_on_single sep k : sep ∉ k → split_on sep k = [k].
Proof.
  induction k as [|c k IH]; intros Hk; simpl; [done|].
  apply not_elem_of_cons in Hk as [Hc Hk].
  rewrite bool_decide_eq_false_2 by done. by rewrite IH.
Qed.

Lemma getFromPath_segment v key rest :
  "."%char ∉ chars key →
  getFromPath v (key +:+ "." +:+ rest) = getFromPath (path_step v key) rest.
Proof.
  intros Hk. unfold getFromPath, split_dot.
  rewrite !chars_app. change (chars "." ++ chars rest) with ("."%char :: chars rest).
  rewrite split_on_segment by done. csimpl. by rewrite str_chars.
Qed.

Lemma getFromPath_single v key :
  "."%char ∉ chars key → getFromPath v key = path_step v key.
Proof.
  intros Hk. unfold getFromPath, split_dot.
  rewrite split_on_single by done. csimpl. by rewrite str_chars.
Qed.

Lemma foldl_path_step_undefined keys : foldl path_step VUndef keys = VUndef.
Proof. induction keys as [|k keys IH]; simpl; [done|]. exact IH. Qed.

Lemma lookup_key_context_prefix context path :
  lookup_key context ("context." +:+ path)
  = coalesce (getFromPath (VObj context) path)
             (getFromPath (VObj context) ("context." +:+ path)).
Proof.
  unfold lookup_key. by f_equal.
Qed.

Lemma lookup_key_plain context path :
  head (split_dot path) ≠ Some "context" →
  lookup_key context path = getFromPath (VObj context) path.
Proof.
  intros Hh. unfold lookup_key.
  assert (getFromPath (obj [("context", VObj context)]) path = VUndef) as ->;
    [|reflexivity].
  unfold getFromPath. destruct (split_dot path) as [|k ks] eqn:E.
  { unfold split_dot in E. apply fmap_nil_inv in E.
    by apply split_on_nonempty in E. }
  simpl in *. unfold path_step at 2. simpl.
  rewrite lookup_insert_ne by congruence. rewrite lookup_empty. simpl.
  apply foldl_path_step_undefined.
Qed.

(** The context of the specification's examples. *)
Definition sample_context : gmap string value :=
  <["lastUserMessage" := VStr "Hola"]>
  (<["apiResult" := obj [("items", VArr [obj [("name", VStr "Ana")]])]]> ∅).

Example tpl_scenario_1 :
  tpl sample_context "Hi, {{context.lastUserMessage}}!" = "Hi, Hola!".
Proof. vm_compute. reflexivity. Qed.

Example tpl_array_path :
  tpl sample_context "{{ apiResult.items.0.name }} / {{apiResult.items.1.name}}."
  = "Ana / .".
Proof. vm_compute. reflexivity. Qed.

(** ** Interpolation on any context *)

(** [path_step] and [render] above read own properties only and print every
    value.  The code reads [acc[key]], which also finds what the prototypes
    of the runtime supply (every object has a [constructor]), and prints
    with [String(v)], which throws a [TypeError] for an object or array
    carrying a property [toString] of its own.  The definitions below follow
    both; the built-in objects and functions of the runtime are parameters. *)

(** What a property read finds: a value of the data model, or one of the
    built-in objects and functions of the runtime. *)
Inductive found (exotic : Type) :=
| Data (v : value)
| Exotic (e : exotic).
Arguments Data {exotic} v.
Arguments Exotic {exotic} e.

(** [f == null] *)
Definition is_missing {exotic} (f : found exotic) : bool :=
  match f with Data v => nullish v | Exotic _ => false end.

(** The own property [key] of an object or of an array: the properties of
    an object; the elements, the [length] and the named properties of an
    array. *)
Definition own (v : value) (key : string) : option value :=
  match v with
  | VObj m => m !! key
  | VArray l props =>
      match parse_index key with
      | Some i => match l !! i with Some x => Some x | None => props !! key end
      | None =>
          if bool_decide (key = "length") then Some (VNum (NFin (Z.of_nat (length l))))
          else props !! key
      end
  | _ => None
  end.

(** The object literal [{ context }]. *)
Definition wrapper (context : gmap string value) : value :=
  obj [("context", VObj context)].

(** [l.map(f)] for a conversion [f] that may throw. *)
Fixpoint to_strings (f : value → option string) (l : list value) : option (list string) :=
  match l with
  | [] => Some []
  | x :: l' =>
      match f x with
      | Some s => match to_strings f l' with Some r => Some (s :: r) | None => None end
      | None => None
      end
  end.

(** [2^53], up to which every integer is a number of JavaScript and prints
    as its decimal digits. *)
Definition MAX_EXACT : Z := 9007199254740992.

Section Runtime.
(** The built-in objects and functions. *)
Variable exotic : Type.
(** [v[key]] for an object or an array [v] that has no own property [key]:
    [undefined], unless the prototypes supply the name. *)
Variable inherited : value → string → found exotic.
(** One round of the reducer of [getFromPath] on a built-in. *)
Variable exotic_get : exotic → string → found exotic.
(** [String(e)] for a built-in, [None] when it throws. *)
Variable exotic_String : exotic → option string.
(** [String(n)] for an integer beyond [2^53] in absolute value. *)
Variable large_number : Z → string.

(** [String(n)] *)
Definition number_to_string (n : num) : string :=
  match n with
  | NFin z => if bool_decide (Z.abs z ≤ MAX_EXACT) then pretty z else large_number z
  | NNaN => "NaN"
  | NInf false => "Infinity"
  | NInf true => "-Infinity"
  end.

(** [String(v)] on a value of the data model, [None] standing for the
    [TypeError] "Cannot convert object to primitive value".  An object or an
    array with an own [toString], which no data value can make callable, has
    no conversion; without one an object prints through
    [Object.prototype.toString], and an array through [join] (its elements
    separated by commas, [null] and [undefined] printing as nothing), or
    through [Object.prototype.toString] when it carries a [join] of its
    own. *)
Fixpoint ToString (v : value) : option string :=
  match v with
  | VUndef => Some "undefined"
  | VNull => Some "null"
  | VBool b => Some (if b then "true" else "false")
  | VNum n => Some (number_to_string n)
  | VStr s => Some s
  | VArray l props =>
      if bool_decide (is_Some (props !! "toString")) then None
      else if bool_decide (is_Some (props !! "join")) then Some "[object Array]"
      else
        match to_strings (λ x, if nullish x then Some "" else ToString x) l with
        | Some parts => Some (join_with "," parts)
        | None => None
        end
  | VObj m =>
      if bool_decide (is_Some (m !! "toString")) then None
      else Some "[object Object]"
  end.

(** The reducer of [getFromPath]: [undefined] for what is neither an object
    nor a function, [acc[key]] otherwise. *)
Definition read_key (acc : found exotic) (key : string) : found exotic :=
  match acc with
  | Data v =>
      if isObjectLike v then
        match own v key with
        | Some x => Data x
        | None => inherited v key
        end
      else Data VUndef
  | Exotic e => exotic_get e key
  end.

(** [getFromPath] *)
Definition read_path (o : found exotic) (path : string) : found exotic :=
  foldl read_key o (split_dot path).

(** [getFromPath({ context }, key) ?? getFromPath(context, key)] *)
Definition read_context (context : gmap string value) (key : string) : found exotic :=
  let first := read_path (Data (wrapper context)) key in
  if is_missing first then read_path (Data (VObj context)) key else first.

(** The replacer of [tpl]: [v == null ? "" : String(v)]. *)
Definition replacement (context : gmap string value) (key : string) : option string :=
  match read_context context key with
  | Data v => if nullish v then Some "" else ToString v
  | Exotic e => exotic_String e
  end.

(** [s.replace(pattern, replacer)] for a replacer that may throw: the scan
    of [tpl_go], given up at the first replacement that throws. *)
Fixpoint scan (replacer : string → option string) (skip : nat) (l : list ascii)
    : option (list ascii) :=
  match l with
  | [] => Some []
  | c :: l' =>
      match skip with
      | S k => scan replacer k l'
      | O =>
          match match_placeholder l with
          | Some (key, len) =>
              match replacer (str key) with
              | Some text =>
                  match scan replacer (len - 1) l' with
                  | Some out => Some (chars text ++ out)
                  | None => None
                  end
              | None => None
              end
          | None =>
              match scan replacer 0 l' with
              | Some out => Some (c :: out)
              | None => None
              end
          end
      end
  end.

(** [tpl], [None] standing for the [TypeError] of a conversion. *)
Definition interpolate (context : gmap string value) (s : string) : option string :=
  match scan (replacement context) 0 (chars s) with
  | Some out => Some (str out)
  | None => None
  end.

(** *** The words of the specification *)





(** *** The scan *)




Lemma scan_total replacer skip l :
  (∀ key, replacer key ≠ None) → is_Some (scan replacer skip l).
Proof.
  intros Hr. revert skip. induction l as [|c l IH]; intros skip; [by eexists|].
  cbn [scan]. destruct skip as [|k]; [|apply IH].
  destruct (match_placeholder (c :: l)) as [[key len]|].
  - destruct (replacer (str key)) as [text|] eqn:E; [|by apply Hr in E].
    destruct (IH (len - 1)%nat) as [out ->]. by eexists.
  - destruct (IH 0%nat) as [out ->]. by eexists.
Qed.

(** *** Paths *)









(** *** Conversions *)




(** The paths of the placeholders of a string, in the order of the scan. *)
Fixpoint placeholder_keys (skip : nat) (l : list ascii) : list string :=
  match l with
  | [] => []
  | c :: l' =>
      match skip with
      | S k => placeholder_keys k l'
      | O =>
          match match_placeholder l with
          | Some (key, len) => str key :: placeholder_keys (len - 1) l'
          | None => placeholder_keys 0 l'
          end
      end
  end.


(** *** Plain data *)

Lemma scan_tpl_go replacer plain skip l :
  (∀ key, key ∈ placeholder_keys skip l → replacer key = Some (plain key)) →
  scan replacer skip l = Some (tpl_go plain skip l).
Proof.
  revert skip. induction l as [|c l IH]; intros skip Hr; [done|].
  cbn [scan tpl_go placeholder_keys] in *. destruct skip as [|k]; [|by apply IH].
  destruct (match_placeholder (c :: l)) as [[key len]|].
  - rewrite Hr by (by left). rewrite IH; [done|]. intros k Hk. apply Hr. by right.
  - by rewrite IH.
Qed.

(** For a string each of whose placeholders is replaced as [render] does,
    on own properties and printable values, the interpolation is that of
    [tpl]. *)
Lemma interpolate_tpl context s :
  (∀ key, key ∈ placeholder_keys 0 (chars s) →
          replacement context key = Some (render context key)) →
  interpolate context s = Some (tpl context s).
Proof.
  intros Hr. unfold interpolate, tpl.
  by rewrite (scan_tpl_go _ (render context)).
Qed.


End Runtime.

(** *** A run *)

(** A fragment of the built-ins of Node: the function [Object], which every
    plain object inherits as its [constructor] and which prints as its
    source; what the fragment leaves out reads [undefined]. *)
Inductive builtin := Object_function.

Definition node_inherited (v : value) (key : string) : found builtin :=
  match v with
  | VObj _ =>
      if bool_decide (key = "constructor") then Exotic Object_function else Data VUndef
  | _ => Data VUndef
  end.

Definition node_get (e : builtin) (key : string) : found builtin :=
  if bool_decide (key = "name") then Data (VStr "Object") else Data VUndef.

Definition node_String (e : builtin) : option string :=
  Some "function Object() { [native code] }".

(** [tpl] on the fragment. *)
Definition node_tpl (context : gmap string value) (s : string) : option string :=
  interpolate builtin node_inherited node_get node_String pretty context s.


Definition customer_context : gmap string value :=
  <["edad" := VNum (NFin 31)]>
  (<["tags" := VArr [VStr "a"; VNull; VStr "b"]]>
  (<["activo" := VBool true]>
  (<["apiResult" := obj [("items", VArr [obj [("name", VStr "Ana")]])]]> ∅))).

Example node_tpl_customer :
  node_tpl customer_context
    "{{ apiResult.items.0.name }} tiene {{edad}} ({{tags}}), {{activo}}{{nada}}{{edad.x}}."
  = Some "Ana tiene 31 (a,,b), true.".
Proof. vm_compute. reflexivity. Qed.




(** ** Context bookkeeping: [pushHistory], [recordInbound], [recordOutbound] *)

(** The context bag is an object; assignments made through aliases of an
    array stored twice in it are not tracked (values are immutable here). *)

Definition HISTORY_LIMIT : nat := 50.

(** [meta.history = h] for an object or an array [meta]. *)
Definition with_history (meta h : value) : value :=
  match meta with
  | VObj m => VObj (<["history" := h]> m)
  | VArray l p => VArray l (<["history" := h]> p)
  | _ => meta
  end.

Definition ensureMeta (context : gmap string value) : gmap string value :=
  let meta := default VUndef (context !! "_meta") in
  if negb (truthy meta) || negb (isObjectLike meta) then
    <["_meta" := obj [("history", VArr [])]]> context
  else if negb (isArray (prop meta "history")) then
    <["_meta" := with_history meta (VArr [])]> context
  else context.

(** [if (a.length > HISTORY_LIMIT) a.splice(0, a.length - HISTORY_LIMIT)] *)
Definition truncate (l : list value) : list value :=
  if decide (HISTORY_LIMIT < length l)%nat then drop (length l - HISTORY_LIMIT) l
  else l.

Definition pushHistory (entry : value) (context : gmap string value)
    : gmap string value :=
  let c1 := ensureMeta context in
  let meta := default VUndef (c1 !! "_meta") in
  match prop meta "history" with
  | VArray l hp =>
      <["_meta" := with_history meta (VArray (truncate (l ++ [entry])) hp)]> c1
  | _ => c1
  end.

Definition history_entry (direction type timestamp : string) (payload : value) : value :=
  obj [("direction", VStr direction); ("type", VStr type);
       ("timestamp", VStr timestamp); ("payload", payload)].

(** [InboundPayload]; an absent optional field is [VUndef]. *)
Record InboundPayload := {
  in_text : string;
  in_type : value;
  in_raw : value;
  in_optionIndex : value;
  in_matchedOption : value;
  in_interactiveId : value;
  in_interactiveType : value;
  in_interactiveTitle : value;
  in_image : value;
  in_video : value;
  in_audio : value;
  in_document : value;
  in_sticker : value;
}.

(** [if (v !== undefined) o[k] = v] while building an object. *)
Definition defined_field (k : string) (v : value) : list (string * value) :=
  if is_undefined v then [] else [(k, v)].

(** [if (v) o[k] = v] while building an object. *)
Definition truthy_field (k : string) (v : value) : list (string * value) :=
  if truthy v then [(k, v)] else [].

(** [if (c) context[k] = v] *)
Definition set_if (c : bool) (k : string) (v : value) (m : gmap string value)
    : gmap string value :=
  if c then <[k := v]> m else m.

(** [toLc] *)
Definition toLc (s : string) : string := toLowerCase (trim s).

Definition input_entry (text ts : string) : value :=
  obj [("text", VStr text); ("timestamp", VStr ts)].

Definition recordInbound (ts : string) (payload : InboundPayload)
    (context : gmap string value) : gmap string value :=
  let text := in_text payload in
  let trimmed := trim text in
  let normalized := toLc trimmed in
  let type := js_String (coalesce (in_type payload) (VStr "text")) in
  let historyPayload :=
    obj ([("text", VStr text)] ++
         defined_field "optionIndex" (in_optionIndex payload) ++
         defined_field "matchedOption" (in_matchedOption payload) ++
         defined_field "interactiveId" (in_interactiveId payload) ++
         defined_field "interactiveType" (in_interactiveType payload) ++
         defined_field "interactiveTitle" (in_interactiveTitle payload) ++
         defined_field "image" (in_image payload) ++
         defined_field "video" (in_video payload) ++
         defined_field "audio" (in_audio payload) ++
         defined_field "document" (in_document payload) ++
         defined_field "sticker" (in_sticker payload)) in
  let c1 := pushHistory (history_entry "in" type ts historyPayload) context in
  let c2 :=
    <["lastInputNormalized" := VStr normalized]>
    (<["lastInputTrimmed" := VStr trimmed]>
    (<["lastInput" := VStr text]>
    (<["input" := VStr text]>
    (<["lastUserMessageAt" := VStr ts]>
    (<["lastUserMessageNormalized" := VStr normalized]>
    (<["lastUserMessageTrimmed" := VStr trimmed]>
    (<["lastUserMessage" := VStr text]>
    (<["lastInboundType" := VStr type]>
    (<["lastInboundAt" := VStr ts]>
    (<["lastInteractionAt" := VStr ts]> c1)))))))))) in
  let c3 :=
    set_if (negb (is_undefined (in_interactiveTitle payload)))
           "lastInteractiveTitle" (in_interactiveTitle payload)
    (set_if (negb (is_undefined (in_interactiveType payload)))
            "lastInteractiveType" (in_interactiveType payload)
    (set_if (negb (is_undefined (in_interactiveId payload)))
            "lastInteractiveId" (in_interactiveId payload)
    (set_if (negb (is_undefined (in_raw payload)))
            "lastUserMessageRaw" (in_raw payload) c2))) in
  let mediaPayload :=
    truthy_field "image" (in_image payload) ++
    truthy_field "video" (in_video payload) ++
    truthy_field "audio" (in_audio payload) ++
    truthy_field "document" (in_document payload) ++
    truthy_field "sticker" (in_sticker payload) in
  let c4 :=
    <["lastUserMedia" := match mediaPayload with
                         | [] => VNull
                         | _ => obj mediaPayload
                         end]> c3 in
  let c5 :=
    if negb (is_undefined (in_optionIndex payload)) then
      <["lastSelectedOptionIndex" := in_optionIndex payload]> c4
    else
      set_if (match in_matchedOption payload with VNull => true | _ => false end)
             "lastSelectedOptionIndex" VNull c4 in
  let c6 :=
    if negb (is_undefined (in_matchedOption payload)) then
      <["lastOptionMatched" := VBool (negb (nullish (in_matchedOption payload)))]>
      (<["lastSelectedOption" := in_matchedOption payload]> c5)
    else c5 in
  let previousInputs :=
    match c6 !! "inputHistory" with
    | Some (VArray l _) => l
    | _ => []
    end in
  let c7 :=
    <["inputHistory" := VArr (truncate (previousInputs ++ [input_entry text ts]))]> c6 in
  let count :=
    match c7 !! "messageCount" with
    | Some (VNum (NFin z)) => z
    | _ => 0
    end in
  <["messageCount" := VNum (NFin (count + 1))]> c7.

Definition recordOutbound (ts : string) (type : string)
    (payload : gmap string value) (context : gmap string value)
    : gmap string value :=
  let textValue := default VUndef (payload !! "text") in
  let textString := js_String textValue in
  let c1 := set_if (negb (is_undefined textValue)) "lastBotMessage" (VStr textString)
                   context in
  let optionsValue := default VUndef (payload !! "options") in
  let normalizedOptions :=
    match optionsValue with
    | VArray l _ => VArr ((λ opt, VStr (js_String opt)) <$> l)
    | _ => VArr []
    end in
  let h_options :=
    if isArray optionsValue then [("options", normalizedOptions)]
    else defined_field "options" optionsValue in
  let c2 :=
    if isArray optionsValue then
      set_if (bool_decide (type = "options")) "lastBotOptions" normalizedOptions c1
    else if negb (is_undefined optionsValue) then c1
    else set_if (bool_decide (type = "options")) "lastBotOptions" (VArr []) c1 in
  let mediaTypeValue := default VUndef (payload !! "mediaType") in
  let urlValue := default VUndef (payload !! "url") in
  let captionValue := default VUndef (payload !! "caption") in
  let flowBody := default VUndef (payload !! "body") in
  let is_flow := bool_decide (type = "flow") in
  let c3 :=
    set_if (is_flow &&
            match flowBody with
            | VStr b => negb (bool_decide (trim b = ""))
            | _ => false
            end) "lastBotMessage" flowBody c2 in
  let is_template := bool_decide (type = "template") in
  let template := default VUndef (payload !! "template") in
  let templateName :=
    match opt_prop template "name" with
    | VStr n => VStr n
    | _ => VNull
    end in
  let c4 :=
    set_if (is_template && truthy template && truthy templateName)
           "lastBotMessage" templateName c3 in
  let historyPayload :=
    obj ((if is_undefined textValue then [] else [("text", VStr textString)]) ++
         h_options ++
         defined_field "mediaType" mediaTypeValue ++
         defined_field "url" urlValue ++
         defined_field "caption" captionValue ++
         (if is_flow then [("flow", VObj payload)] else []) ++
         (if is_template then
            truthy_field "template" template ++
            truthy_field "parameters" (default VUndef (payload !! "parameters")) ++
            truthy_field "components" (default VUndef (payload !! "components"))
          else [])) in
  let c5 := pushHistory (history_entry "out" type ts historyPayload) c4 in
  let c6 :=
    <["lastBotMessageType" := VStr type]>
    (<["lastBotMessageAt" := VStr ts]>
    (<["lastOutboundAt" := VStr ts]>
    (<["lastInteractionAt" := VStr ts]> c5))) in
  if bool_decide (type = "media") then
    <["lastBotMedia" :=
        obj ((if isString mediaTypeValue then [("mediaType", mediaTypeValue)] else []) ++
             (if isString urlValue then [("url", urlValue)] else []) ++
             (if isString captionValue then [("caption", captionValue)] else []))]> c6
  else c6.

(** The two lists the claim is about, as the code reads them. *)
Definition history_of (context : gmap string value) : list value :=
  match prop (default VUndef (context !! "_meta")) "history" with
  | VArray l _ => l
  | _ => []
  end.

Definition input_history_of (context : gmap string value) : list value :=
  match context !! "inputHistory" with
  | Some (VArray l _) => l
  | _ => []
  end.

(** *** The history lists stay within the limit *)

Lemma truncate_length l : (length (truncate l) ≤ HISTORY_LIMIT)%nat.
Proof.
  unfold truncate. case_decide as H; [|lia].
  rewrite length_drop. lia.
Qed.

Lemma truncate_suffix l : ∃ dropped, l = dropped ++ truncate l.
Proof.
  unfold truncate. case_decide.
  - exists (take (length l - HISTORY_LIMIT) l). by rewrite take_drop.
  - by exists [].
Qed.

Lemma truncate_id l : (length l ≤ HISTORY_LIMIT)%nat → truncate l = l.
Proof. intros H. unfold truncate. case_decide; [lia|done]. Qed.

Lemma history_of_insert_ne k v (c : gmap string value) :
  k ≠ "_meta" → history_of (<[k := v]> c) = history_of c.
Proof. intros Hk. unfold history_of. by rewrite lookup_insert_ne. Qed.

Lemma history_of_set_if b k v (c : gmap string value) :
  k ≠ "_meta" → history_of (set_if b k v c) = history_of c.
Proof. intros Hk. destruct b; simpl; [by apply history_of_insert_ne|done]. Qed.

Lemma input_history_of_insert_ne k v (c : gmap string value) :
  k ≠ "inputHistory" → input_history_of (<[k := v]> c) = input_history_of c.
Proof. intros Hk. unfold input_history_of. by rewrite lookup_insert_ne. Qed.

Lemma input_history_of_set_if b k v (c : gmap string value) :
  k ≠ "inputHistory" → input_history_of (set_if b k v c) = input_history_of c.
Proof. intros Hk. destruct b; simpl; [by apply input_history_of_insert_ne|done]. Qed.

Lemma prop_with_history meta h :
  isObjectLike meta = true → prop (with_history meta h) "history" = h.
Proof.
  destruct meta; try done; intros _; simpl; by rewrite lookup_insert_eq.
Qed.

(** After [ensureMeta] the context holds an object-like [_meta] whose
    [history] is an array with the elements the code would have read. *)
Lemma ensureMeta_spec (c : gmap string value) :
  ∃ meta hp,
    ensureMeta c !! "_meta" = Some meta ∧ isObjectLike meta = true ∧
    prop meta "history" = VArray (history_of c) hp ∧
    (∀ k, k ≠ "_meta" → ensureMeta c !! k = c !! k).
Proof.
  unfold ensureMeta, history_of.
  destruct (negb (truthy (default VUndef (c !! "_meta"))) ||
            negb (isObjectLike (default VUndef (c !! "_meta")))) eqn:E.
  - exists (obj [("history", VArr [])]), ∅.
    rewrite lookup_insert_eq. split; [done|]. split; [done|]. split.
    + apply orb_prop in E as [E|E].
      * destruct (default VUndef (c !! "_meta")) as [| |b|n|t|l p|m]; try done.
      * destruct (default VUndef (c !! "_meta")) as [| |b|n|t|l p|m]; try done.
    + intros k Hk. by rewrite lookup_insert_ne.
  - apply orb_false_elim in E as [_ E]. apply negb_false_iff in E.
    destruct (isArray (prop (default VUndef (c !! "_meta")) "history")) eqn:Ea; simpl.
    + destruct (c !! "_meta") as [meta|] eqn:Em; [|done]. simpl in *.
      destruct (prop meta "history") as [| | | | |l hp|] eqn:Eh; try done.
      by exists meta, hp.
    + exists (with_history (default VUndef (c !! "_meta")) (VArr [])), ∅.
      rewrite lookup_insert_eq. split; [done|]. split.
      { by destruct (default VUndef (c !! "_meta")). }
      split.
      * rewrite prop_with_history by done.
        by destruct (prop (default VUndef (c !! "_meta")) "history").
      * intros k Hk. by rewrite lookup_insert_ne.
Qed.

Lemma pushHistory_other entry (c : gmap string value) k :
  k ≠ "_meta" → pushHistory entry c !! k = c !! k.
Proof.
  intros Hk. unfold pushHistory.
  destruct (ensureMeta_spec c) as (meta & hp & Hm & _ & Hh & Hother).
  rewrite Hm. simpl. rewrite Hh. rewrite lookup_insert_ne by done. by apply Hother.
Qed.

(** Pushing an entry keeps the newest [HISTORY_LIMIT] entries: the oldest
    are dropped. *)
Lemma history_of_pushHistory entry (c : gmap string value) :
  history_of (pushHistory entry c) = truncate (history_of c ++ [entry]).
Proof.
  unfold pushHistory.
  destruct (ensureMeta_spec c) as (meta & hp & Hm & Hobj & Hh & _).
  rewrite Hm. simpl. rewrite Hh.
  unfold history_of at 1. rewrite lookup_insert_eq. simpl.
  by rewrite prop_with_history.
Qed.

Lemma input_history_of_pushHistory entry (c : gmap string value) :
  input_history_of (pushHistory entry c) = input_history_of c.
Proof. unfold input_history_of. by rewrite pushHistory_other. Qed.

Lemma history_of_recordInbound ts payload (c : gmap string value) :
  ∃ entry, history_of (recordInbound ts payload c) = truncate (history_of c ++ [entry]).
Proof.
  eexists. unfold recordInbound. cbv zeta.
  rewrite history_of_insert_ne by done.
  rewrite history_of_insert_ne by done.
  repeat first
    [ rewrite history_of_insert_ne by done
    | rewrite history_of_set_if by done
    | match goal with
      | |- history_of (if ?b then _ else _) = _ => destruct b
      end ].
  all: apply history_of_pushHistory.
Qed.

Lemma input_history_of_recordInbound ts payload (c : gmap string value) :
  input_history_of (recordInbound ts payload c)
  = truncate (input_history_of c ++ [input_entry (in_text payload) ts]).
Proof.
  unfold recordInbound. cbv zeta.
  rewrite input_history_of_insert_ne by done.
  unfold input_history_of at 1. rewrite lookup_insert_eq. do 2 f_equal.
  match goal with
  | |- match ?m !! "inputHistory" with _ => _ end = _ =>
      change (match m !! "inputHistory" with
              | Some (VArray l _) => l
              | _ => []
              end) with (input_history_of m)
  end.
  repeat first
    [ rewrite input_history_of_insert_ne by done
    | rewrite input_history_of_set_if by done
    | match goal with
      | |- input_history_of (if ?b then _ else _) = _ => destruct b
      end ].
  all: apply input_history_of_pushHistory.
Qed.

Lemma history_of_recordOutbound ts type payload (c : gmap string value) :
  ∃ entry,
    history_of (recordOutbound ts type payload c) = truncate (history_of c ++ [entry]).
Proof.
  eexists. unfold recordOutbound. cbv zeta.
  match goal with
  | |- history_of (if ?b then _ else _) = _ =>
      assert (∀ x y, history_of (if b then <["lastBotMedia" := x]> y else y)
                     = history_of y) as ->
        by (intros; destruct b; [by apply history_of_insert_ne|done])
  end.
  rewrite !history_of_insert_ne by done.
  rewrite history_of_pushHistory. do 2 f_equal.
  rewrite !history_of_set_if by done.
  repeat match goal with
         | |- history_of (if ?b then _ else _) = _ => destruct b
         end;
    by rewrite ?history_of_set_if by done.
Qed.

Lemma input_history_of_recordOutbound ts type payload (c : gmap string value) :
  input_history_of (recordOutbound ts type payload c) = input_history_of c.
Proof.
  unfold recordOutbound. cbv zeta.
  match goal with
  | |- input_history_of (if ?b then _ else _) = _ =>
      assert (∀ x y, input_history_of (if b then <["lastBotMedia" := x]> y else y)
                     = input_history_of y) as ->
        by (intros; destruct b; [by apply input_history_of_insert_ne|done])
  end.
  rewrite !input_history_of_insert_ne by done.
  rewrite input_history_of_pushHistory.
  rewrite !input_history_of_set_if by done.
  repeat match goal with
         | |- input_history_of (if ?b then _ else _) = _ => destruct b
         end;
    by rewrite ?input_history_of_set_if by done.
Qed.

(** The recording operations of the executor. *)
Inductive RecordOp :=
| OpInbound (ts : string) (payload : InboundPayload)
| OpOutbound (ts : string) (type : string) (payload : gmap string value).

Definition run_op (op : RecordOp) (c : gmap string value) : gmap string value :=
  match op with
  | OpInbound ts payload => recordInbound ts payload c
  | OpOutbound ts type payload => recordOutbound ts type payload c
  end.

Definition run_ops (ops : list RecordOp) (c : gmap string value)
    : gmap string value :=
  foldl (λ c op, run_op op c) c ops.

Definition within_limit (c : gmap string value) : Prop :=
  (length (history_of c) ≤ HISTORY_LIMIT)%nat ∧
  (length (input_history_of c) ≤ HISTORY_LIMIT)%nat.

Lemma truncate_drop l : truncate l = drop (length l - HISTORY_LIMIT) l.
Proof.
  unfold truncate. case_decide as H; [done|].
  by replace (length l - HISTORY_LIMIT)%nat with 0%nat by lia.
Qed.

Lemma run_op_within_limit op c : within_limit c → within_limit (run_op op c).
Proof.
  intros [Hh Hi]. destruct op as [ts payload|ts type payload]; simpl; split.
  - destruct (history_of_recordInbound ts payload c) as [e ->]. apply truncate_length.
  - rewrite input_history_of_recordInbound. apply truncate_length.
  - destruct (history_of_recordOutbound ts type payload c) as [e ->].
    apply truncate_length.
  - by rewrite input_history_of_recordOutbound.
Qed.

Lemma run_ops_within_limit ops c : within_limit c → within_limit (run_ops ops c).
Proof.
  revert c. induction ops as [|op ops IH]; intros c Hc; simpl; [done|].
  by apply IH, run_op_within_limit.
Qed.

Lemma recordInbound_within_limit ts payload c :
  within_limit (recordInbound ts payload c).
Proof.
  split.
  - destruct (history_of_recordInbound ts payload c) as [e ->]. apply truncate_length.
  - rewrite input_history_of_recordInbound. apply truncate_length.
Qed.

Lemma within_limit_empty : within_limit ∅.
Proof.
  split; unfold history_of, input_history_of; rewrite lookup_empty; simpl; lia.
Qed.

(** C8: a context within the limit of 50 entries stays within it under any
    sequence of recording operations, the empty context of a new session is
    within it, and so is every context after the inbound recording that
    opens an invocation, whatever the stored context held.  Each operation
    appends its entry to [_meta.history] and each inbound recording appends
    to [inputHistory]; when this makes 51 entries the oldest one is dropped. *)
Theorem history_within_limit :
  (∀ ops c, within_limit c → within_limit (run_ops ops c)) ∧
  within_limit ∅ ∧
  (∀ ts payload ops c, within_limit (run_ops ops (recordInbound ts payload c))) ∧
  (∀ op c, ∃ entry,
     history_of (run_op op c)
     = drop (length (history_of c ++ [entry]) - HISTORY_LIMIT)
            (history_of c ++ [entry])) ∧
  (∀ ts payload c,
     input_history_of (recordInbound ts payload c)
     = drop (length (input_history_of c ++ [input_entry (in_text payload) ts])
             - HISTORY_LIMIT)
            (input_history_of c ++ [input_entry (in_text payload) ts])) ∧
  (∀ ts type payload c,
     input_history_of (recordOutbound ts type payload c) = input_history_of c).
Proof.
  split; [apply run_ops_within_limit|].
  split; [apply within_limit_empty|].
  split; [intros; apply run_ops_within_limit, recordInbound_within_limit|].
  split; [|split].
  - intros [ts payload|ts type payload] c; simpl.
    + destruct (history_of_recordInbound ts payload c) as [e ->].
      exists e. apply truncate_drop.
    + destruct (history_of_recordOutbound ts type payload c) as [e ->].
      exists e. apply truncate_drop.
  - intros. rewrite input_history_of_recordInbound. apply truncate_drop.
  - apply input_history_of_recordOutbound.
Qed.

Definition text_inbound (text : string) : InboundPayload :=
  {| in_text := text; in_type := VStr "text"; in_raw := VStr text;
     in_optionIndex := VUndef; in_matchedOption := VUndef;
     in_interactiveId := VNull; in_interactiveType := VNull;
     in_interactiveTitle := VNull; in_image := VNull; in_video := VNull;
     in_audio := VNull; in_document := VNull; in_sticker := VNull |}.

(** Sixty inbound messages followed by a reply. *)
Definition sixty_messages : list RecordOp :=
  replicate 60 (OpInbound "2026-01-01T00:00:00.000Z" (text_inbound "hola")) ++
  [OpOutbound "2026-01-01T00:00:01.000Z" "text" {[ "text" := VStr "chau" ]}].

Example sixty_messages_history :
  length (history_of (run_ops sixty_messages ∅)) = 50%nat ∧
  length (input_history_of (run_ops sixty_messages ∅)) = 50%nat.
Proof. vm_compute. done. Qed.

Lemma history_within_limit_witness :
  within_limit (run_ops sixty_messages ∅).
Proof.
  apply (proj1 history_within_limit sixty_messages ∅).
  split; unfold history_of, input_history_of; rewrite lookup_empty; simpl; lia.
Defined.

(** ** Condition expressions: [safeEvalBool] *)

Definition unsafe_words : list string :=
  ["process"; "global"; "window"; "document"; "require"; "import"].

Definition unsafe_char (c : ascii) : bool :=
  bool_decide (c = ";"%char) || bool_decide (c = "{"%char) ||
  bool_decide (c = "}"%char).

(** A word character, for the assertion [\b]; the ends of the string count
    as non-word. *)
Definition word_opt (c : option ascii) : bool :=
  match c with Some c => is_word c | None => false end.

(** Does [/[;{}]|process|global|window|document|require|import|\beval\b/]
    match at the head of [l], the character before it being [prev]? *)
Definition unsafe_at (prev : option ascii) (l : list ascii) : bool :=
  match l with c :: _ => unsafe_char c | [] => false end ||
  existsb (λ w, starts_with (chars w) l) unsafe_words ||
  (starts_with (chars "eval") l && negb (word_opt prev) &&
   negb (word_opt (head (drop 4 l)))).

(** [pattern.test(expr)]: a match at some position. *)
Fixpoint unsafe_scan (prev : option ascii) (l : list ascii) : bool :=
  unsafe_at prev l ||
  match l with
  | [] => false
  | c :: l' => unsafe_scan (Some c) l'
  end.

Definition unsafe_expression (expr : string) : bool :=
  unsafe_scan None (chars expr).

Inductive EvalResult :=
| EvalValue (b : bool)
| EvalThrow (message : string).

(** [safeEvalBool]; [js_eval expr ctx] is the truth value of
    [new Function("context", `return !!(${expr})`)(ctx)], or [None] when
    building or calling that function throws. *)
Definition safeEvalBool (js_eval : string → gmap string value → option bool)
    (expr : string) (ctx : gmap string value) : EvalResult :=
  if unsafe_expression expr then EvalThrow "Unsafe expression"
  else
    match js_eval expr ctx with
    | Some b => EvalValue b
    | None => EvalThrow "evaluation failed"
    end.

(** [try { res = safeEvalBool(expr, { ...context }) } catch { res = false }] *)
Definition condition_result (js_eval : string → gmap string value → option bool)
    (expr : string) (context : gmap string value) : bool :=
  match safeEvalBool js_eval expr context with
  | EvalValue b => b
  | EvalThrow _ => false
  end.

(** *** Expressions with a forbidden token are rejected *)

Definition forbidden_tokens : list string :=
  [";"; "{"; "}"; "process"; "global"; "window"; "document"; "require"; "import"].

Definition contains_token (expr : string) : Prop :=
  ∃ tok pre post, tok ∈ forbidden_tokens ∧ expr = pre +:+ tok +:+ post.

(** The identifier [eval]: the four letters with no word character next to
    them. *)
Definition contains_eval (expr : string) : Prop :=
  ∃ pre post,
    expr = pre +:+ "eval" +:+ post ∧
    word_opt (last (chars pre)) = false ∧
    word_opt (head (chars post)) = false.

Lemma unsafe_scan_at prev pre l :
  unsafe_at (from_option Some prev (last pre)) l = true →
  unsafe_scan prev (pre ++ l) = true.
Proof.
  revert prev. induction pre as [|c pre IH]; intros prev H.
  - change (unsafe_at prev l = true) in H.
    destruct l; cbn [app unsafe_scan]; by rewrite H.
  - cbn [app unsafe_scan]. apply orb_true_intro. right. apply IH.
    destruct pre as [|c' pre']; [exact H|]. rewrite last_cons_cons in H.
    destruct (last (c' :: pre')) eqn:E; [exact H|].
    by apply last_None in E.
Qed.

Lemma unsafe_word_at tok post :
  tok ∈ unsafe_words →
  existsb (λ w, starts_with (chars w) (chars tok ++ post)) unsafe_words = true.
Proof.
  intros H. apply existsb_exists. exists tok.
  split; [by apply list_elem_of_In|apply starts_with_app].
Qed.

Lemma unsafe_at_token tok prev post :
  tok ∈ forbidden_tokens → unsafe_at prev (chars tok ++ post) = true.
Proof.
  unfold forbidden_tokens. intros H.
  apply elem_of_cons in H as [->|H]; [reflexivity|].
  apply elem_of_cons in H as [->|H]; [reflexivity|].
  apply elem_of_cons in H as [->|H]; [reflexivity|].
  unfold unsafe_at. rewrite (unsafe_word_at tok post H).
  by rewrite orb_true_r.
Qed.

Lemma contains_token_unsafe expr : contains_token expr → unsafe_expression expr = true.
Proof.
  intros (tok & pre & post & Htok & ->). unfold unsafe_expression.
  rewrite !chars_app. apply unsafe_scan_at. by apply unsafe_at_token.
Qed.

Lemma unsafe_at_eval prev post :
  word_opt prev = false → word_opt (head post) = false →
  unsafe_at prev (chars "eval" ++ post) = true.
Proof.
  intros Hprev Hpost. unfold unsafe_at.
  rewrite starts_with_app, Hprev.
  change (drop 4 (chars "eval" ++ post)) with post. rewrite Hpost.
  by rewrite orb_true_r.
Qed.

Lemma contains_eval_unsafe expr : contains_eval expr → unsafe_expression expr = true.
Proof.
  intros (pre & post & -> & Hpre & Hpost). unfold unsafe_expression.
  rewrite !chars_app. apply unsafe_scan_at. apply unsafe_at_eval; [|done].
  by destruct (last (chars pre)).
Qed.

(** ** The graph *)

Record FlowNode := {
  node_id : string;
  node_type : string;
  node_data : value;
}.

Record FlowEdge := {
  edge_source : string;
  edge_target : string;
  edge_sourceHandle : value;
}.

Record Flow := { nodes : list FlowNode; edges : list FlowEdge }.

(** [flow.nodes.map((node) => ({ ...node, data: node.data ?? {} }))], read
    off a sanitized definition. *)
Definition node_of (n : value) : FlowNode :=
  {| node_id := string_of (prop n "id");
     node_type := string_of (prop n "type");
     node_data := coalesce (prop n "data") (obj []) |}.

Definition edge_of (e : value) : FlowEdge :=
  {| edge_source := string_of (prop e "source");
     edge_target := string_of (prop e "target");
     edge_sourceHandle := prop e "sourceHandle" |}.

Definition elements (v : value) : list value :=
  match v with VArray l _ => l | _ => [] end.

Definition flow_of (definition : value) : Flow :=
  {| nodes := node_of <$> elements (prop definition "nodes");
     edges := edge_of <$> elements (prop definition "edges") |}.

(** [new Map(nodes.map((n) => [n.id, n]))]: a later node replaces an
    earlier one with the same id. *)
Definition nodeById (f : Flow) : gmap string FlowNode :=
  foldl (λ m n, <[node_id n := n]> m) ∅ (nodes f).

(** [outgoingBySource.get(sourceId) ?? []] *)
Definition outgoing (f : Flow) (sourceId : string) : list FlowEdge :=
  List.filter (λ e, negb (bool_decide (edge_source e = "")) &&
                    negb (bool_decide (edge_target e = "")) &&
                    bool_decide (edge_source e = sourceId)) (edges f).

Definition chooseFirstEdge (f : Flow) (sourceId : string) : option FlowEdge :=
  head (outgoing f sourceId).

Definition edgeForOption (f : Flow) (sourceId handleId : string) : option FlowEdge :=
  List.find (λ e, is_str (edge_sourceHandle e) handleId) (outgoing f sourceId).

Definition edgeForCondition (f : Flow) (sourceId : string) (res : bool)
    : option FlowEdge :=
  edgeForOption f sourceId (if res then "true" else "false").

(** ** [setByPath] *)

(** [None] stands for a thrown error; nothing has been assigned then. *)
Fixpoint set_parts (s2n : string → num) (cur : value) (parts : list string)
    (val : value) : option value :=
  match parts with
  | [] => Some cur
  | [k] => assign s2n cur k val
  | k :: rest =>
      let next := prop cur k in
      inner ← set_parts s2n (if isObjectLike next then next else obj []) rest val;
      assign s2n cur k inner
  end.

Definition setByPath (s2n : string → num) (context : gmap string value)
    (path : string) (val : value) : option (gmap string value) :=
  match set_parts s2n (VObj context) (split_dot path) val with
  | Some (VObj c) => Some c
  | _ => None
  end.

(** ** The interpreter state *)

(** What the executor needs of the session row and its relations. *)
Record SessionInfo := {
  session_status : string;
  session_currentNodeId : option string;
  flow_userId : string;
  flow_name : string;
  metaFlowId : option string;
  metaFlowToken : option string;
  metaFlowVersion : option string;
  contact_phone : string;
}.

(** The argument of [updateSession]: [None] is an omitted field. *)
Record SessionPatch := {
  patch_status : option string;
  patch_currentNodeId : option (option string);
  patch_context : option (gmap string value);
}.

(** The persisted columns of the session row. *)
Record SessionRow := {
  row_status : string;
  row_currentNodeId : option string;
  row_context : gmap string value;
}.

Definition apply_patch (p : SessionPatch) (r : SessionRow) : SessionRow :=
  {| row_status := default (row_status r) (patch_status p);
     row_currentNodeId := default (row_currentNodeId r) (patch_currentNodeId p);
     row_context := default (row_context r) (patch_context p) |}.

Inductive Exception :=
| FlowSendMessageError (message : string) (status : option Z)
| JsException (name : string)
| Rejected (reason : string).

(** What the [sendMessage] callback ends with: a result (possibly
    nullish) or a rejection. *)
Inductive SendOutcome :=
| Resolved (r : option Meta.SendMessageResult)
| RejectedWith (reason : string).

Inductive Res (A : Type) :=
| Val (a : A)
| Raise (e : Exception).
Arguments Val {A} a.
Arguments Raise {A} e.

(** ** Further properties of the helpers *)

(** *** Text without placeholders *)

Lemma match_placeholder_braces l key n :
  match_placeholder l = Some (key, n) → starts_with (chars "{{") l = true.
Proof.
  intros (ws1 & ws2 & rest & -> & _)%match_placeholder_sound.
  apply starts_with_app.
Qed.

Lemma tpl_go_plain replacer l :
  includes_chars (chars "{{") l = false → tpl_go replacer 0 l = l.
Proof.
  induction l as [|c l IH]; [done|].
  intros H. change (includes_chars (chars "{{") (c :: l))
    with (starts_with (chars "{{") (c :: l) || includes_chars (chars "{{") l) in H.
  apply orb_false_elim in H as [Hs Hl]. cbn [tpl_go].
  destruct (match_placeholder (c :: l)) as [[key n]|] eqn:Hm.
  - apply match_placeholder_braces in Hm. congruence.
  - by rewrite IH.
Qed.

(** X17: a text in which no two opening braces follow each other is left as it
    is by the interpolation, whatever the context. *)
Theorem tpl_plain_text (context : gmap string value) (s : string) :
  includes s "{{" = false → tpl context s = s.
Proof.
  intros H. unfold tpl. rewrite tpl_go_plain by exact H. apply str_chars.
Qed.

Lemma tpl_plain_text_witness :
  tpl ∅ "Hola {nombre}, total: }}" = "Hola {nombre}, total: }}".
Proof. exact (tpl_plain_text ∅ "Hola {nombre}, total: }}" eq_refl). Defined.

(** *** Writing to a path and reading it back *)

Lemma array_set_index_lookup l i x : array_set_index l i x !! i = Some x.
Proof.
  unfold array_set_index. case_decide as Hi.
  - by apply list_lookup_insert_eq.
  - rewrite lookup_app_r by lia. rewrite lookup_app_r by (rewrite length_replicate; lia).
    rewrite length_replicate.
    by replace (i - length l - (i - length l))%nat with 0%nat by lia.
Qed.

Lemma assign_prop s2n cur k x :
  isObjectLike cur = true → k ≠ "length" →
  ∃ cur', assign s2n cur k x = Some cur' ∧ prop cur' k = x ∧
          isObjectLike cur' = true ∧ isPlainObject cur' = isPlainObject cur.
Proof.
  intros Hobj Hk. destruct cur as [| | | | |l p|m]; try done; simpl.
  - destruct (parse_index k) as [i|] eqn:Hi.
    + eexists. split; [done|]. simpl. rewrite Hi.
      by rewrite array_set_index_lookup.
    + rewrite bool_decide_eq_false_2 by done.
      eexists. split; [done|]. simpl. rewrite Hi.
      rewrite bool_decide_eq_false_2 by done. by rewrite lookup_insert_eq.
  - eexists. split; [done|]. simpl. by rewrite lookup_insert_eq.
Qed.

Lemma path_step_object cur k :
  isObjectLike cur = true → path_step cur k = prop cur k.
Proof. intros H. unfold path_step. by destruct cur. Qed.

Lemma set_parts_get s2n parts cur val :
  parts ≠ [] → isObjectLike cur = true →
  Forall (λ k, k ≠ "length") parts →
  ∃ cur', set_parts s2n cur parts val = Some cur' ∧
          foldl path_step cur' parts = val ∧
          isObjectLike cur' = true ∧ isPlainObject cur' = isPlainObject cur.
Proof.
  revert cur. induction parts as [|k rest IH]; intros cur Hne Hobj Hks; [done|].
  apply Forall_cons in Hks as [Hk Hrest].
  destruct rest as [|k' rest'].
  - destruct (assign_prop s2n cur k val Hobj Hk) as (cur' & Ha & Hp & Ho & Hpl).
    exists cur'. cbn [set_parts foldl]. split; [done|].
    by rewrite path_step_object.
  - set (next := prop cur k).
    destruct (IH (if isObjectLike next then next else obj [])) as
      (inner & Hinner & Hget & Hio & _); [done| |done|].
    { by destruct (isObjectLike next) eqn:E. }
    destruct (assign_prop s2n cur k inner Hobj Hk) as (cur' & Ha & Hp & Ho & Hpl).
    exists cur'. split.
    + change (set_parts s2n cur (k :: k' :: rest') val)
        with (set_parts s2n (if isObjectLike next then next else obj [])
                (k' :: rest') val ≫= assign s2n cur k).
      by rewrite Hinner.
    + split; [|done]. change (foldl path_step cur' (k :: k' :: rest'))
        with (foldl path_step (path_step cur' k) (k' :: rest')).
      by rewrite path_step_object, Hp.
Qed.

(** The keys for which reading does not return what was written: the
    length of an array, and the prototype slot. *)
Definition plain_key (k : string) : Prop := k ≠ "length" ∧ k ≠ "__proto__".

(** X18: writing a value at a path none of whose segments is [length] or
    [__proto__] succeeds, and reading the path back gives the value written,
    whatever the context held along the path. *)
Theorem setByPath_getFromPath (s2n : string → num) (context : gmap string value)
    (path : string) (val : value) :
  Forall plain_key (split_dot path) →
  ∃ context', setByPath s2n context path val = Some context' ∧
              getFromPath (VObj context') path = val.
Proof.
  intros Hkeys. unfold setByPath, getFromPath.
  destruct (set_parts_get s2n (split_dot path) (VObj context) val)
    as (cur' & Hset & Hget & _ & Hplain).
  - unfold split_dot. intros H%fmap_nil_inv. by apply split_on_nonempty in H.
  - done.
  - eapply Forall_impl; [exact Hkeys|]. by intros k [Hk _].
  - rewrite Hset. destruct cur' as [| | | | | |c']; try done. by exists c'.
Qed.

Lemma setByPath_getFromPath_witness :
  ∃ context',
    setByPath (λ _, NNaN) {[ "user" := VStr "x" ]} "user.tags.1" (VStr "vip")
    = Some context' ∧
    getFromPath (VObj context') "user.tags.1" = VStr "vip".
Proof.
  apply setByPath_getFromPath. repeat constructor; discriminate.
Defined.



(** *** Which expressions reach the evaluator *)

Lemma unsafe_scan_position prev l :
  unsafe_scan prev l = true →
  ∃ pre suf, l = pre ++ suf ∧ unsafe_at (from_option Some prev (last pre)) suf = true.
Proof.
  revert prev. induction l as [|c l IH]; intros prev H.
  - by vm_compute in H.
  - change (unsafe_scan prev (c :: l))
      with (unsafe_at prev (c :: l) || unsafe_scan (Some c) l) in H.
    apply orb_prop in H as [H|H].
    + by exists [], (c :: l).
    + destruct (IH _ H) as (pre & suf & -> & Hat).
      exists (c :: pre), suf. split; [done|].
      destruct pre as [|d pre]; [done|].
      rewrite last_cons_cons. destruct (last (d :: pre)) eqn:E; [done|].
      by apply last_None in E.
Qed.

Lemma unsafe_char_token c :
  unsafe_char c = true → String c "" ∈ forbidden_tokens.
Proof.
  unfold unsafe_char, forbidden_tokens. intros H.
  apply orb_prop in H as [H|H]; [apply orb_prop in H as [H|H]|];
    apply bool_decide_eq_true_1 in H as ->; apply list_elem_of_In; simpl; tauto.
Qed.

Lemma unsafe_word_token w : In w unsafe_words → w ∈ forbidden_tokens.
Proof.
  unfold unsafe_words, forbidden_tokens. intros H. apply list_elem_of_In.
  simpl in *. tauto.
Qed.

Lemma str_split expr pre mid post :
  chars expr = pre ++ chars mid ++ post → expr = str pre +:+ mid +:+ str post.
Proof.
  intros H. rewrite <- (str_chars expr), H, !str_app. by rewrite str_chars.
Qed.

(** X20: the test of the evaluator refuses an expression exactly when it
    contains one of the nine tokens or the identifier [eval]; every other
    expression is handed to the evaluation, whose answer, or whose failure,
    is the result. *)
Theorem unsafe_expression_iff (expr : string) :
  (unsafe_expression expr = true ↔ contains_token expr ∨ contains_eval expr) ∧
  (∀ js_eval ctx,
     ¬ contains_token expr → ¬ contains_eval expr →
     safeEvalBool js_eval expr ctx
     = match js_eval expr ctx with
       | Some b => EvalValue b
       | None => EvalThrow "evaluation failed"
       end).
Proof.
  assert (unsafe_expression expr = true → contains_token expr ∨ contains_eval expr)
    as Hsound.
  { unfold unsafe_expression.
    intros (pre & suf & Hl & Hat)%unsafe_scan_position.
    assert (from_option Some None (last pre) = last pre) as Hlast
      by (by destruct (last pre)).
    rewrite Hlast in Hat. clear Hlast.
    unfold unsafe_at in Hat.
    apply orb_prop in Hat as [Hat|Hat]; [apply orb_prop in Hat as [Hat|Hat]|].
    - destruct suf as [|c suf]; [done|]. left.
      exists (String c ""), (str pre), (str suf).
      split; [by apply unsafe_char_token|]. by apply str_split.
    - apply existsb_exists in Hat as (w & Hw & Hs).
      apply starts_with_spec in Hs as [r ->]. left.
      exists w, (str pre), (str r). split; [by apply unsafe_word_token|].
      by apply str_split.
    - apply andb_prop in Hat as [Hat Hnext]. apply andb_prop in Hat as [Hs Hprev].
      apply starts_with_spec in Hs as [r ->]. right.
      exists (str pre), (str r). split; [by apply str_split|].
      rewrite !chars_str. apply negb_true_iff in Hprev, Hnext.
      split; [done|]. exact Hnext. }
  split.
  - split; [exact Hsound|].
    intros [H|H]; [by apply contains_token_unsafe|by apply contains_eval_unsafe].
  - intros js_eval ctx Ht He. unfold safeEvalBool.
    destruct (unsafe_expression expr) eqn:E; [|done].
    destruct (Hsound eq_refl); done.
Qed.

Lemma unsafe_expression_iff_witness :
  contains_token "evaluate(x); 1" ∨ contains_eval "evaluate(x); 1".
Proof.
  exact (proj1 (proj1 (unsafe_expression_iff "evaluate(x); 1")) eq_refl).
Defined.

(** The word [eval] inside a longer identifier is not refused. *)
Example unsafe_expression_evaluate :
  unsafe_expression "context.evaluated > 3" = false ∧
  unsafe_expression "eval(1)" = true.
Proof. vm_compute. done. Qed.

(** *** The index of the nodes *)

Lemma foldl_insert_node_lookup (l : list FlowNode) (m : gmap string FlowNode) i n :
  foldl (λ m n, <[node_id n := n]> m) m l !! i = Some n →
  (n ∈ l ∧ node_id n = i) ∨ m !! i = Some n.
Proof.
  revert m. induction l as [|x l IH]; intros m H; simpl in H; [by right|].
  apply IH in H as [[Hin Hid]|H].
  - left. split; [by right|done].
  - destruct (decide (node_id x = i)) as [Hx|Hx].
    + subst i. rewrite lookup_insert_eq in H. injection H as <-.
      left. split; [by left|done].
    + rewrite lookup_insert_ne in H by done. by right.
Qed.

Lemma foldl_insert_node_is_Some (l : list FlowNode) (m : gmap string FlowNode) i :
  is_Some (m !! i) ∨ (∃ n, n ∈ l ∧ node_id n = i) →
  is_Some (foldl (λ m n, <[node_id n := n]> m) m l !! i).
Proof.
  revert m. induction l as [|x l IH]; intros m H; simpl.
  - destruct H as [H|(n & Hn%not_elem_of_nil & _)]; done.
  - apply IH. destruct H as [H|(n & Hn & Hid)].
    + left. destruct (decide (node_id x = i)) as [<-|Hx].
      * rewrite lookup_insert_eq. by eexists.
      * by rewrite lookup_insert_ne.
    + apply elem_of_cons in Hn as [->|Hn].
      * left. subst i. rewrite lookup_insert_eq. by eexists.
      * right. by exists n.
Qed.

(** X21: the index finds a node for exactly the ids that occur in the flow, and
    the node it finds carries that id and is one of the flow's nodes. *)
Theorem nodeById_lookup (f : Flow) (i : string) :
  (∀ n, nodeById f !! i = Some n → n ∈ nodes f ∧ node_id n = i) ∧
  (is_Some (nodeById f !! i) ↔ ∃ n, n ∈ nodes f ∧ node_id n = i).
Proof.
  assert (∀ n, nodeById f !! i = Some n → n ∈ nodes f ∧ node_id n = i) as H.
  { intros n Hn. unfold nodeById in Hn.
    apply foldl_insert_node_lookup in Hn as [H|H]; [done|].
    by rewrite lookup_empty in H. }
  split; [exact H|]. split.
  - intros [n Hn]. exists n. by apply H.
  - intros Hex. apply foldl_insert_node_is_Some. by right.
Qed.


Section Engine.
Context {W : Type}.
(** The surroundings of an execution: the number conversion and the case
    conversion of the language, the evaluation of a condition expression,
    the [sendMessage] callback, the HTTP call of an [api] node ([None] when
    it throws), the clock and the timer. *)
Variable string_to_number : string → num.
Variable toUpperCase : string → string.
Variable js_eval : string → gmap string value → option bool.
Variable sendMessage : W → string → string → value → SendOutcome * W.
Variable apiCall : W → string → value → option value * W.
Variable nowIso : W → string * W.
Variable sleep : W → Z → W.

Variable session : SessionInfo.
Variable flow : Flow.

(** The mutable state of one execution: the context bag, the outside
    world, the session row and the updates issued so far. *)
Record St := {
  context : gmap string value;
  world : W;
  row : SessionRow;
  updates : list SessionPatch;
}.

Definition M (A : Type) : Type := St → Res A * St.

Global Instance M_ret : MRet M := λ A a st, (Val a, st).
Global Instance M_bind : MBind M :=
  λ A B f m st,
    match m st with
    | (Val a, st') => f a st'
    | (Raise e, st') => (Raise e, st')
    end.

Definition raise {A} (e : Exception) : M A := λ st, (Raise e, st).

Definition get_context : M (gmap string value) := λ st, (Val (context st), st).

Definition set_context (c : gmap string value) : M unit :=
  λ st, (Val (), {| context := c; world := world st; row := row st;
                    updates := updates st |}).

(** [await prisma.session.update(...)] through [updateSession]; the context
    of the patch is the context bag at the time of the call. *)
Definition updateSession (status : option string)
    (currentNodeId : option (option string)) : M unit :=
  λ st,
    let p := {| patch_status := status; patch_currentNodeId := currentNodeId;
                patch_context := Some (context st) |} in
    (Val (), {| context := context st; world := world st;
                row := apply_patch p (row st); updates := updates st ++ [p] |}).

Definition with_world {A} (f : W → A * W) : M A :=
  λ st,
    let '(a, w) := f (world st) in
    (Val a, {| context := context st; world := w; row := row st;
               updates := updates st |}).

(** [tpl(v)] against the current context. *)
Definition tplM (v : value) : M string :=
  c ← get_context;
  match tpl_value c v with
  | Some s => mret s
  | None => raise (JsException "TypeError")
  end.

(** [v?.trim()] *)
Definition trimM (v : value) : M value :=
  match Meta.value_trim v with
  | Some t => mret t
  | None => raise (JsException "TypeError")
  end.

Definition recordOutboundM (type : string) (payload : gmap string value) : M unit :=
  ts ← with_world nowIso;
  c ← get_context;
  set_context (recordOutbound ts type payload c).

(** The call of [sendMessage] and the check of its result shared by the
    sending nodes. *)
Definition sendM (message : value) (fallback : string) : M unit :=
  outcome ← with_world (λ w, sendMessage w (flow_userId session)
                                          (contact_phone session) message);
  match outcome with
  | RejectedWith reason => raise (Rejected reason)
  | Resolved (Some (Meta.SendSuccess _)) => mret ()
  | Resolved (Some (Meta.SendFailure error status _)) =>
      raise (FlowSendMessageError
               (match error with
                | Some e => if bool_decide (String.length (trim e) = 0%nat)
                            then fallback else e
                | None => fallback
                end) status)
  | Resolved None => raise (FlowSendMessageError fallback None)
  end.

Definition setByPathM (path val : value) : M unit :=
  match path with
  | VStr p =>
      c ← get_context;
      match setByPath string_to_number c p val with
      | Some c' => set_context c'
      | None => raise (JsException "RangeError")
      end
  | _ => raise (JsException "TypeError")
  end.

(** How the [switch] of one step ends: with [break], [nextNodeId] holding
    the given value, or with [return]. *)
Inductive Step :=
| Break (nextNodeId : value)
| Return.

(** [try { m } catch { handler }] *)
Definition catchM {A} (m : M A) (handler : M A) : M A :=
  λ st,
    match m st with
    | (Val a, st') => (Val a, st')
    | (Raise _, st') => handler st'
    end.

(** [v.k] for a value [v] that may be [null] or [undefined]. *)
Definition memberM (v : value) (k : string) : M value :=
  if nullish v then raise (JsException "TypeError") else mret (prop v k).

Definition target_value (e : option FlowEdge) : value :=
  match e with Some e => VStr (edge_target e) | None => VUndef end.

(** *** Template messages *)

Record TemplateMessageComponent := {
  tc_type : string;
  tc_subType : option string;
  tc_index : option num;
  tc_parameters : list string;
}.

(** [normalizeTemplateComponentType] *)
Definition normalizeTemplateComponentType (v : value) : M string :=
  base ← trimM (coalesce v (VStr ""));
  mret (if bool_decide (string_of base = "") then "body"
        else toLowerCase (string_of base)).

Definition finite_index (v : value) : option num :=
  match v with
  | VNum n => if isFinite n then Some n else None
  | _ => None
  end.

(** The [grouped] map keeps its keys in insertion order. *)
Definition push_parameter (key : string) (fresh : TemplateMessageComponent)
    (text : string) (grouped : list (string * TemplateMessageComponent))
    : list (string * TemplateMessageComponent) :=
  let add (c : TemplateMessageComponent) :=
    {| tc_type := tc_type c; tc_subType := tc_subType c; tc_index := tc_index c;
       tc_parameters := tc_parameters c ++ [text] |} in
  if existsb (λ kc, bool_decide (kc.1 = key)) grouped
  then (λ kc, if bool_decide (kc.1 = key) then (kc.1, add kc.2) else kc) <$> grouped
  else grouped ++ [(key, add fresh)].

Fixpoint group_parameters (params : list value)
    (grouped : list (string * TemplateMessageComponent))
    : M (list (string * TemplateMessageComponent)) :=
  match params with
  | [] => mret grouped
  | param :: rest =>
      component ← memberM param "component";
      type ← normalizeTemplateComponentType component;
      subType ← trimM (coalesce (prop param "subType") (VStr ""));
      let subType := string_of subType in
      let index := finite_index (prop param "index") in
      let key := type +:+ "::" +:+ toLowerCase subType +:+ "::" +:+
                 match index with Some n => num_to_string n | None => "" end in
      let fresh :=
        {| tc_type := type;
           tc_subType := if bool_decide (subType = "") then None
                         else Some (toLowerCase subType);
           tc_index := index;
           tc_parameters := [] |} in
      resolved ← tplM (coalesce (prop param "value") (VStr ""));
      group_parameters rest (push_parameter key fresh resolved grouped)
  end.

Definition component_value (c : TemplateMessageComponent) : value :=
  obj ([("type", VStr (tc_type c))] ++
       match tc_subType c with Some t => [("subType", VStr t)] | None => [] end ++
       match tc_index c with Some n => [("index", VNum n)] | None => [] end ++
       [("parameters",
         VArr ((λ t, obj [("type", VStr "text"); ("text", VStr t)])
               <$> tc_parameters c))]).

Definition buildTemplateMessageComponents (params : list value) : M (list value) :=
  grouped ← group_parameters params [];
  mret ((λ kc, component_value kc.2) <$> grouped).

(** The description of a template parameter kept in the history. *)
Definition describe_parameter (param : value) : M value :=
  component ← memberM param "component";
  rendered ← tplM (coalesce (prop param "value") (VStr ""));
  let upper (v : value) (fallback : value) :=
    match v with
    | VStr t => if bool_decide (trim t = "") then fallback
                else VStr (toUpperCase (trim t))
    | _ => fallback
    end in
  mret (obj [("component", upper component (VStr "BODY"));
             ("subType", upper (prop param "subType") VNull);
             ("index", match finite_index (prop param "index") with
                       | Some n => VNum n
                       | None => VNull
                       end);
             ("value", VStr rendered);
             ("raw", coalesce (prop param "value") (VStr ""))]).

Fixpoint describe_parameters (params : list value) : M (list value) :=
  match params with
  | [] => mret []
  | param :: rest =>
      d ← describe_parameter param;
      ds ← describe_parameters rest;
      mret (d :: ds)
  end.

(** *** The nodes *)

Definition exec_message (data : value) : M Step :=
  if truthy (prop data "useTemplate") then
    templateName ← trimM (prop data "templateName");
    templateLanguage ← trimM (prop data "templateLanguage");
    if negb (truthy templateName) || negb (truthy templateLanguage) then
      raise (FlowSendMessageError
               "Missing template name or language for WhatsApp template message"
               (Some 400))
    else
      let templateParams := elements (prop data "templateParameters") in
      components ← buildTemplateMessageComponents templateParams;
      sendM (obj [("type", VStr "template");
                  ("template",
                   obj ([("name", templateName); ("language", templateLanguage)] ++
                        match components with
                        | [] => []
                        | _ => [("components", VArr components)]
                        end))])
            "Failed to send WhatsApp template message";;
      parameters ← describe_parameters templateParams;
      recordOutboundM "template"
        (<["components" := VArr components]>
         (<["parameters" := VArr parameters]>
          {[ "template" := obj [("name", templateName);
                                ("language", templateLanguage)] ]}));;
      mret (Break VUndef)
  else
    text ← tplM (prop data "text");
    sendM (obj [("type", VStr "text"); ("text", VStr text)])
          "Failed to send WhatsApp text message";;
    recordOutboundM "text" {[ "text" := VStr text ]};;
    mret (Break VUndef).

Definition exec_options (data : value) : M Step :=
  text ← tplM (coalesce (prop data "text") (VStr ""));
  let options := coalesce (prop data "options") (VArr []) in
  sendM (obj [("type", VStr "options"); ("text", VStr text); ("options", options)])
        "Failed to send WhatsApp options message";;
  recordOutboundM "options" (<["options" := options]> {[ "text" := VStr text ]});;
  updateSession (Some "Paused") None;;
  mret Return.

Definition MAX_DELAY_MS : Z := 60000.

(** [Math.min(Math.max(0, (data.seconds ?? 0) * 1000), MAX_DELAY_MS)], or 0
    when that is [NaN]. *)
Definition delay_ms (seconds : value) : Z :=
  match to_number string_to_number (coalesce seconds (VNum (NFin 0))) with
  | NFin z => Z.min (Z.max 0 (z * 1000)) MAX_DELAY_MS
  | NInf false => MAX_DELAY_MS
  | NInf true => 0
  | NNaN => 0
  end.

Definition exec_delay (data : value) : M Step :=
  let ms := delay_ms (prop data "seconds") in
  (if 0 <? ms then with_world (λ w, ((), sleep w ms)) else mret ());;
  mret (Break VUndef).

Definition exec_condition (node : FlowNode) : M Step :=
  let expr := js_String (coalesce (prop (node_data node) "expression") (VStr "false")) in
  c ← get_context;
  let res := condition_result js_eval expr c in
  mret (Break (target_value (edgeForCondition flow (node_id node) res))).

Definition api_error : value := obj [("error", VStr "API call failed")].

Fixpoint interpolate_headers (hs : list (string * value)) : M (list (string * value)) :=
  match hs with
  | [] => mret []
  | (k, v) :: rest =>
      v' ← match v with
           | VStr t => t' ← tplM v; mret (VStr t')
           | _ => mret v
           end;
      rest' ← interpolate_headers rest;
      mret ((k, v') :: rest')
  end.

Definition exec_api (data : value) : M Step :=
  let method :=
    toUpperCase (js_String (if truthy (prop data "method") then prop data "method"
                            else VStr "GET")) in
  url ← tplM (prop data "url");
  headers ← interpolate_headers (entries (coalesce (prop data "headers") (obj [])));
  body ← (if negb (bool_decide (method = "GET")) && negb (bool_decide (method = "HEAD"))
          then b ← tplM (coalesce (prop data "body") (VStr "")); mret [("body", VStr b)]
          else mret []);
  let init := obj ([("method", VStr method); ("headers", obj headers)] ++ body) in
  let assignTo := coalesce (prop data "assignTo") (VStr "apiResult") in
  catchM (result ← with_world (λ w, apiCall w url init);
          match result with
          | Some r => setByPathM assignTo r
          | None => raise (JsException "Error")
          end)
         (setByPathM assignTo api_error);;
  mret (Break VUndef).

Definition exec_assign (data : value) : M Step :=
  let key := coalesce (prop data "key") (VStr "") in
  (if truthy key then
     v ← tplM (VStr (js_String (coalesce (prop data "value") (VStr ""))));
     setByPathM key (VStr v)
   else mret ());;
  mret (Break VUndef).

(** [v ? tpl(v) : undefined] *)
Definition tpl_if_truthy (v : value) : M value :=
  if truthy v then t ← tplM v; mret (VStr t) else mret VUndef.

Definition exec_media (data : value) : M Step :=
  id ← tpl_if_truthy (prop data "id");
  url ← tpl_if_truthy (prop data "url");
  caption ← tpl_if_truthy (prop data "caption");
  let mediaPayload : gmap string value :=
    <["caption" := caption]> (<["url" := url]> (<["id" := id]>
      {[ "mediaType" := prop data "mediaType" ]})) in
  sendM (VObj (<["type" := VStr "media"]> mediaPayload))
        "Failed to send WhatsApp media message";;
  recordOutboundM "media" mediaPayload;;
  mret (Break VUndef).

(** [s || undefined] *)
Definition or_undefined (s : string) : value :=
  if bool_decide (s = "") then VUndef else VStr s.

Definition exec_whatsapp_flow (data : value) : M Step :=
  header ← tplM (coalesce (prop data "header") (VStr ""));
  bodyText ← tplM (coalesce (prop data "body") (VStr ""));
  footer ← tplM (coalesce (prop data "footer") (VStr ""));
  cta ← tplM (coalesce (prop data "cta") (VStr ""));
  let headerText := trim header in
  let footerText := trim footer in
  let ctaText := trim cta in
  if bool_decide (trim bodyText = "") then
    raise (FlowSendMessageError "WhatsApp Flow body cannot be empty." (Some 400))
  else
    let flowId := Meta.trim_opt (metaFlowId session) in
    let flowToken := Meta.trim_opt (metaFlowToken session) in
    let flowVersion := Meta.trim_opt (metaFlowVersion session) in
    if blank flowId || blank flowToken then
      raise (FlowSendMessageError
               "Flow is not synchronized with Meta. Save the flow to sync identifiers."
               (Some 400))
    else
      sendM (obj [("type", VStr "flow");
                  ("flow", obj [("name", VStr (flow_name session));
                                ("id", opt_str flowId);
                                ("token", opt_str flowToken);
                                ("version", opt_str flowVersion);
                                ("header", or_undefined headerText);
                                ("body", VStr bodyText);
                                ("footer", or_undefined footerText);
                                ("cta", or_undefined ctaText)])])
            "Failed to send WhatsApp Flow message";;
      recordOutboundM "flow"
        (<["cta" := VStr ctaText]> (<["footer" := VStr footerText]>
         (<["body" := VStr bodyText]> {[ "header" := VStr headerText ]})));;
      mret (Break VUndef).

Definition exec_handoff (data : value) : M Step :=
  c ← get_context;
  set_context (<["handoffQueue" := prop data "queue"]> c);;
  note ← tpl_if_truthy (prop data "note");
  c ← get_context;
  set_context (<["handoffNote" := note]> c);;
  updateSession (Some "Paused") None;;
  mret Return.

Definition exec_goto (data : value) : M Step :=
  mret (Break (prop data "targetNodeId")).

Definition exec_end (data : value) : M Step :=
  c ← get_context;
  set_context (<["endReason" := coalesce (prop data "reason") (VStr "end")]> c);;
  updateSession (Some "Completed") (Some None);;
  mret Return.

(** The [switch (currentNode.type)]. *)
Definition exec_node (node : FlowNode) : M Step :=
  let data := node_data node in
  let type := node_type node in
  if bool_decide (type = "trigger") then mret (Break VUndef)
  else if bool_decide (type = "message") then exec_message data
  else if bool_decide (type = "options") then exec_options data
  else if bool_decide (type = "delay") then exec_delay data
  else if bool_decide (type = "condition") then exec_condition node
  else if bool_decide (type = "api") then exec_api data
  else if bool_decide (type = "assign") then exec_assign data
  else if bool_decide (type = "media") then exec_media data
  else if bool_decide (type = "whatsapp_flow") then exec_whatsapp_flow data
  else if bool_decide (type = "handoff") then exec_handoff data
  else if bool_decide (type = "goto") then exec_goto data
  else if bool_decide (type = "end") then exec_end data
  else mret (Break VUndef).

(** The end of the loop body: the choice of the next node.  [None] is a
    [return]. *)
Definition advance (node : FlowNode) (nextNodeId : value) : M (option FlowNode) :=
  let nextNodeId :=
    if negb (truthy nextNodeId) && negb (bool_decide (node_type node = "condition"))
    then target_value (chooseFirstEdge flow (node_id node))
    else nextNodeId in
  if negb (truthy nextNodeId) then
    updateSession (Some "Completed") (Some None);; mret None
  else
    match (match nextNodeId with VStr i => nodeById flow !! i | _ => None end) with
    | None => updateSession (Some "Errored") None;; mret None
    | Some next => updateSession None None;; mret (Some next)
    end.

(** One round of the loop after its guards. *)
Definition loop_body (node : FlowNode) : M (option FlowNode) :=
  updateSession None (Some (Some (node_id node)));;
  step ← exec_node node;
  match step with
  | Return => mret None
  | Break nextNodeId => advance node nextNodeId
  end.

Definition SAFE_MAX_STEPS : nat := 500.

(** How an execution of the main loop ends. *)
Inductive Ending :=
| Returned
| Thrown (e : Exception)
| OutOfFuel.

Record LoopResult := {
  final : St;
  visited_nodes : list string;
  steps_counter : nat;
  ending : Ending;
}.

(** The main loop, [visited] holding the set of visited ids in the order of
    the visits and [steps] the counter. *)
Fixpoint main_loop (fuel : nat) (currentNode : option FlowNode)
    (visited : list string) (steps : nat) (st : St) : LoopResult :=
  match currentNode with
  | None =>
      {| final := st; visited_nodes := visited; steps_counter := steps;
         ending := Returned |}
  | Some node =>
      match fuel with
      | O => {| final := st; visited_nodes := visited; steps_counter := steps;
                ending := OutOfFuel |}
      | S fuel' =>
          if decide (SAFE_MAX_STEPS < steps)%nat then
            {| final := (updateSession (Some "Errored") None st).2;
               visited_nodes := visited; steps_counter := S steps;
               ending := Returned |}
          else if bool_decide (node_id node ∈ visited) then
            {| final := (updateSession (Some "Errored") None st).2;
               visited_nodes := visited; steps_counter := S steps;
               ending := Returned |}
          else
            let visited' := visited ++ [node_id node] in
            match loop_body node st with
            | (Raise e, st') =>
                {| final := (updateSession (Some "Errored") None st').2;
                   visited_nodes := visited'; steps_counter := S steps;
                   ending := Thrown e |}
            | (Val None, st') =>
                {| final := st'; visited_nodes := visited'; steps_counter := S steps;
                   ending := Returned |}
            | (Val (Some next), st') =>
                main_loop fuel' (Some next) visited' (S steps) st'
            end
      end
  end.

(** The loop as [executeFlow] enters it: nothing visited, counter at 0.
    The fuel is never used up. *)
Definition run_main_loop (currentNode : option FlowNode) (st : St) : LoopResult :=
  main_loop (SAFE_MAX_STEPS + 2) currentNode [] 0 st.

(** *** The starting node *)

Variable stripDiacritics : string → string.

Definition DEFAULT_TRIGGER_KEYWORD : string := "default".

(** [normalizeTrigger] on a string or [null]. *)
Definition normalizeTrigger (v : option string) : option string :=
  match v with
  | None => None
  | Some s =>
      let trimmed := trim s in
      if bool_decide (trimmed = "") then None
      else Some (toLowerCase (stripDiacritics trimmed))
  end.

(** [normalizeTrigger(v)] on a value read from node data; a value that is
    truthy and not a string has no [trim]. *)
Definition normalizeTriggerM (v : value) : M (option string) :=
  if negb (truthy v) then mret None
  else match v with
       | VStr s => mret (normalizeTrigger (Some s))
       | _ => raise (JsException "TypeError")
       end.

Definition collectNormalizedParts (v : option string) : list string :=
  match v with
  | None => []
  | Some s => s :: ws_parts s
  end.

(** The loop over the trigger nodes: the first keyword match, and the
    first [default] trigger seen before it; a keyword that is absent or
    that the normalization empties is passed over. *)
Fixpoint match_trigger (normalizedInput : option string) (triggerNodes : list FlowNode)
    (defaultTrigger : option FlowNode) : M (option FlowNode * option FlowNode) :=
  match triggerNodes with
  | [] => mret (None, defaultTrigger)
  | triggerNode :: rest =>
      normalizedKeyword ←
        normalizeTriggerM (coalesce (opt_prop (node_data triggerNode) "keyword") VNull);
      match normalizedKeyword with
      | None => match_trigger normalizedInput rest defaultTrigger
      | Some keyword =>
          if bool_decide (keyword = "") then
            match_trigger normalizedInput rest defaultTrigger
          else if bool_decide (keyword = DEFAULT_TRIGGER_KEYWORD) then
            match_trigger normalizedInput rest
              (match defaultTrigger with Some d => Some d | None => Some triggerNode end)
          else if match normalizedInput with
                  | Some input =>
                      bool_decide (input = keyword) || includes input keyword
                  | None => false
                  end
          then mret (Some triggerNode, defaultTrigger)
          else if bool_decide (keyword ∈ collectNormalizedParts normalizedInput)
          then mret (Some triggerNode, defaultTrigger)
          else match_trigger normalizedInput rest defaultTrigger
      end
  end.

(** [IncomingMessageMeta]; [None] at the top is a [null] meta. *)
Record IncomingMessageMeta := {
  meta_type : value;
  meta_rawText : value;
  meta_interactive : option (value * value * value);
  meta_image : value;
  meta_video : value;
  meta_audio : value;
  meta_document : value;
  meta_sticker : value;
}.

Definition opt_string_value (s : option string) : value :=
  match s with Some t => VStr t | None => VNull end.

Definition initial_inbound (messageText : option string)
    (incomingMeta : option IncomingMessageMeta) : InboundPayload :=
  let meta_field (f : IncomingMessageMeta → value) (fallback : value) :=
    coalesce (match incomingMeta with Some m => f m | None => VUndef end) fallback in
  let interactive (f : value * value * value → value) :=
    coalesce (match incomingMeta ≫= meta_interactive with
              | Some i => f i
              | None => VUndef
              end) VNull in
  {| in_text := default "" messageText;
     in_type := meta_field meta_type (VStr "text");
     in_raw := meta_field meta_rawText (opt_string_value messageText);
     in_optionIndex := VUndef;
     in_matchedOption := VUndef;
     in_interactiveId := interactive (λ i, i.1.2);
     in_interactiveType := interactive (λ i, i.1.1);
     in_interactiveTitle := interactive (λ i, i.2);
     in_image := meta_field meta_image VNull;
     in_video := meta_field meta_video VNull;
     in_audio := meta_field meta_audio VNull;
     in_document := meta_field meta_document VNull;
     in_sticker := meta_field meta_sticker VNull |}.

(** [toLc(v)]: [(v ?? "").trim().toLowerCase()] *)
Definition toLcM (v : value) : M string :=
  t ← trimM (coalesce v (VStr ""));
  mret (toLowerCase (string_of t)).

(** [toLcUnderscore] *)
Definition toLcUnderscoreM (v : value) : M string :=
  normalized ← toLcM v;
  mret (if bool_decide (normalized = "") then "opt" else replace_ws normalized).

(** [options.findIndex(p)] for a predicate that may throw. *)
Fixpoint findIndexM (p : value → nat → M bool) (l : list value) (i : nat)
    : M (option nat) :=
  match l with
  | [] => mret None
  | x :: l' =>
      b ← p x i;
      if b : bool then mret (Some i) else findIndexM p l' (S i)
  end.

(** The outcome of the search for the starting node: the node (if any) and
    the inbound payload to record, or an early [return]. *)
Inductive Start :=
| StartAt (currentNode : option FlowNode) (inbound : InboundPayload)
| StartReturn.

Definition resume_options (paused : FlowNode) (messageText : option string)
    (inbound : InboundPayload) : M Start :=
  let normalizedOptions := elements (prop (node_data paused) "options") in
  interactiveId ←
    (if truthy (in_interactiveId inbound)
     then i ← toLcM (in_interactiveId inbound); mret (Some i)
     else mret None);
  idx1 ←
    match interactiveId with
    | Some i =>
        if bool_decide (i = "") then mret None
        else findIndexM (λ opt optionIndex,
                           optionId ← toLcUnderscoreM opt;
                           mret (bool_decide (i = optionId) ||
                                 bool_decide (i = "opt-" +:+ pretty optionIndex)))
                        normalizedOptions 0
    | None => mret None
    end;
  idx ←
    match idx1 with
    | Some i => mret (Some i)
    | None =>
        findIndexM (λ opt _,
                      o ← toLcM opt;
                      mret (bool_decide (o = toLc (default "" messageText))))
                   normalizedOptions 0
    end;
  let matchedOption :=
    match idx with
    | Some i => coalesce (default VUndef (normalizedOptions !! i)) VNull
    | None => VNull
    end in
  let baseInbound :=
    {| in_text := in_text inbound; in_type := VStr "option-selection";
       in_raw := in_raw inbound;
       in_optionIndex := match idx with
                         | Some i => VNum (NFin (Z.of_nat i))
                         | None => VUndef
                         end;
       in_matchedOption := matchedOption;
       in_interactiveId := in_interactiveId inbound;
       in_interactiveType := in_interactiveType inbound;
       in_interactiveTitle := in_interactiveTitle inbound;
       in_image := in_image inbound; in_video := in_video inbound;
       in_audio := in_audio inbound; in_document := in_document inbound;
       in_sticker := in_sticker inbound |} in
  let nextId :=
    match idx with
    | Some i => edge_target <$> edgeForOption flow (node_id paused) ("opt-" +:+ pretty i)
    | None => edge_target <$> edgeForOption flow (node_id paused) "no-match"
    end in
  match nextId with
  | Some n =>
      match nodeById flow !! n with
      | Some node => updateSession (Some "Active") None;;
                     mret (StartAt (Some node) baseInbound)
      | None => updateSession (Some "Errored") None;; mret StartReturn
      end
  | None => updateSession (Some "Active") None;; mret (StartAt None baseInbound)
  end.

Definition find_start (messageText : option string)
    (incomingMeta : option IncomingMessageMeta) : M Start :=
  let inbound := initial_inbound messageText incomingMeta in
  let paused_id :=
    match session_currentNodeId session with
    | Some i => if negb (bool_decide (i = "")) &&
                   bool_decide (session_status session = "Paused")
                then Some i else None
    | None => None
    end in
  match paused_id with
  | Some i =>
      match nodeById flow !! i with
      | None => updateSession (Some "Errored") None;; mret StartReturn
      | Some paused =>
          if bool_decide (node_type paused = "options")
          then resume_options paused messageText inbound
          else mret (StartAt (Some paused) inbound)
      end
  | None =>
      let normalizedInput := normalizeTrigger messageText in
      let triggerNodes :=
        List.filter (λ n, bool_decide (node_type n = "trigger")) (nodes flow) in
      found ← match_trigger normalizedInput triggerNodes None;
      match (match found.1 with Some t => Some t | None => found.2 end) with
      | Some matchedTrigger =>
          c ← get_context;
          set_context (<["triggerMessage" := opt_str messageText]> c);;
          mret (StartAt (Some matchedTrigger) inbound)
      | None => mret StartReturn
      end
  end.

(** The body of [executeFlow] once the definition is sanitized. *)
Definition execute (messageText : option string)
    (incomingMeta : option IncomingMessageMeta) (st : St) : LoopResult :=
  match find_start messageText incomingMeta st with
  | (Raise e, st') =>
      {| final := st'; visited_nodes := []; steps_counter := 0; ending := Thrown e |}
  | (Val StartReturn, st') =>
      {| final := st'; visited_nodes := []; steps_counter := 0; ending := Returned |}
  | (Val (StartAt currentNode inbound), st') =>
      let st'' :=
        if bool_decide (session_status session = "Paused") ||
           bool_decide (is_Some currentNode)
        then (ts ← with_world nowIso;
              c ← get_context;
              set_context (recordInbound ts inbound c)) st'
        else (Val (), st') in
      run_main_loop currentNode st''.2
  end.

(** *** The guards of the main loop *)

Lemma main_loop_bounds fuel currentNode visited steps st :
  NoDup visited → length visited = steps → (steps ≤ SAFE_MAX_STEPS + 1)%nat →
  let r := main_loop fuel currentNode visited steps st in
  NoDup (visited_nodes r) ∧
  (length (visited_nodes r) ≤ SAFE_MAX_STEPS + 1)%nat ∧
  (steps_counter r ≤ SAFE_MAX_STEPS + 2)%nat.
Proof.
  revert currentNode visited steps st.
  induction fuel as [|fuel IH]; intros currentNode visited steps st Hnd Hlen Hsteps;
    destruct currentNode as [node|]; cbn [main_loop visited_nodes steps_counter];
    try (split; [done|lia]).
  destruct (decide (SAFE_MAX_STEPS < steps)%nat) as [Hmax|Hmax];
    cbn [visited_nodes steps_counter]; [split; [done|lia]|].
  case_bool_decide as Hvis; cbn [visited_nodes steps_counter]; [split; [done|lia]|].
  assert (NoDup (visited ++ [node_id node])) as Hnd'.
  { apply NoDup_app. split; [done|]. split; [|apply NoDup_singleton].
    intros x Hx Hx'. apply list_elem_of_singleton in Hx' as ->. done. }
  assert (length (visited ++ [node_id node]) = S steps) as Hlen'.
  { rewrite length_app. cbn [length]. lia. }
  destruct (loop_body node st) as [[[next|]|e] st'];
    cbn [visited_nodes steps_counter].
  - apply IH; [done|done|lia].
  - split; [done|lia].
  - split; [done|lia].
Qed.

(** The fuel given by [run_main_loop] is enough. *)
Lemma main_loop_fuel fuel currentNode visited steps st :
  (steps ≤ SAFE_MAX_STEPS + 1)%nat →
  (SAFE_MAX_STEPS + 1 < fuel + steps)%nat →
  ending (main_loop fuel currentNode visited steps st) ≠ OutOfFuel.
Proof.
  revert currentNode visited steps st.
  induction fuel as [|fuel IH]; intros currentNode visited steps st Hsteps Hfuel;
    destruct currentNode as [node|]; cbn [main_loop ending]; try done.
  - lia.
  - destruct (decide (SAFE_MAX_STEPS < steps)%nat) as [Hmax|Hmax];
      cbn [ending]; [done|].
    case_bool_decide as Hvis; cbn [ending]; [done|].
    destruct (loop_body node st) as [[[next|]|e] st']; cbn [ending]; try done.
    apply IH; lia.
Qed.

Lemma updateSession_status status currentNodeId st :
  row_status (row (updateSession (Some status) currentNodeId st).2) = status.
Proof. done. Qed.

(** X22: what holds of every run of the main loop: it ends, no node is visited
    twice, at most [SAFE_MAX_STEPS + 1] nodes are executed, and a run that
    meets one of the two guards persists the status [Errored] and returns. *)
Lemma run_main_loop_guards currentNode st :
  let r := run_main_loop currentNode st in
  ending r ≠ OutOfFuel ∧
  NoDup (visited_nodes r) ∧
  (length (visited_nodes r) ≤ SAFE_MAX_STEPS + 1)%nat ∧
  (∀ fuel node visited steps st',
     (SAFE_MAX_STEPS < steps)%nat ∨ node_id node ∈ visited →
     let r' := main_loop (S fuel) (Some node) visited steps st' in
     ending r' = Returned ∧ visited_nodes r' = visited ∧
     row_status (row (final r')) = "Errored" ∧
     context (final r') = context st').
Proof.
  split; [apply main_loop_fuel; unfold SAFE_MAX_STEPS; lia|].
  destruct (main_loop_bounds (SAFE_MAX_STEPS + 2) currentNode [] 0 st)
    as (Hnd & Hlen & _); [constructor|done|lia|].
  split; [done|]. split; [done|].
  intros fuel node visited steps st' Hguard. cbn [main_loop].
  destruct (decide (SAFE_MAX_STEPS < steps)%nat) as [Hmax|Hmax]; [done|].
  destruct Hguard as [Hs|Hv]; [lia|].
  by rewrite bool_decide_eq_true_2.
Qed.

(** *** Condition nodes *)

Lemma M_bind_val {A B} (m : M A) (k : A → M B) (st st' : St) (a : A) :
  m st = (Val a, st') → (m ≫= k) st = k a st'.
Proof. intros H. unfold mbind, M_bind. by rewrite H. Qed.

Lemma edgeForOption_spec sourceId handleId e :
  edgeForOption flow sourceId handleId = Some e →
  edge_sourceHandle e = VStr handleId ∧ edge_source e = sourceId ∧
  edge_target e ≠ "".
Proof.
  unfold edgeForOption, outgoing. intros H.
  apply find_some in H as [Hin Hh].
  apply filter_In in Hin as [_ Hf].
  apply andb_prop in Hf as [Hf Hsrc]. apply andb_prop in Hf as [_ Htgt].
  apply bool_decide_eq_true_1 in Hsrc. apply negb_true_iff in Htgt.
  apply bool_decide_eq_false_1 in Htgt.
  split; [|done]. destruct (edge_sourceHandle e); try done.
  simpl in Hh. by apply bool_decide_eq_true_1 in Hh as ->.
Qed.

Lemma advance_to node target next st :
  target ≠ "" → nodeById flow !! target = Some next →
  (advance node (VStr target) st).1 = Val (Some next).
Proof.
  intros Htgt Hnext. unfold advance.
  assert (truthy (VStr target) = true) as Ht.
  { cbn [truthy]. by rewrite bool_decide_eq_false_2. }
  cbv zeta. rewrite Ht. cbn [negb andb]. rewrite Ht. cbn [negb].
  rewrite Hnext. reflexivity.
Qed.

Lemma exec_node_condition node expr st :
  node_type node = "condition" →
  prop (node_data node) "expression" = VStr expr →
  exec_node node st
  = (Val (Break (target_value
       (edgeForCondition flow (node_id node)
          (condition_result js_eval expr (context st))))), st).
Proof.
  intros H Hexpr. unfold exec_node. rewrite H.
  change (exec_condition node st
          = (Val (Break (target_value
               (edgeForCondition flow (node_id node)
                  (condition_result js_eval expr (context st))))), st)).
  unfold exec_condition. rewrite Hexpr. reflexivity.
Qed.

(** C3: a condition node whose expression contains one of the tokens [;],
    [{], [}], [process], [global], [window], [document], [require],
    [import], or the identifier [eval], has its expression rejected by the
    evaluator; the result of the condition is [false]; and the step selects
    the first outgoing edge of the node whose [sourceHandle] is ["false"],
    execution going on at the target of that edge. *)
Theorem condition_rejects_unsafe (node : FlowNode) (expr : string) (st : St) :
  node_type node = "condition" →
  prop (node_data node) "expression" = VStr expr →
  contains_token expr ∨ contains_eval expr →
  safeEvalBool js_eval expr (context st) = EvalThrow "Unsafe expression" ∧
  condition_result js_eval expr (context st) = false ∧
  exec_node node st
  = (Val (Break (target_value (edgeForCondition flow (node_id node) false))), st) ∧
  (∀ e, edgeForCondition flow (node_id node) false = Some e →
        edge_sourceHandle e = VStr "false" ∧ edge_source e = node_id node ∧
        ∀ next, nodeById flow !! edge_target e = Some next →
                (loop_body node st).1 = Val (Some next)).
Proof.
  intros Htype Hexpr Hunsafe.
  assert (unsafe_expression expr = true) as Hu.
  { destruct Hunsafe; [by apply contains_token_unsafe|by apply contains_eval_unsafe]. }
  assert (safeEvalBool js_eval expr (context st) = EvalThrow "Unsafe expression") as Hs.
  { unfold safeEvalBool. by rewrite Hu. }
  assert (condition_result js_eval expr (context st) = false) as Hres.
  { unfold condition_result. by rewrite Hs. }
  assert (exec_node node st
          = (Val (Break (target_value (edgeForCondition flow (node_id node) false))), st))
    as Hexec.
  { rewrite (exec_node_condition node expr) by done. by rewrite Hres. }
  repeat (split; [done|]).
  intros e He. destruct (edgeForOption_spec _ _ _ He) as (Hh & Hsrc & Htgt).
  repeat (split; [done|]).
  intros next Hnext. unfold loop_body.
  erewrite M_bind_val by reflexivity.
  erewrite M_bind_val by (by apply (exec_node_condition node expr)).
  cbn [context]. rewrite Hres, He. cbn [target_value].
  by erewrite advance_to.
Qed.

(** *** Further properties of the nodes and of the loop *)

Lemma M_bind_inv {A B} (m : M A) (k : A → M B) (st st' : St) (r : Res B) :
  (m ≫= k) st = (r, st') →
  (∃ a st1, m st = (Val a, st1) ∧ k a st1 = (r, st')) ∨
  (∃ e, m st = (Raise e, st') ∧ r = Raise e).
Proof.
  unfold mbind, M_bind. destruct (m st) as [[a|e] st1]; [left|right].
  - by exists a, st1.
  - injection H as <- <-. by exists e.
Qed.


Lemma advance_in_flow node nextNodeId st next st' :
  advance node nextNodeId st = (Val (Some next), st') → next ∈ nodes flow.
Proof.
  unfold advance. cbv zeta.
  destruct (negb (truthy _)); [by intros [=]|].
  match goal with
  | |- context [match ?x with Some _ => _ | None => _ end] =>
      destruct x as [target|] eqn:Htarget
  end; [|by intros [=]].
  intros [= <- _].
  match type of Htarget with
  | match ?v with _ => _ end = _ => destruct v; try done
  end.
  unfold nodeById in Htarget.
  apply foldl_insert_node_lookup in Htarget as [[H _]|H]; [done|].
  by rewrite lookup_empty in H.
Qed.

Lemma loop_body_in_flow node st next st' :
  loop_body node st = (Val (Some next), st') → next ∈ nodes flow.
Proof.
  unfold loop_body. intros H.
  apply M_bind_inv in H as [(u & st1 & _ & H)|(e & _ & [=])].
  apply M_bind_inv in H as [(step & st2 & _ & H)|(e & _ & [=])].
  destruct step as [nextNodeId|]; [|by injection H].
  by eapply advance_in_flow.
Qed.

Definition in_flow (id : string) : Prop := ∃ n, n ∈ nodes flow ∧ node_id n = id.

Lemma main_loop_in_flow fuel currentNode visited steps st :
  (∀ n, currentNode = Some n → n ∈ nodes flow) →
  Forall in_flow visited →
  Forall in_flow (visited_nodes (main_loop fuel currentNode visited steps st)).
Proof.
  revert currentNode visited steps st.
  induction fuel as [|fuel IH]; intros currentNode visited steps st Hcur Hvis;
    destruct currentNode as [node|]; cbn [main_loop visited_nodes]; try done.
  destruct (decide (SAFE_MAX_STEPS < steps)%nat); cbn [visited_nodes]; [done|].
  case_bool_decide; cbn [visited_nodes]; [done|].
  assert (Forall in_flow (visited ++ [node_id node])) as Hvis'.
  { apply Forall_app. split; [done|]. repeat constructor.
    exists node. split; [by apply Hcur|done]. }
  destruct (loop_body node st) as [[[next|]|e] st'] eqn:Hbody; cbn [visited_nodes];
    try done.
  apply IH; [|done]. intros ? [= <-]. by eapply loop_body_in_flow.
Qed.

(** *** The starting node *)

(** The normalized keyword of a trigger node: [None] stands for the
    [TypeError] raised by a keyword that is neither falsy nor a string. *)
Definition trigger_keyword (node : FlowNode) : option (option string) :=
  let v := coalesce (opt_prop (node_data node) "keyword") VNull in
  if negb (truthy v) then Some None
  else match v with
       | VStr s => Some (normalizeTrigger (Some s))
       | _ => None
       end.

(** The test of the loop over the trigger nodes: the input is the keyword
    or contains it, or the keyword is one of the words of the input. *)
Definition keyword_matches (input : option string) (keyword : string) : bool :=
  match input with
  | Some i => bool_decide (i = keyword) || includes i keyword
  | None => false
  end || bool_decide (keyword ∈ collectNormalizedParts input).

Definition is_keyword_trigger (input : option string) (node : FlowNode) : bool :=
  match trigger_keyword node with
  | Some (Some keyword) =>
      negb (bool_decide (keyword = DEFAULT_TRIGGER_KEYWORD)) &&
      keyword_matches input keyword
  | _ => false
  end.

Definition is_default_trigger (node : FlowNode) : bool :=
  bool_decide (trigger_keyword node = Some (Some DEFAULT_TRIGGER_KEYWORD)).

Lemma match_trigger_cons input t rest defaultTrigger st :
  match_trigger input (t :: rest) defaultTrigger st
  = match trigger_keyword t with
    | None => (Raise (JsException "TypeError"), st)
    | Some None => match_trigger input rest defaultTrigger st
    | Some (Some keyword) =>
        if bool_decide (keyword = "") then match_trigger input rest defaultTrigger st
        else if bool_decide (keyword = DEFAULT_TRIGGER_KEYWORD) then
          match_trigger input rest
            (match defaultTrigger with Some d => Some d | None => Some t end) st
        else if keyword_matches input keyword then (Val (Some t, defaultTrigger), st)
        else match_trigger input rest defaultTrigger st
    end.
Proof.
  cbn [match_trigger]. unfold mbind, M_bind, normalizeTriggerM, trigger_keyword.
  destruct (negb (truthy _)); [done|].
  destruct (coalesce _ _) as [| | | |s| |]; try done.
  cbn [mret M_ret]. destruct (normalizeTrigger (Some s)) as [keyword|]; [|done].
  case_bool_decide; [done|].
  case_bool_decide; [done|]. unfold keyword_matches.
  destruct (match input with Some _ => _ | None => _ end); [done|].
  cbn [orb]. by case_bool_decide.
Qed.

Lemma match_trigger_reads input triggerNodes defaultTrigger st r st' :
  match_trigger input triggerNodes defaultTrigger st = (r, st') →
  st' = st ∧
  ∀ found, r = Val found →
    (∀ n, found.1 = Some n → n ∈ triggerNodes) ∧
    (∀ n, found.2 = Some n → n ∈ triggerNodes ∨ defaultTrigger = Some n).
Proof.
  revert defaultTrigger r st'.
  induction triggerNodes as [|t rest IH]; intros defaultTrigger r st'.
  - intros [= <- <-]. split; [done|]. intros found [= <-]. split; [done|]. by right.
  - rewrite match_trigger_cons.
    assert (∀ d, match_trigger input rest d st = (r, st') →
              (∀ n, d = Some n → n ∈ t :: rest ∨ defaultTrigger = Some n) →
              st' = st ∧ ∀ found, r = Val found →
                (∀ n, found.1 = Some n → n ∈ t :: rest) ∧
                (∀ n, found.2 = Some n → n ∈ t :: rest ∨ defaultTrigger = Some n))
      as Hrest.
    { intros d Hm Hd. destruct (IH _ _ _ Hm) as [-> Hf]. split; [done|].
      intros found Hfound. destruct (Hf found Hfound) as [H1 H2]. split.
      - intros n Hn. right. by apply H1.
      - intros n Hn. destruct (H2 n Hn) as [?|Hdn]; [left; by right|by apply Hd]. }
    destruct (trigger_keyword t) as [[keyword|]|].
    + case_bool_decide as Hempty.
      { intros Hm. apply Hrest in Hm; [done|]. intros n Hn. by right. }
      case_bool_decide as Hdef.
      { intros Hm. apply Hrest in Hm; [done|]. intros n Hn.
        destruct defaultTrigger as [d|]; [by right|]. injection Hn as <-. left. by left. }
      destruct (keyword_matches input keyword).
      * intros [= <- <-]. split; [done|]. intros found [= <-]. split.
        -- intros n [= <-]. by left.
        -- intros n Hn. by right.
      * intros Hm. apply Hrest in Hm; [done|]. intros n Hn. by right.
    + intros Hm. apply Hrest in Hm; [done|]. intros n Hn. by right.
    + intros [= <- <-]. split; [done|]. by intros found [=].
Qed.

Lemma nodeById_in_flow i n : nodeById flow !! i = Some n → n ∈ nodes flow.
Proof.
  unfold nodeById. intros [[H _]|H]%foldl_insert_node_lookup; [done|].
  by rewrite lookup_empty in H.
Qed.

Lemma resume_options_in_flow paused messageText inbound st n inbound' st' :
  resume_options paused messageText inbound st = (Val (StartAt (Some n) inbound'), st') →
  n ∈ nodes flow.
Proof.
  unfold resume_options. cbv zeta. intros H.
  apply M_bind_inv in H as [(interactiveId & st1 & _ & H)|(e & _ & [=])].
  apply M_bind_inv in H as [(idx1 & st2 & _ & H)|(e & _ & [=])].
  apply M_bind_inv in H as [(idx & st3 & _ & H)|(e & _ & [=])].
  match type of H with
  | match ?x with Some _ => _ | None => _ end _ = _ => destruct x as [target|]
  end; [|by injection H].
  destruct (nodeById flow !! target) as [node|] eqn:Hnode; [|by injection H].
  injection H as <- _ _. by eapply nodeById_in_flow.
Qed.

Lemma find_start_in_flow messageText incomingMeta st n inbound st' :
  find_start messageText incomingMeta st = (Val (StartAt (Some n) inbound), st') →
  n ∈ nodes flow.
Proof.
  unfold find_start. cbv zeta.
  match goal with
  | |- match ?x with Some _ => _ | None => _ end _ = _ → _ => destruct x as [i|]
  end.
  - destruct (nodeById flow !! i) as [paused|] eqn:Hpaused; [|by intros [=]].
    case_bool_decide.
    + apply resume_options_in_flow.
    + intros [= <- _ _]. by eapply nodeById_in_flow.
  - intros H.
    apply M_bind_inv in H as [(found & st1 & Hfound & H)|(e & _ & [=])].
    apply match_trigger_reads in Hfound as [-> Hfound].
    destruct (Hfound found eq_refl) as [H1 H2].
    assert (∀ t, t ∈ List.filter (λ n, bool_decide (node_type n = "trigger"))
                       (nodes flow) → t ∈ nodes flow) as Hfilter.
    { intros t Ht%list_elem_of_In. apply filter_In in Ht as [Ht _].
      by apply list_elem_of_In. }
    destruct found as [[t|] d]; cbn [fst snd] in *.
    + injection H as <- _ _. by apply Hfilter, H1.
    + destruct d as [t|]; [|by injection H].
      injection H as <- _ _. destruct (H2 t eq_refl) as [Ht|[=]]. by apply Hfilter.
Qed.

(** X24: an execution never leaves the graph: every node it executes is a node
    of the flow, be it the node it starts at (a trigger, the node of a
    paused session, the target of a chosen option) or a node reached by an
    edge or by a jump. *)
Theorem execute_visits_flow_nodes (messageText : option string)
    (incomingMeta : option IncomingMessageMeta) (st : St) :
  Forall in_flow (visited_nodes (execute messageText incomingMeta st)).
Proof.
  unfold execute.
  destruct (find_start messageText incomingMeta st) as [[[currentNode inbound|]|e] st']
    eqn:Hstart; cbn [visited_nodes]; try done.
  apply main_loop_in_flow; [|done].
  intros n ->. by eapply find_start_in_flow.
Qed.

(** *** The choice of the trigger *)

(** A trigger whose keyword is absent, falsy or a string, and is not
    emptied by the normalization. *)
Definition well_typed_keyword (node : FlowNode) : Prop :=
  trigger_keyword node ≠ None ∧ trigger_keyword node ≠ Some (Some "").

Definition or_first (a b : option FlowNode) : option FlowNode :=
  match a with Some x => Some x | None => b end.

Lemma match_trigger_select input triggerNodes defaultTrigger st :
  Forall well_typed_keyword triggerNodes →
  ∃ d, match_trigger input triggerNodes defaultTrigger st
       = (Val (List.find (is_keyword_trigger input) triggerNodes, d), st) ∧
       (List.find (is_keyword_trigger input) triggerNodes = None →
        d = or_first defaultTrigger (List.find is_default_trigger triggerNodes)).
Proof.
  intros Hwt. revert defaultTrigger.
  induction Hwt as [|t rest Ht _ IH]; intros defaultTrigger.
  - exists defaultTrigger. split; [done|]. intros _. by destruct defaultTrigger.
  - rewrite match_trigger_cons. cbn [List.find].
    unfold is_keyword_trigger at 1 3, is_default_trigger at 1.
    destruct Ht as [Ht Hne].
    destruct (trigger_keyword t) as [[keyword|]|]; [| |done].
    + rewrite (bool_decide_eq_false_2 (keyword = "")) by congruence.
      case_bool_decide as Hdef; cbn [negb andb].
      * subst keyword. rewrite bool_decide_eq_true_2 by done.
        destruct (IH (or_first defaultTrigger (Some t))) as (d & Hd & Hnone).
        exists d. split; [exact Hd|]. intros Hf. rewrite (Hnone Hf).
        by destruct defaultTrigger.
      * destruct (keyword_matches input keyword).
        -- exists defaultTrigger. split; [done|]. by intros [=].
        -- rewrite bool_decide_eq_false_2 by congruence. apply IH.
    + rewrite bool_decide_eq_false_2 by congruence. apply IH.
Qed.

(** X25: for a session that is not paused, the execution starts at the first
    trigger node, in the order of the flow, whose keyword is not [default]
    and matches the message, wherever the default triggers stand; without
    such a node it starts at the first default trigger; without any, it
    returns at once and leaves the context and the session as they were. *)
Theorem find_start_trigger (messageText : option string)
    (incomingMeta : option IncomingMessageMeta) (st : St) :
  session_status session ≠ "Paused" →
  let triggers :=
    List.filter (λ n, bool_decide (node_type n = "trigger")) (nodes flow) in
  Forall well_typed_keyword triggers →
  find_start messageText incomingMeta st
  = match or_first (List.find (is_keyword_trigger (normalizeTrigger messageText)) triggers)
                   (List.find is_default_trigger triggers) with
    | Some t =>
        (Val (StartAt (Some t) (initial_inbound messageText incomingMeta)),
         {| context := <["triggerMessage" := opt_str messageText]> (context st);
            world := world st; row := row st; updates := updates st |})
    | None => (Val StartReturn, st)
    end.
Proof.
  intros Hstatus triggers Hwt. unfold find_start. cbv zeta.
  rewrite (bool_decide_eq_false_2 (session_status session = "Paused")) by done.
  assert (match session_currentNodeId session with
          | Some i => if negb (bool_decide (i = "")) && false then Some i else None
          | None => None
          end = None) as ->.
  { destruct (session_currentNodeId session); [|done]. by rewrite andb_false_r. }
  destruct (match_trigger_select (normalizeTrigger messageText) triggers None st Hwt)
    as (d & Hm & Hd).
  fold triggers. erewrite M_bind_val by exact Hm. cbn [fst snd].
  destruct (List.find (is_keyword_trigger (normalizeTrigger messageText)) triggers)
    as [t|]; cbn [or_first]; [done|].
  rewrite (Hd eq_refl). cbn [or_first].
  by destruct (List.find is_default_trigger triggers).
Qed.

(** *** Nodes that end the run *)

Lemma exec_node_end node st :
  node_type node = "end" → exec_node node st = exec_end (node_data node) st.
Proof. intros H. unfold exec_node. by rewrite H. Qed.

(** X26: an [end] node ends the run without an error: the end reason is written
    to the context and the session is persisted as [Completed], with no
    current node and with the final context. *)
Theorem end_node_completes (node : FlowNode) (st : St)
    (fuel steps : nat) (visited : list string) :
  node_type node = "end" → (steps ≤ SAFE_MAX_STEPS)%nat → node_id node ∉ visited →
  let r := main_loop (S fuel) (Some node) visited steps st in
  ending r = Returned ∧
  visited_nodes r = visited ++ [node_id node] ∧
  context (final r)
  = <["endReason" := coalesce (prop (node_data node) "reason") (VStr "end")]> (context st) ∧
  world (final r) = world st ∧
  row (final r) = {| row_status := "Completed"; row_currentNodeId := None;
                     row_context := context (final r) |}.
Proof.
  intros Htype Hsteps Hvisited r. subst r. cbn [main_loop].
  destruct (decide (SAFE_MAX_STEPS < steps)%nat); [lia|].
  rewrite bool_decide_eq_false_2 by done.
  unfold loop_body. erewrite M_bind_val by reflexivity.
  erewrite M_bind_val by (rewrite exec_node_end by done; reflexivity).
  done.
Qed.


(** *** Failures of a node *)







(** *** The components of a template message *)

Definition grouped_keys (grouped : list (string * TemplateMessageComponent))
    : list string := fst <$> grouped.

Definition grouped_count (grouped : list (string * TemplateMessageComponent)) : nat :=
  sum_list_with (λ kc, length (tc_parameters kc.2)) grouped.

(** The update of the entry of [key]. *)
Definition add_text (key text : string) (kc : string * TemplateMessageComponent)
    : string * TemplateMessageComponent :=
  if bool_decide (kc.1 = key)
  then (kc.1, {| tc_type := tc_type kc.2; tc_subType := tc_subType kc.2;
                 tc_index := tc_index kc.2;
                 tc_parameters := tc_parameters kc.2 ++ [text] |})
  else kc.

Lemma push_parameter_absent key text grouped :
  key ∉ grouped_keys grouped →
  existsb (λ kc : string * TemplateMessageComponent, bool_decide (kc.1 = key)) grouped
  = false ∧
  add_text key text <$> grouped = grouped.
Proof.
  induction grouped as [|[k c] grouped IH]; intros Hk; [done|].
  apply not_elem_of_cons in Hk as [Hk Hrest]. destruct (IH Hrest) as [He Hf].
  csimpl. unfold add_text at 1. cbn [fst].
  rewrite !bool_decide_eq_false_2 by done. by rewrite He, Hf.
Qed.

Lemma push_parameter_present key text grouped :
  key ∈ grouped_keys grouped → NoDup (grouped_keys grouped) →
  existsb (λ kc : string * TemplateMessageComponent, bool_decide (kc.1 = key)) grouped
  = true ∧
  grouped_keys (add_text key text <$> grouped) = grouped_keys grouped ∧
  grouped_count (add_text key text <$> grouped) = S (grouped_count grouped).
Proof.
  induction grouped as [|[k c] grouped IH]; intros Hk Hnd.
  - by apply not_elem_of_nil in Hk.
  - apply NoDup_cons in Hnd as [Hfresh Hnd]. csimpl. unfold add_text at 1 3. cbn [fst snd].
    destruct (decide (k = key)) as [->|Hne].
    + rewrite !bool_decide_eq_true_2 by done.
      destruct (push_parameter_absent key text grouped Hfresh) as [_ ->].
      split; [done|]. split; [done|].
      unfold grouped_count. csimpl. rewrite length_app. simpl. lia.
    + rewrite !bool_decide_eq_false_2 by done.
      apply elem_of_cons in Hk as [Hk|Hk]; [by subst|].
      destruct (IH Hk Hnd) as (He & Hkeys & Hcount). cbn [orb].
      split; [done|]. split.
      * unfold grouped_keys in *. csimpl. by rewrite Hkeys.
      * unfold grouped_count in *. csimpl. rewrite Hcount. lia.
Qed.

Lemma push_parameter_count key fresh text grouped :
  NoDup (grouped_keys grouped) → tc_parameters fresh = [] →
  NoDup (grouped_keys (push_parameter key fresh text grouped)) ∧
  grouped_count (push_parameter key fresh text grouped) = S (grouped_count grouped).
Proof.
  intros Hnd Hfresh. unfold push_parameter. fold (add_text key text).
  destruct (decide (key ∈ grouped_keys grouped)) as [Hin|Hout].
  - destruct (push_parameter_present key text grouped Hin Hnd) as (-> & Hkeys & Hcount).
    by rewrite Hkeys.
  - destruct (push_parameter_absent key text grouped Hout) as (-> & _). split.
    + unfold grouped_keys in *. rewrite fmap_app. csimpl.
      apply NoDup_app. split; [done|]. split; [|apply NoDup_singleton].
      intros x Hx ->%list_elem_of_singleton. done.
    + unfold grouped_count. rewrite sum_list_with_app. simpl.
      rewrite Hfresh. simpl. lia.
Qed.

Lemma memberM_reads v k st r st' : memberM v k st = (r, st') → st' = st.
Proof. unfold memberM. destruct (nullish v); by intros [= _ <-]. Qed.

Lemma trimM_reads v st r st' : trimM v st = (r, st') → st' = st.
Proof. unfold trimM. destruct (Meta.value_trim v); by intros [= _ <-]. Qed.

Lemma tplM_reads v st r st' : tplM v st = (r, st') → st' = st.
Proof.
  unfold tplM, mbind, M_bind, get_context.
  destruct (tpl_value (context st) v); by intros [= _ <-].
Qed.

Lemma normalizeTemplateComponentType_reads v st r st' :
  normalizeTemplateComponentType v st = (r, st') → st' = st.
Proof.
  unfold normalizeTemplateComponentType. intros H.
  apply M_bind_inv in H as [(base & st1 & Hb & H)|(e & Hb & _)].
  - apply trimM_reads in Hb as ->. by injection H as _ <-.
  - by apply trimM_reads in Hb.
Qed.

Lemma group_parameters_count params grouped st r st' :
  group_parameters params grouped st = (r, st') →
  st' = st ∧
  ∀ result, r = Val result → NoDup (grouped_keys grouped) →
    NoDup (grouped_keys result) ∧
    grouped_count result = (grouped_count grouped + length params)%nat.
Proof.
  revert grouped r st'. induction params as [|param rest IH]; intros grouped r st'.
  - intros [= <- <-]. split; [done|]. intros result [= <-] Hnd. split; [done|]. simpl. lia.
  - cbn [group_parameters]. intros H.
    apply M_bind_inv in H as [(component & st1 & Hc & H)|(e & Hc & ->)];
      apply memberM_reads in Hc as ->; [|by split].
    apply M_bind_inv in H as [(type & st1 & Ht & H)|(e & Ht & ->)];
      apply normalizeTemplateComponentType_reads in Ht as ->; [|by split].
    apply M_bind_inv in H as [(subType & st1 & Hs & H)|(e & Hs & ->)];
      apply trimM_reads in Hs as ->; [|by split].
    apply M_bind_inv in H as [(resolved & st1 & Hr & H)|(e & Hr & ->)];
      apply tplM_reads in Hr as ->; [|by split].
    apply IH in H as [-> H]. split; [done|].
    intros result Hresult Hnd.
    match type of H with
    | context [push_parameter ?key ?fresh ?text grouped] =>
        destruct (push_parameter_count key fresh text grouped Hnd eq_refl) as [Hnd' Hcount]
    end.
    destruct (H result Hresult Hnd') as [Hnd'' Hcount'].
    split; [done|]. rewrite Hcount', Hcount. simpl. lia.
Qed.

(** The number of text parameters carried by a component value. *)
Definition parameter_count (component : value) : nat :=
  length (elements (prop component "parameters")).

Lemma parameter_count_component c :
  parameter_count (component_value c) = length (tc_parameters c).
Proof.
  unfold parameter_count, component_value, obj.
  rewrite !foldl_app. cbn [foldl fst snd prop].
  rewrite lookup_insert_eq. cbn. by rewrite length_fmap.
Qed.

(** X29: the components built for a template message carry, between them, one
    text parameter for each template parameter of the node: grouping
    neither loses nor repeats a parameter; and building them leaves the
    state alone. *)
Theorem buildTemplateMessageComponents_count (params : list value) (st st' : St)
    (components : list value) :
  buildTemplateMessageComponents params st = (Val components, st') →
  st' = st ∧ sum_list_with parameter_count components = length params.
Proof.
  unfold buildTemplateMessageComponents. intros H.
  apply M_bind_inv in H as [(grouped & st1 & Hg & H)|(e & _ & [=])].
  apply group_parameters_count in Hg as [-> Hg]. injection H as <- <-.
  split; [done|].
  destruct (Hg grouped eq_refl) as [_ Hcount]; [constructor|].
  unfold grouped_count in Hcount. simpl in Hcount. rewrite <- Hcount.
  clear. induction grouped as [|[k c] grouped IH]; [done|].
  csimpl. by rewrite IH, parameter_count_component.
Qed.


End Engine.

(** ** [executeFlow] *)

(** The whole of [executeFlow]: the stored definition is sanitized, the
    graph read off it, and the body run on the session's context. A
    definition the sanitizer rejects makes the call throw before anything
    else happens. *)
Definition executeFlow {W : Type}
    (JSON_parse : string → option value)
    (string_to_number : string → num)
    (toUpperCase : string → string)
    (js_eval : string → gmap string value → option bool)
    (sendMessage : W → string → string → value → SendOutcome * W)
    (apiCall : W → string → value → option value * W)
    (nowIso : W → string * W)
    (sleep : W → Z → W)
    (stripDiacritics : string → string)
    (session : SessionInfo) (definition : value)
    (messageText : option string) (incomingMeta : option IncomingMessageMeta)
    (st : St) : FlowSchema.result (@LoopResult W) :=
  d ← FlowSchema.sanitizeFlowDefinition JSON_parse string_to_number definition;
  FlowSchema.Ok
    (execute string_to_number toUpperCase js_eval sendMessage apiCall nowIso
       sleep session (flow_of d) stripDiacritics messageText incomingMeta st).

(** ** Concrete runs *)

(** A world with nothing in it: no message is delivered, no request is
    answered, the clock stands still. *)
Module Quiet.

Definition js_eval (expr : string) (ctx : gmap string value) : option bool := None.
Definition sendMessage (w : unit) (userId to : string) (payload : value)
    : SendOutcome * unit := (Resolved None, w).
Definition apiCall (w : unit) (url : string) (init : value)
    : option value * unit := (None, w).
Definition nowIso (w : unit) : string * unit := ("2024-01-01T00:00:00.000Z", w).
Definition sleep (w : unit) (ms : Z) : unit := w.
Definition same (s : string) : string := s.

Definition session : SessionInfo :=
  {| session_status := "Active"; session_currentNodeId := None;
     flow_userId := "u1"; flow_name := "chain";
     metaFlowId := None; metaFlowToken := None; metaFlowVersion := None;
     contact_phone := "5491100000000" |}.

Definition initial : @St unit :=
  {| context := ∅; world := tt;
     row := {| row_status := "Active"; row_currentNodeId := None;
               row_context := ∅ |};
     updates := [] |}.

Definition run (definition : value) (messageText : option string)
    : FlowSchema.result (@LoopResult unit) :=
  executeFlow FlowSchema.no_json FlowSchema.no_number same js_eval sendMessage
    apiCall nowIso sleep same session definition messageText None initial.

End Quiet.

(** A flow that is one long chain: a trigger [n0] with the keyword [hola],
    followed by [assign] nodes [n1], [n2], ..., each with one edge to the
    next. *)
Definition chain_id (i : nat) : string := "n" +:+ pretty i.

Definition chain_node (i : nat) : value :=
  match i with
  | O => obj [("id", VStr (chain_id i)); ("type", VStr "trigger");
              ("data", obj [("keyword", VStr "hola")])]
  | S _ => obj [("id", VStr (chain_id i)); ("type", VStr "assign");
                ("data", obj [("key", VStr "last"); ("value", VStr (chain_id i))])]
  end.

Definition chain_edge (i : nat) : value :=
  obj [("id", VStr ("e" +:+ pretty i));
       ("source", VStr (chain_id i)); ("target", VStr (chain_id (S i)))].

Definition chain_definition (n : nat) : value :=
  obj [("nodes", VArr (chain_node <$> seq 0 n));
       ("edges", VArr (chain_edge <$> seq 0 (pred n)))].

(** What a run is observed by: how it ended, how many nodes it executed,
    the last node executed, and the persisted status. *)
Definition observe {W} (r : FlowSchema.result (@LoopResult W))
    : option (Ending * nat * option string * string) :=
  match r with
  | FlowSchema.Ok r =>
      Some (ending r, length (visited_nodes r), last (visited_nodes r),
            row_status (row (final r)))
  | FlowSchema.Err _ => None
  end.

Example chain_of_3 :
  observe (Quiet.run (chain_definition 3) (Some "hola"))
  = Some (Returned, 3%nat, Some "n2", "Completed").
Proof. vm_compute. reflexivity. Qed.

(** A chain one node longer than the limit is cut: the guard stops the run
    before node [n501] is executed and the session is persisted as
    [Errored]. *)
Example chain_of_502 :
  observe (Quiet.run (chain_definition 502) (Some "hola"))
  = Some (Returned, 501%nat, Some "n500", "Errored").
Proof. vm_compute. reflexivity. Qed.

(** C1: the step guard of the main loop lets 501 node steps through, one
    more than the stated cap of 500. On the chain of 501 nodes started by
    its trigger, every node [n0], ..., [n500] is executed, each once, the
    guard never fires, and the session is persisted as [Completed]. *)
Theorem executeFlow_runs_501_steps :
  observe (Quiet.run (chain_definition (SAFE_MAX_STEPS + 1)) (Some "hola"))
  = Some (Returned, (SAFE_MAX_STEPS + 1)%nat, Some "n500", "Completed").
Proof. vm_compute. reflexivity. Qed.

(** A condition whose expression would be true if it were evaluated: the
    evaluator below answers [true] to everything. *)
Definition eager_eval (expr : string) (ctx : gmap string value) : option bool :=
  Some true.

Definition guarded_node : FlowNode :=
  {| node_id := "c1"; node_type := "condition";
     node_data := obj [("expression", VStr "process.exit(1) || true")] |}.

Definition accepted_node : FlowNode :=
  {| node_id := "yes"; node_type := "end"; node_data := obj [] |}.

Definition refused_node : FlowNode :=
  {| node_id := "no"; node_type := "end"; node_data := obj [] |}.

Definition refused_edge : FlowEdge :=
  {| edge_source := "c1"; edge_target := "no"; edge_sourceHandle := VStr "false" |}.

Definition guarded_flow : Flow :=
  {| nodes := [guarded_node; accepted_node; refused_node];
     edges := [{| edge_source := "c1"; edge_target := "yes";
                  edge_sourceHandle := VStr "true" |};
               refused_edge] |}.

Lemma condition_rejects_unsafe_witness :
  (loop_body FlowSchema.no_number Quiet.same eager_eval Quiet.sendMessage
     Quiet.apiCall Quiet.nowIso Quiet.sleep Quiet.session guarded_flow
     guarded_node Quiet.initial).1
  = Val (Some refused_node).
Proof.
  destruct (condition_rejects_unsafe FlowSchema.no_number Quiet.same eager_eval
              Quiet.sendMessage Quiet.apiCall Quiet.nowIso Quiet.sleep
              Quiet.session guarded_flow guarded_node
              "process.exit(1) || true" Quiet.initial eq_refl eq_refl)
    as (_ & _ & _ & H).
  { left. exists "process", "", ".exit(1) || true".
    split; [apply list_elem_of_In; simpl; tauto|reflexivity]. }
  destruct (H refused_edge eq_refl) as (_ & _ & H').
  exact (H' refused_node eq_refl).
Defined.

(** With a harmless expression the same node follows the answer of the
    evaluator. *)
Example condition_accepts_safe :
  (loop_body FlowSchema.no_number Quiet.same eager_eval Quiet.sendMessage
     Quiet.apiCall Quiet.nowIso Quiet.sleep Quiet.session guarded_flow
     {| node_id := "c1"; node_type := "condition";
        node_data := obj [("expression", VStr "context.age > 18")] |}
     Quiet.initial).1
  = Val (Some accepted_node).
Proof. vm_compute. reflexivity. Qed.

(** ** Concrete runs of the further properties *)

Lemma nodeById_lookup_witness :
  refused_node ∈ nodes guarded_flow ∧ node_id refused_node = "no".
Proof. exact (proj1 (nodeById_lookup guarded_flow "no") refused_node eq_refl). Defined.

Lemma run_main_loop_guards_witness :
  row_status (row (final (main_loop FlowSchema.no_number Quiet.same eager_eval
                            Quiet.sendMessage Quiet.apiCall Quiet.nowIso Quiet.sleep
                            Quiet.session guarded_flow 1 (Some guarded_node) ["c1"] 1
                            Quiet.initial)))
  = "Errored".
Proof.
  destruct (run_main_loop_guards FlowSchema.no_number Quiet.same eager_eval
              Quiet.sendMessage Quiet.apiCall Quiet.nowIso Quiet.sleep Quiet.session
              guarded_flow None Quiet.initial) as (_ & _ & _ & H).
  destruct (H 0%nat guarded_node ["c1"] 1%nat Quiet.initial) as (_ & _ & Hs & _).
  - right. apply list_elem_of_here.
  - exact Hs.
Defined.

(** A flow with a default trigger placed before a keyword trigger. *)
Definition default_trigger_node : FlowNode :=
  {| node_id := "t0"; node_type := "trigger";
     node_data := obj [("keyword", VStr " Default ")] |}.

Definition ventas_trigger_node : FlowNode :=
  {| node_id := "t1"; node_type := "trigger";
     node_data := obj [("keyword", VStr "VENTAS")] |}.

Definition greeting_node : FlowNode :=
  {| node_id := "m1"; node_type := "message";
     node_data := obj [("text", VStr "Hola {{ lastUserMessage }}")] |}.

Definition closing_node : FlowNode :=
  {| node_id := "e1"; node_type := "end"; node_data := obj [("reason", VStr "done")] |}.

Definition ventas_flow : Flow :=
  {| nodes := [default_trigger_node; ventas_trigger_node; greeting_node; closing_node];
     edges := [{| edge_source := "t1"; edge_target := "m1"; edge_sourceHandle := VUndef |};
               {| edge_source := "m1"; edge_target := "e1"; edge_sourceHandle := VUndef |}] |}.

Lemma find_start_trigger_witness :
  find_start Quiet.session ventas_flow Quiet.same (Some "quiero ventas") None Quiet.initial
  = (Val (StartAt (Some ventas_trigger_node) (initial_inbound (Some "quiero ventas") None)),
     {| context := {[ "triggerMessage" := VStr "quiero ventas" ]}; world := tt;
        row := row Quiet.initial; updates := [] |}).
Proof.
  refine (eq_trans (find_start_trigger Quiet.session ventas_flow Quiet.same
                      (Some "quiero ventas") None Quiet.initial _ _) _).
  - discriminate.
  - repeat constructor; vm_compute; discriminate.
  - vm_compute. reflexivity.
Defined.

Lemma end_node_completes_witness :
  row_status (row (final (main_loop FlowSchema.no_number Quiet.same Quiet.js_eval
                            Quiet.sendMessage Quiet.apiCall Quiet.nowIso Quiet.sleep
                            Quiet.session ventas_flow 1 (Some closing_node) ["t1"; "m1"] 2
                            Quiet.initial)))
  = "Completed".
Proof.
  destruct (end_node_completes FlowSchema.no_number Quiet.same Quiet.js_eval
              Quiet.sendMessage Quiet.apiCall Quiet.nowIso Quiet.sleep Quiet.session
              ventas_flow closing_node Quiet.initial 0%nat 2%nat ["t1"; "m1"])
    as (_ & _ & _ & _ & H).
  - reflexivity.
  - unfold SAFE_MAX_STEPS. lia.
  - intros Hin. apply list_elem_of_In in Hin. simpl in Hin.
    destruct Hin as [[=]|[[=]|[]]].
  - exact (f_equal row_status H).
Defined.





Definition template_parameters : list value :=
  [obj [("component", VStr "body"); ("value", VStr "Ana")];
   obj [("component", VStr "BODY "); ("value", VStr "{{ triggerMessage }}")];
   obj [("component", VStr "button"); ("subType", VStr "url"); ("index", VNum (NFin 0));
        ("value", VStr "abc")]].

Lemma buildTemplateMessageComponents_count_witness :
  ∃ components,
    buildTemplateMessageComponents template_parameters Quiet.initial
    = (Val components, Quiet.initial) ∧
    length components = 2%nat ∧
    sum_list_with parameter_count components = 3%nat.
Proof.
  eexists. split; [vm_compute; reflexivity|]. split; [reflexivity|].
  refine (proj2 (buildTemplateMessageComponents_count template_parameters
                   Quiet.initial Quiet.initial _ _)).
  vm_compute. reflexivity.
Defined.

(** A whole run of the flow above: the keyword trigger, the greeting and the
    end. *)
Example ventas_run :
  let r := execute FlowSchema.no_number Quiet.same Quiet.js_eval
             (λ w _ _ _, (Resolved (Some (Meta.SendSuccess (Some "wamid.9"))), w))
             Quiet.apiCall Quiet.nowIso Quiet.sleep Quiet.session ventas_flow
             Quiet.same (Some "quiero ventas") None Quiet.initial in
  visited_nodes r = ["t1"; "m1"; "e1"] ∧ ending r = Returned ∧
  row_status (row (final r)) = "Completed" ∧
  context (final r) !! "lastBotMessage" = Some (VStr "Hola quiero ventas") ∧
  context (final r) !! "endReason" = Some (VStr "done").
Proof. vm_compute. done. Qed.



End Executor.

(* ===================================================================== *)
(** * The flow service ([src/lib/flow-executor.ts]): the Meta flow columns *)
(* ===================================================================== *)

Module FlowService.

Inductive Thrown :=
| FlowValidationError (message : string) (status : Z).

(** [normalizeOptionalString] *)
Definition normalizeOptionalString (value : JS.value) : JS.value :=
  match value with
  | VStr s =>
      let trimmed := trim s in
      if bool_decide (0 < String.length trimmed)%nat then VStr trimmed else VNull
  | _ => coalesce value VNull
  end.

(** The payload of an update, [MetaFlowUpsertInput | null | undefined]. *)
Inductive UpdatePayload :=
| PayloadNull
| PayloadUndefined
| PayloadObject (m : gmap string value).


Section Prepare.

(** [toJsonValue]: [JSON.parse(JSON.stringify(value))], [None] standing for
    the [FlowValidationError] thrown when the value cannot be serialized. *)
Variable toJsonValue : value → option value.

Definition metadata_error : Thrown :=
  FlowValidationError "Meta flow metadata must be JSON serializable" 400.


(** [if (hasOwn(payload, "metadata")) result.metaFlowMetadata = ...] *)
Definition set_metadata (payload result : gmap string value)
    : Thrown + gmap string value :=
  match payload !! "metadata" with
  | None => inr result
  | Some _ =>
      if nullish (prop (VObj payload) "metadata")
      then inr (<["metaFlowMetadata" := VNull]> result)
      else
        match toJsonValue (prop (VObj payload) "metadata") with
        | Some json => inr (<["metaFlowMetadata" := json]> result)
        | None => inl metadata_error
        end
  end.


(** [if (hasOwn(payload, field)) update[column] = normalizeOptionalString(payload[field])] *)
Definition set_if_own (payload : gmap string value) (field column : string)
    (update : gmap string value) : gmap string value :=
  match payload !! field with
  | Some _ => <[column := normalizeOptionalString (prop (VObj payload) field)]> update
  | None => update
  end.

Definition cleared_columns : gmap string value :=
  list_to_map [("metaFlowId", VNull); ("metaFlowToken", VNull);
               ("metaFlowVersion", VNull); ("metaFlowRevisionId", VNull);
               ("metaFlowStatus", VNull); ("metaFlowMetadata", VNull)].

Definition prepareMetaFlowUpdate (payload : UpdatePayload)
    : Thrown + gmap string value :=
  match payload with
  | PayloadNull => inr cleared_columns
  | PayloadUndefined => inr ∅
  | PayloadObject m =>
      let update : gmap string value := ∅ in
      let update := set_if_own m "id" "metaFlowId" update in
      let update := set_if_own m "token" "metaFlowToken" update in
      let update := set_if_own m "version" "metaFlowVersion" update in
      let update := set_if_own m "revisionId" "metaFlowRevisionId" update in
      let update := set_if_own m "status" "metaFlowStatus" update in
      set_metadata m update
  end.

(** ** Properties *)












End Prepare.

Definition json_identity (v : value) : option value := Some v.

Definition meta_payload : gmap string value :=
  list_to_map [("id", VStr "  flow-123 "); ("token", VStr "   "); ("version", VNull)].


(** The same payload seen by an update: the blank token and the [null]
    version are stored as [null], the absent fields are left alone. *)
Example prepareMetaFlowUpdate_sample :
  prepareMetaFlowUpdate json_identity (PayloadObject meta_payload)
  = inr (list_to_map [("metaFlowId", VStr "flow-123"); ("metaFlowToken", VNull);
                      ("metaFlowVersion", VNull)]).
Proof. vm_compute. reflexivity. Qed.

End FlowService.
